(** * bp2bst: Android.bp to BuildStream converter

    A shallow embedding of the Blueprint front end of [tools/bp2bst]
    (ast.py, evaluator.py, defaults.py, module_types.py, converter.py and
    the lexer of parser.py), with the properties of its specification.

    Conventions of the embedding:
    - a Python [str] is a [string]; for the lexer its characters are read
      as the code points below 256;
    - a [dict] that is only looked up and stored into ([Evaluator.variables],
      [DefaultsResolver.defaults_registry]) is a [gmap]; a [dict] whose
      iteration order is observed ([merged_props], the element's
      [variables]) is an insertion-ordered association list;
    - an exception is a value of [exn] carried by [outcome];
    - Python's recursion limit is a [fuel] argument: running out of it is
      [RecursionError]. *)

From Stdlib Require Import ZArith Ascii Sorted.
From stdpp Require Import base gmap sets list strings.

#[local] Set Warnings "-clear-no-such-hyp".

(** ** ast.py *)

#[local] Set Warnings "-register-all".
#[local] Unset Elimination Schemes.

Inductive Expression : Type :=
| StringExpr (value : string)
| BoolExpr (value : bool)
| IntExpr (value : Z)
| ListExpr (values : list Expression)
| MapExpr (properties : list Property)
| VariableRef (name : string)
| OperatorExpr (left : Expression) (op : string) (right : Expression)
| SelectExpr (func_name : string) (func_args : list string)
    (cases : list (list Expression * Expression))
with Property : Type :=
| mkProperty (name : string) (value : Expression).

#[local] Set Elimination Schemes.

Definition prop_name (p : Property) : string :=
  match p with mkProperty n _ => n end.

Definition prop_value (p : Property) : Expression :=
  match p with mkProperty _ v => v end.

Record Assignment : Type := mkAssignment {
  assign_name : string;
  assign_value : Expression;
  assigner : string
}.

Record BpModule : Type := mkModule {
  type : string;
  properties : list Property
}.

Inductive Defn : Type :=
| DefAssignment (a : Assignment)
| DefModule (m : BpModule).

Record File : Type := mkFile {
  file_name : string;
  defs : list Defn
}.

(** [MapExpr.get] and [Module.get]: the value of the first property of
    that name. *)
Fixpoint props_get (props : list Property) (name : string) : option Expression :=
  match props with
  | [] => None
  | prop :: rest =>
      if decide (prop_name prop = name) then Some (prop_value prop)
      else props_get rest name
  end.

Definition module_get (m : BpModule) (name : string) : option Expression :=
  props_get (properties m) name.

(** [Module.name]: the loop goes on after a ["name"] property whose value
    is not a [StringExpr]. *)
Fixpoint props_name (props : list Property) : option string :=
  match props with
  | [] => None
  | prop :: rest =>
      if decide (prop_name prop = "name") then
        match prop_value prop with
        | StringExpr s => Some s
        | _ => props_name rest
        end
      else props_name rest
  end.

Definition module_name (m : BpModule) : option string :=
  props_name (properties m).

(** [File.modules]. *)
Definition file_modules (f : File) : list BpModule :=
  omap (fun d => match d with DefModule m => Some m | DefAssignment _ => None end)
       (defs f).

(** ** Exceptions *)

Inductive exn : Type :=
| EvalError (msg : string)
| RecursionError.

Inductive outcome (E A : Type) : Type :=
| Ok (a : A)
| Raise (e : E).
Arguments Ok {E A} a.
Arguments Raise {E A} e.

Definition bind {E A B : Type} (x : outcome E A) (k : A → outcome E B)
  : outcome E B :=
  match x with
  | Ok a => k a
  | Raise e => Raise e
  end.

Notation "x ←! c ; k" := (bind c (fun x => k))
  (at level 20, c at level 100, k at level 200, only parsing).

(** A list comprehension whose body may raise: left to right, the first
    exception leaves the comprehension. *)
Fixpoint traverse {E A B : Type} (f : A → outcome E B) (l : list A)
  : outcome E (list B) :=
  match l with
  | [] => Ok []
  | a :: rest =>
      b ←! f a;
      bs ←! traverse f rest;
      Ok (b :: bs)
  end.

(** ** evaluator.py *)

Definition add_assignment (variables : gmap string Expression) (defn : Defn)
  : gmap string Expression :=
  match defn with
  | DefAssignment a =>
      if decide (assigner a = "+=") then
        match variables !! assign_name a with
        | Some existing =>
            <[assign_name a := OperatorExpr existing "+" (assign_value a)]> variables
        | None => <[assign_name a := assign_value a]> variables
        end
      else <[assign_name a := assign_value a]> variables
  | DefModule _ => variables
  end.

Definition add_file_variables (variables : gmap string Expression) (file : File)
  : gmap string Expression :=
  fold_left add_assignment (defs file) variables.

Definition undefined_variable (name : string) : exn :=
  EvalError ("Undefined variable: " +:+ name).

Fixpoint evaluate (fuel : nat) (variables : gmap string Expression)
    (expr : Expression) : outcome exn Expression :=
  match fuel with
  | O => Raise RecursionError
  | S fuel' =>
      match expr with
      | StringExpr _ | BoolExpr _ | IntExpr _ => Ok expr
      | VariableRef name =>
          match variables !! name with
          | None => Raise (undefined_variable name)
          | Some bound => evaluate fuel' variables bound
          end
      | OperatorExpr l op r =>
          left ←! evaluate fuel' variables l;
          right ←! evaluate fuel' variables r;
          if decide (op = "+") then
            match left, right with
            | ListExpr lv, ListExpr rv => Ok (ListExpr (lv ++ rv))
            | StringExpr ls, StringExpr rs => Ok (StringExpr (ls +:+ rs))
            | _, _ => Ok (OperatorExpr left op right)
            end
          else Ok (OperatorExpr left op right)
      | ListExpr values =>
          vs ←! traverse (evaluate fuel' variables) values;
          Ok (ListExpr vs)
      | MapExpr props =>
          ps ←! traverse
                 (fun p => v ←! evaluate fuel' variables (prop_value p);
                           Ok (mkProperty (prop_name p) v))
                 props;
          Ok (MapExpr ps)
      | SelectExpr _ _ _ => Ok expr
      end
  end.

Definition evaluate_module (fuel : nat) (variables : gmap string Expression)
    (module : BpModule) : outcome exn BpModule :=
  ps ←! traverse
         (fun p => v ←! evaluate fuel variables (prop_value p);
                   Ok (mkProperty (prop_name p) v))
         (properties module);
  Ok (mkModule (type module) ps).

Definition extract_string (expr : Expression) : option string :=
  match expr with
  | StringExpr s => Some s
  | _ => None
  end.

Definition extract_string_list (expr : Expression) : list string :=
  match expr with
  | ListExpr values =>
      fold_left
        (fun result v =>
           match extract_string v with
           | Some s => result ++ [s]
           | None => result
           end)
        values []
  | _ => []
  end.

Definition extract_bool (expr : Expression) : option bool :=
  match expr with
  | BoolExpr b => Some b
  | _ => None
  end.

Definition extract_map (expr : Expression) : option (list Property) :=
  match expr with
  | MapExpr props => Some props
  | _ => None
  end.

(** ** Insertion-ordered dictionaries

    A Python [dict] whose iteration order is observed: storing under a key
    it already has keeps the key's position, a new key goes last. *)

Section Dict.
Context {V : Type}.

Fixpoint dict_get (d : list (string * V)) (k : string) : option V :=
  match d with
  | [] => None
  | (k', v) :: rest => if decide (k' = k) then Some v else dict_get rest k
  end.

Fixpoint dict_set (d : list (string * V)) (k : string) (v : V)
  : list (string * V) :=
  match d with
  | [] => [(k, v)]
  | (k', v') :: rest =>
      if decide (k' = k) then (k, v) :: rest
      else (k', v') :: dict_set rest k v
  end.

Definition dict_keys (d : list (string * V)) : list string := d.*1.
End Dict.

(** ** defaults.py *)

Record DefaultsResolver : Type := mkDefaultsResolver {
  defaults_registry : gmap string BpModule
}.

Definition register_one (registry : gmap string BpModule) (module : BpModule)
  : gmap string BpModule :=
  if decide (type module = "cc_defaults") then
    match module_name module with
    | Some name => if decide (name = "") then registry else <[name := module]> registry
    | None => registry
    end
  else registry.

Definition register_defaults (self : DefaultsResolver) (modules : list BpModule)
  : DefaultsResolver :=
  mkDefaultsResolver (fold_left register_one modules (defaults_registry self)).

Definition items_to_props (d : list (string * Expression)) : list Property :=
  map (fun kv => mkProperty kv.1 kv.2) d.

Definition props_to_dict (props : list Property) : list (string * Expression) :=
  fold_left (fun d p => dict_set d (prop_name p) (prop_value p)) props [].

Fixpoint _merge_values (base overlay : Expression) {struct overlay} : Expression :=
  match base, overlay with
  | ListExpr bv, ListExpr ov => ListExpr (bv ++ ov)
  | MapExpr bp, MapExpr op =>
      let merged :=
        (fix loop (props : list Property) (merged : list (string * Expression)) :=
           match props with
           | [] => merged
           | mkProperty name value :: rest =>
               loop rest
                 match dict_get merged name with
                 | Some existing => dict_set merged name (_merge_values existing value)
                 | None => dict_set merged name value
                 end
           end) op (props_to_dict bp) in
      MapExpr (items_to_props merged)
  | _, _ => overlay
  end.

Definition merge_property (target : list (string * Expression)) (prop : Property)
  : list (string * Expression) :=
  let name := prop_name prop in
  if decide (name = "name" ∨ name = "defaults") then target
  else
    match dict_get target name with
    | Some existing => dict_set target name (_merge_values existing (prop_value prop))
    | None => dict_set target name (prop_value prop)
    end.

Definition _merge_properties (target : list (string * Expression))
    (props : list Property) : list (string * Expression) :=
  fold_left merge_property props target.

(** The names a module's own ["defaults"] property lists. *)
Definition nested_names (defaults_module : BpModule) : list string :=
  match module_get defaults_module "defaults" with
  | Some nested_defaults_prop => extract_string_list nested_defaults_prop
  | None => []
  end.

(** The state [_collect_defaults] updates in place: the [result] list and
    the [visited] set. [fuel] bounds the depth of the recursion; [None] is
    a recursion that did not come back within it. *)
Definition collect_state : Type := list BpModule * gset string.

Fixpoint _collect_defaults (fuel : nat) (registry : gmap string BpModule)
    (name : string) (st : collect_state) : option collect_state :=
  match fuel with
  | O => None
  | S fuel' =>
      if decide (name ∈ st.2) then Some st
      else
        let visited := {[name]} ∪ st.2 in
        match registry !! name with
        | None => Some (st.1, visited)
        | Some defaults_module =>
            match
              fold_left
                (fun acc nested_name =>
                   match acc with
                   | Some st' => _collect_defaults fuel' registry nested_name st'
                   | None => None
                   end)
                (nested_names defaults_module) (Some (st.1, visited))
            with
            | Some st' => Some (st'.1 ++ [defaults_module], st'.2)
            | None => None
            end
        end
  end.

(** The loop [for name in names: self._collect_defaults(name, ...)]. *)
Definition collect_all (fuel : nat) (registry : gmap string BpModule)
    (names : list string) (st : collect_state) : option collect_state :=
  fold_left
    (fun acc name =>
       match acc with
       | Some st' => _collect_defaults fuel registry name st'
       | None => None
       end)
    names (Some st).

(** A recursion depth that every registry's chains fit in (see
    [collect_all_terminates]). *)
Definition collect_fuel (registry : gmap string BpModule) : nat :=
  S (size registry).

Definition merge_all (all_defaults : list BpModule) (module : BpModule)
  : list (string * Expression) :=
  let merged_props :=
    fold_left (fun merged defaults_module =>
                 _merge_properties merged (properties defaults_module))
              all_defaults [] in
  _merge_properties merged_props
    (filter (fun p => prop_name p ≠ "defaults") (properties module)).

Definition finish_props (module : BpModule) (merged_props : list (string * Expression))
  : list Property :=
  let final_props := items_to_props merged_props in
  let has_name := bool_decide (Exists (fun p => prop_name p = "name") final_props) in
  if has_name then final_props
  else
    match module_get module "name" with
    | Some name_prop => mkProperty "name" name_prop :: final_props
    | None => final_props
    end.

Definition resolve_with (fuel : nat) (registry : gmap string BpModule)
    (module : BpModule) : option BpModule :=
  match module_get module "defaults" with
  | None => Some module
  | Some defaults_prop =>
      let defaults_names := extract_string_list defaults_prop in
      match defaults_names with
      | [] => Some module
      | _ =>
          match collect_all fuel registry defaults_names ([], ∅) with
          | Some (all_defaults, _) =>
              Some (mkModule (type module)
                      (finish_props module (merge_all all_defaults module)))
          | None => None
          end
      end
  end.

Definition resolve (self : DefaultsResolver) (module : BpModule) : option BpModule :=
  resolve_with (collect_fuel (defaults_registry self)) (defaults_registry self) module.

(** ** String helpers (Python built-ins) *)

(** [sep.join(parts)]. *)
Fixpoint str_join (sep : string) (parts : list string) : string :=
  match parts with
  | [] => ""
  | [s] => s
  | s :: rest => s +:+ sep +:+ str_join sep rest
  end.

(** [c in s] for a character [c]. *)
Fixpoint str_contains (c : ascii) (s : string) : bool :=
  match s with
  | EmptyString => false
  | String c' rest => if decide (c' = c) then true else str_contains c rest
  end.

(** [any(c in s for c in chars)]. *)
Fixpoint str_contains_any (chars : string) (s : string) : bool :=
  match chars with
  | EmptyString => false
  | String c rest => if str_contains c s then true else str_contains_any rest s
  end.

Definition newline : ascii := "010"%char.

(** [s.split("\n")]: never empty, one more piece than there are newlines. *)
Fixpoint str_split_lines (s : string) : list string :=
  match s with
  | EmptyString => [""]
  | String c rest =>
      if decide (c = newline) then "" :: str_split_lines rest
      else
        match str_split_lines rest with
        | [] => [String c ""]
        | first :: others => String c first :: others
        end
  end.

(** [sorted(set(l))]: the distinct strings of [l] in code-point order. *)
Fixpoint sorted_insert (s : string) (l : list string) : list string :=
  match l with
  | [] => [s]
  | x :: rest =>
      match String.compare s x with
      | Lt => s :: x :: rest
      | Eq => x :: rest
      | Gt => x :: sorted_insert s rest
      end
  end.

Definition sorted_set (l : list string) : list string :=
  foldr sorted_insert [] l.

(** ** module_types.py *)

Record Source : Type := mkSource {
  src_kind : string;
  src_path : string
}.

(** The element descriptor: a [dict] with the keys ["kind"], and some of
    ["depends"], ["sources"], ["variables"], ["config"]. *)
Record ElementContent : Type := mkContent {
  kind : string;
  depends : option (list string);
  sources : option (list Source);
  variables : option (list (string * string));
  config : option (list (string * string))
}.

Record Element : Type := mkElement {
  filename : string;
  content : ElementContent
}.

Inductive ModuleHandler : Type :=
| CcLibraryStaticHandler
| CcLibrarySharedHandler
| CcLibraryHandler
| CcBinaryHandler
| CcDefaultsHandler
| PrebuiltEtcHandler
| SkippedHandler.

Definition MODULE_TYPES (h : ModuleHandler) : list string :=
  match h with
  | CcLibraryStaticHandler => ["cc_library_static"]
  | CcLibrarySharedHandler => ["cc_library_shared"]
  | CcLibraryHandler => ["cc_library"]
  | CcBinaryHandler => ["cc_binary"; "cc_binary_host"]
  | CcDefaultsHandler => ["cc_defaults"]
  | PrebuiltEtcHandler => ["prebuilt_etc"; "prebuilt_etc_host"]
  | SkippedHandler =>
      ["package"; "license"; "ndk_headers"; "ndk_library";
       "cc_test"; "cc_test_host"; "cc_fuzz"; "cc_benchmark";
       "genrule"; "filegroup"; "vndk_prebuilt_shared"]
  end.

Definition can_handle (h : ModuleHandler) (module_type : string) : bool :=
  bool_decide (module_type ∈ MODULE_TYPES h).

Definition _HANDLERS : list ModuleHandler :=
  [CcLibraryStaticHandler; CcLibrarySharedHandler; CcLibraryHandler;
   CcBinaryHandler; CcDefaultsHandler; PrebuiltEtcHandler; SkippedHandler].

Definition get_handler (module_type : string) : option ModuleHandler :=
  List.find (fun h => can_handle h module_type) _HANDLERS.

(** [prop = module.get(key); if prop: ... extract_string_list(prop)]: an
    AST node is always true, so the test is [prop is not None]. *)
Definition string_list_prop (props : list Property) (key : string) : list string :=
  match props_get props key with
  | Some prop => extract_string_list prop
  | None => []
  end.

(** The shared body of [_get_srcs] and [_get_cflags]. *)
Definition with_arch (module : BpModule) (target_arch : string) (key : string)
  : list string :=
  string_list_prop (properties module) key ++
  match module_get module "arch" with
  | Some (MapExpr arch_map) =>
      match props_get arch_map target_arch with
      | Some (MapExpr arch_specific) => string_list_prop arch_specific key
      | _ => []
      end
  | _ => []
  end.

Definition _get_srcs (module : BpModule) (target_arch : string) : list string :=
  with_arch module target_arch "srcs".

Definition _get_cflags (module : BpModule) (target_arch : string) : list string :=
  with_arch module target_arch "cflags".

Definition _get_include_dirs (module : BpModule) : list string :=
  string_list_prop (properties module) "local_include_dirs" ++
  string_list_prop (properties module) "include_dirs".

Definition _get_export_include_dirs (module : BpModule) : list string :=
  string_list_prop (properties module) "export_include_dirs".

Definition lib_dep (lib_name : string) : string :=
  "external/" +:+ lib_name +:+ ".bst".

Definition _get_lib_deps (module : BpModule) : list string :=
  fold_left
    (fun deps dep_type =>
       fold_left (fun deps lib_name => deps ++ [lib_dep lib_name])
                 (string_list_prop (properties module) dep_type) deps)
    ["static_libs"; "shared_libs"; "whole_static_libs"; "header_libs"] [].

Definition local_sources (source_dir : string) : list Source :=
  if decide (source_dir = "") then [] else [mkSource "local_external" source_dir].

(** The body shared by [CcLibraryStaticHandler.convert] and
    [CcBinaryHandler.convert], which differ in the build type and in the
    key the name is stored under. *)
Definition convert_cc (build_type name_key : string) (module : BpModule)
    (target_arch source_dir : string) : option Element :=
  match module_name module with
  | None => None
  | Some name =>
      if decide (name = "") then None
      else
        let srcs := _get_srcs module target_arch in
        let cflags := _get_cflags module target_arch in
        let include_dirs := _get_include_dirs module in
        let export_include_dirs := _get_export_include_dirs module in
        let vars0 :=
          [("build-type", build_type); (name_key, name);
           ("src-files", str_join " " srcs)] in
        let vars1 :=
          match cflags with
          | [] => vars0
          | _ => dict_set vars0 "extra-cflags" (str_join " " cflags)
          end in
        let vars2 :=
          match include_dirs ++ export_include_dirs with
          | [] => vars1
          | all =>
              dict_set vars1 "include-flags"
                (str_join " " (map (fun d => "-I" +:+ d) (sorted_set all)))
          end in
        let deps := _get_lib_deps module in
        Some (mkElement (name +:+ ".bst")
                (mkContent "aosp_cc" (Some ("base/aosp-sdk.bst" :: deps))
                   (Some (local_sources source_dir)) (Some vars2) None))
  end.

Definition set_build_type (build_type : string) (result : option Element)
  : option Element :=
  match result with
  | Some e =>
      let c := content e in
      Some (mkElement (filename e)
              (mkContent (kind c) (depends c) (sources c)
                 (match variables c with
                  | Some vars => Some (dict_set vars "build-type" build_type)
                  | None => None
                  end)
                 (config c)))
  | None => None
  end.

Definition convert_prebuilt_etc (module : BpModule) (source_dir : string)
  : option Element :=
  match module_name module with
  | None => None
  | Some name =>
      if decide (name = "") then None
      else
        match module_get module "src" with
        | Some (StringExpr src) =>
            if decide (src = "") then None
            else
              Some (mkElement (name +:+ ".bst")
                      (mkContent "import" None (Some (local_sources source_dir))
                         None (Some [("source", src); ("target", "/etc")])))
        | _ => None
        end
  end.

Definition convert (h : ModuleHandler) (module : BpModule)
    (target_arch source_dir : string) : option Element :=
  match h with
  | CcLibraryStaticHandler =>
      convert_cc "static" "lib-name" module target_arch source_dir
  | CcLibrarySharedHandler =>
      set_build_type "shared"
        (convert_cc "static" "lib-name" module target_arch source_dir)
  | CcLibraryHandler =>
      set_build_type "shared"
        (convert_cc "static" "lib-name" module target_arch source_dir)
  | CcBinaryHandler =>
      convert_cc "binary" "binary-name" module target_arch source_dir
  | CcDefaultsHandler => None
  | PrebuiltEtcHandler => convert_prebuilt_etc module source_dir
  | SkippedHandler => None
  end.

(** ** converter.py *)

Record ConversionResult : Type := mkResult {
  elements : list Element;
  skipped : list string;
  errors : list string;
  unsupported : list string
}.

Record Evaluator : Type := mkEvaluator {
  ev_variables : gmap string Expression
}.

Record Converter : Type := mkConverter {
  target_arch : string;
  aosp_root : string;
  defaults_resolver : DefaultsResolver;
  evaluator : Evaluator
}.

(** [Converter.__init__]. *)
Definition new_converter (target_arch aosp_root : string) : Converter :=
  mkConverter target_arch aosp_root (mkDefaultsResolver ∅) (mkEvaluator ∅).

(** [str(e)] of an exception. *)
Definition exn_str (e : exn) : string :=
  match e with
  | EvalError msg => msg
  | RecursionError => "maximum recursion depth exceeded"
  end.

(** [f"{module.name}"]: [None] prints as [None]. *)
Definition name_str (m : BpModule) : string :=
  match module_name m with
  | Some n => n
  | None => "None"
  end.

(** [f"{module.type} '{module.name or '?'}'"]. *)
Definition describe (m : BpModule) : string :=
  type m +:+ " '" +:+
  match module_name m with
  | Some n => if decide (n = "") then "?" else n
  | None => "?"
  end +:+ "'".

(** [s.endswith(c)] and [s.startswith(c)] for a character [c]. *)
Fixpoint str_ends_with (c : ascii) (s : string) : bool :=
  match s with
  | EmptyString => false
  | String c' EmptyString => bool_decide (c' = c)
  | String _ rest => str_ends_with c rest
  end.

Definition str_starts_with (c : ascii) (s : string) : bool :=
  match s with
  | EmptyString => false
  | String c' _ => bool_decide (c' = c)
  end.

Definition slash : ascii := "047"%char.

(** [os.path.join(a, b)] on POSIX paths, for a non-empty [a]. *)
Definition path_join (a b : string) : string :=
  if str_starts_with slash b then b
  else if str_ends_with slash a then a +:+ b
  else a +:+ "/" +:+ b.

(** The outcome of [parse_file], which is not part of this embedding: the
    text of the exception it raised, or the file it returned. *)
Definition parse_outcome : Type := (string + File)%type.

(** The first loop of [convert_file]: a module whose evaluation raises is
    reported and left out of [evaluated_modules]. *)
Definition evaluate_step (recursion_limit : nat) (variables : gmap string Expression)
    (acc : list BpModule * list string) (module : BpModule)
  : list BpModule * list string :=
  match evaluate_module recursion_limit variables module with
  | Ok evaluated => (acc.1 ++ [evaluated], acc.2)
  | Raise e =>
      (acc.1,
       acc.2 ++ ["Evaluation error for " +:+ type module +:+ " '" +:+
                 name_str module +:+ "': " +:+ exn_str e])
  end.

(** The second loop of [convert_file], for one evaluated module. The call
    of [resolve] is outside the [try]: a recursion that does not come back
    leaves [convert_file] with the exception. The handlers of
    module_types.py raise nothing on an evaluated module, so the [except]
    branch around [handler.convert] has no counterpart here. *)
Definition convert_step (resolver : DefaultsResolver)
    (target_arch source_dir output_prefix : string)
    (result : ConversionResult) (module : BpModule)
  : outcome exn ConversionResult :=
  match get_handler (type module) with
  | None =>
      Ok (mkResult (elements result) (skipped result) (errors result)
            (unsupported result ++ [describe module]))
  | Some handler =>
      match resolve resolver module with
      | None => Raise RecursionError
      | Some resolved =>
          match convert handler resolved target_arch source_dir with
          | None =>
              Ok (mkResult (elements result) (skipped result ++ [describe module])
                    (errors result) (unsupported result))
          | Some element =>
              let element :=
                if decide (output_prefix = "") then element
                else mkElement (path_join output_prefix (filename element))
                       (content element) in
              Ok (mkResult (elements result ++ [element]) (skipped result)
                    (errors result) (unsupported result))
          end
      end
  end.

(** The two loops of [convert_file] over the modules of a file. *)
Definition evaluate_loop (recursion_limit : nat)
    (variables : gmap string Expression) (modules : list BpModule)
    (start : list BpModule * list string) : list BpModule * list string :=
  fold_left (evaluate_step recursion_limit variables) modules start.

Definition convert_loop (resolver : DefaultsResolver)
    (target_arch source_dir output_prefix : string) (modules : list BpModule)
    (start : outcome exn ConversionResult) : outcome exn ConversionResult :=
  fold_left
    (fun acc module =>
       result ←! acc;
       convert_step resolver target_arch source_dir output_prefix result module)
    modules start.

(** [Converter.convert_file]: the converter after the call, and the result
    it returns. [source_dir] is what the caller's file system makes of
    [bp_path]. *)
Definition convert_file (recursion_limit : nat) (self : Converter)
    (bp_path : string) (parsed : parse_outcome) (source_dir output_prefix : string)
  : outcome exn (Converter * ConversionResult) :=
  match parsed with
  | inl e =>
      Ok (self, mkResult [] [] ["Parse error in " +:+ bp_path +:+ ": " +:+ e] [])
  | inr file_ast =>
      let variables := add_file_variables (ev_variables (evaluator self)) file_ast in
      let evaluated :=
        evaluate_loop recursion_limit variables (file_modules file_ast) ([], []) in
      let resolver := register_defaults (defaults_resolver self) evaluated.1 in
      result ←! convert_loop resolver (target_arch self) source_dir output_prefix
                  evaluated.1 (Ok (mkResult [] [] evaluated.2 []));
      Ok (mkConverter (target_arch self) (aosp_root self) resolver
            (mkEvaluator variables),
          result)
  end.

(** A result with its [errors] replaced. *)
Definition set_errors (errs : list string) (r : ConversionResult)
  : ConversionResult :=
  mkResult (elements r) (skipped r) errs (unsupported r).

Definition dquote : string := String "034"%char EmptyString.

(** The characters [_format_bst] quotes a value for. *)
Definition yaml_special : string := "{}[]#&*!|>',@%".

Definition format_variable (kv : string * string) : list string :=
  let key := kv.1 in
  let value := kv.2 in
  if str_contains newline value then
    ("  " +:+ key +:+ ": |") ::
    map (fun vline => "    " +:+ vline) (str_split_lines value)
  else if str_contains_any yaml_special value then
    ["  " +:+ key +:+ ": " +:+ dquote +:+ value +:+ dquote]
  else ["  " +:+ key +:+ ": " +:+ value].

Definition format_source (src : Source) : list string :=
  ["- kind: " +:+ src_kind src; "  path: " +:+ src_path src].

Definition format_lines (element_dict : ElementContent) : list string :=
  ["kind: " +:+ kind element_dict; ""] ++
  match depends element_dict with
  | Some deps => ["depends:"] ++ map (fun dep => "- " +:+ dep) deps ++ [""]
  | None => []
  end ++
  match sources element_dict with
  | Some (src :: srcs) =>
      ["sources:"] ++ concat (map format_source (src :: srcs)) ++ [""]
  | _ => []
  end ++
  match variables element_dict with
  | Some vars => ["variables:"] ++ concat (map format_variable vars) ++ [""]
  | None => []
  end ++
  match config element_dict with
  | Some conf =>
      ["config:"] ++ map (fun kv => "  " +:+ kv.1 +:+ ": " +:+ kv.2) conf ++ [""]
  | None => []
  end.

Definition _format_bst (element_dict : ElementContent) : string :=
  str_join (String newline EmptyString) (format_lines element_dict).

(** ** parser.py: the lexer

    The text is a Python [str]; its characters are modelled as the code
    points below 256, on which [str.isalpha], [str.isdigit] and
    [str.isalnum] are those of the Unicode database. *)

Definition code (c : ascii) : nat := nat_of_ascii c.

Definition in_range (lo hi : nat) (c : ascii) : bool :=
  (lo <=? code c) && (code c <=? hi).

(** ASCII letters, and the letters of the Latin-1 supplement: U+00AA,
    U+00B5, U+00BA, U+00C0 to U+00FF without U+00D7 and U+00F7. *)
Definition isalpha (c : ascii) : bool :=
  in_range 65 90 c || in_range 97 122 c ||
  in_range 170 170 c || in_range 181 181 c || in_range 186 186 c ||
  in_range 192 214 c || in_range 216 246 c || in_range 248 255 c.

(** [0] to [9]: what [int] reads. *)
Definition isdecimal (c : ascii) : bool := in_range 48 57 c.

(** The decimal digits, and the superscripts U+00B2, U+00B3, U+00B9. *)
Definition isdigit (c : ascii) : bool :=
  isdecimal c || in_range 178 179 c || in_range 185 185 c.

(** Letters, digits, and the fractions U+00BC to U+00BE. *)
Definition isalnum (c : ascii) : bool :=
  isalpha c || isdigit c || in_range 188 190 c.

Inductive token_type : Type :=
| TOK_IDENT | TOK_STRING | TOK_INT
| TOK_LBRACE | TOK_RBRACE | TOK_LBRACKET | TOK_RBRACKET
| TOK_LPAREN | TOK_RPAREN | TOK_COLON | TOK_COMMA
| TOK_EQUALS | TOK_PLUS | TOK_PLUSEQ | TOK_EOF.

Inductive token_value : Type :=
| StrValue (s : string)
| IntValue (n : Z).

Record Token : Type := mkToken {
  tok_type : token_type;
  tok_value : token_value;
  tok_line : nat;
  tok_col : nat
}.

(** The message of a [ParseError] before it is formatted. *)
Inductive lex_message : Type :=
| Unterminated_string
| Unexpected_character (c : ascii).

Inductive lex_exn : Type :=
| ParseError (message : lex_message) (line col : nat)
| ValueError.

Record Lexer : Type := mkLexer {
  text : list ascii;
  pos : nat;
  line : nat;
  col : nat
}.

Definition new_lexer (s : string) : Lexer :=
  mkLexer (String.list_ascii_of_string s) 0 1 1.

Definition _peek (self : Lexer) : option ascii := text self !! pos self.

Definition _peek2 (self : Lexer) : option ascii := text self !! (pos self + 1).

Definition advance1 (self : Lexer) : Lexer :=
  match _peek self with
  | Some c =>
      if decide (c = newline)
      then mkLexer (text self) (pos self + 1) (line self + 1) 1
      else mkLexer (text self) (pos self + 1) (line self) (col self + 1)
  | None => self
  end.

Definition _advance (n : nat) (self : Lexer) : Lexer := Nat.iter n advance1 self.

(** Every loop of the lexer moves [pos] forward, so [length text] rounds
    are all a loop can make; the loops take that bound as [fuel]. *)
Fixpoint skip_line_comment (fuel : nat) (self : Lexer) : Lexer :=
  match fuel with
  | O => self
  | S fuel' =>
      match _peek self with
      | Some c =>
          if decide (c = newline) then self
          else skip_line_comment fuel' (advance1 self)
      | None => self
      end
  end.

Fixpoint skip_block_comment (fuel : nat) (self : Lexer) : Lexer :=
  match fuel with
  | O => self
  | S fuel' =>
      match _peek self with
      | Some c =>
          if bool_decide (c = "*"%char ∧ _peek2 self = Some "/"%char)
          then _advance 2 self
          else skip_block_comment fuel' (advance1 self)
      | None => self
      end
  end.

Definition is_space (c : ascii) : bool :=
  bool_decide (c = " "%char ∨ c = "009"%char ∨ c = "013"%char ∨ c = newline).

Fixpoint _skip_whitespace_and_comments (fuel : nat) (self : Lexer) : Lexer :=
  match fuel with
  | O => self
  | S fuel' =>
      match _peek self with
      | Some c =>
          if is_space c then _skip_whitespace_and_comments fuel' (advance1 self)
          else if bool_decide (c = "/"%char ∧ _peek2 self = Some "/"%char) then
            _skip_whitespace_and_comments fuel'
              (skip_line_comment (length (text self)) self)
          else if bool_decide (c = "/"%char ∧ _peek2 self = Some "*"%char) then
            _skip_whitespace_and_comments fuel'
              (skip_block_comment (length (text self)) (_advance 2 self))
          else self
      | None => self
      end
  end.

Definition backslash : ascii := "092"%char.
Definition quote : ascii := "034"%char.

Definition unescape (esc : ascii) : ascii :=
  if decide (esc = "n"%char) then newline
  else if decide (esc = "t"%char) then "009"%char
  else esc.

Fixpoint read_string_loop (fuel : nat) (self : Lexer) (result : list ascii)
  : outcome lex_exn (string * Lexer) :=
  match fuel with
  | O => Raise (ParseError Unterminated_string (line self) (col self))
  | S fuel' =>
      match _peek self with
      | None => Raise (ParseError Unterminated_string (line self) (col self))
      | Some c =>
          if decide (c = backslash) then
            let self := advance1 self in
            match _peek self with
            | Some esc =>
                read_string_loop fuel' (advance1 self) (result ++ [unescape esc])
            | None => read_string_loop fuel' self result
            end
          else if decide (c = quote) then
            Ok (String.string_of_list_ascii result, advance1 self)
          else read_string_loop fuel' (advance1 self) (result ++ [c])
      end
  end.

Definition _read_string (self : Lexer) : outcome lex_exn (string * Lexer) :=
  read_string_loop (length (text self)) (advance1 self) [].

(** [self.text[start : self.pos]]. *)
Definition slice (self : Lexer) (start : nat) : list ascii :=
  take (pos self - start) (drop start (text self)).

Fixpoint read_ident_loop (fuel : nat) (self : Lexer) : Lexer :=
  match fuel with
  | O => self
  | S fuel' =>
      match _peek self with
      | Some c =>
          if isalnum c || bool_decide (c = "_"%char)
          then read_ident_loop fuel' (advance1 self)
          else self
      | None => self
      end
  end.

Definition _read_ident (self : Lexer) : string * Lexer :=
  let self' := read_ident_loop (length (text self)) self in
  (String.string_of_list_ascii (slice self' (pos self)), self').

Fixpoint read_digits_loop (fuel : nat) (self : Lexer) : Lexer :=
  match fuel with
  | O => self
  | S fuel' =>
      match _peek self with
      | Some c => if isdigit c then read_digits_loop fuel' (advance1 self) else self
      | None => self
      end
  end.

Fixpoint decimal_value (acc : Z) (digits : list ascii) : option Z :=
  match digits with
  | [] => Some acc
  | c :: rest =>
      if isdecimal c then decimal_value (10 * acc + (Z.of_nat (code c) - 48)) rest
      else None
  end.

(** [int(s)] for a text that is an optional [-] and then characters
    [isdigit] holds of: a character that is not a decimal digit is a
    [ValueError]. *)
Definition py_int (s : list ascii) : outcome lex_exn Z :=
  match s with
  | c :: rest =>
      if decide (c = "-"%char) then
        match decimal_value 0 rest with
        | Some v => Ok (- v)%Z
        | None => Raise ValueError
        end
      else
        match decimal_value 0 s with
        | Some v => Ok v
        | None => Raise ValueError
        end
  | [] => Raise ValueError
  end.

Definition _read_int (self : Lexer) : outcome lex_exn (Z * Lexer) :=
  let self1 := if decide (_peek self = Some "-"%char) then advance1 self else self in
  let self' := read_digits_loop (length (text self)) self1 in
  v ←! py_int (slice self' (pos self));
  Ok (v, self').

Definition punctuation (c : ascii) : option (token_type * string) :=
  if decide (c = "{"%char) then Some (TOK_LBRACE, "{")
  else if decide (c = "}"%char) then Some (TOK_RBRACE, "}")
  else if decide (c = "["%char) then Some (TOK_LBRACKET, "[")
  else if decide (c = "]"%char) then Some (TOK_RBRACKET, "]")
  else if decide (c = "("%char) then Some (TOK_LPAREN, "(")
  else if decide (c = ")"%char) then Some (TOK_RPAREN, ")")
  else if decide (c = ":"%char) then Some (TOK_COLON, ":")
  else if decide (c = ","%char) then Some (TOK_COMMA, ",")
  else None.

Definition next_token (self : Lexer) : outcome lex_exn (Token * Lexer) :=
  let self := _skip_whitespace_and_comments (length (text self)) self in
  match _peek self with
  | None => Ok (mkToken TOK_EOF (StrValue "") (line self) (col self), self)
  | Some c =>
      let line := line self in
      let col := col self in
      if decide (c = quote) then
        r ←! _read_string self;
        Ok (mkToken TOK_STRING (StrValue r.1) line col, r.2)
      else if isalpha c || bool_decide (c = "_"%char) then
        let r := _read_ident self in
        Ok (mkToken TOK_IDENT (StrValue r.1) line col, r.2)
      else if isdigit c ||
              (bool_decide (c = "-"%char) &&
               match _peek2 self with Some d => isdigit d | None => false end) then
        r ←! _read_int self;
        Ok (mkToken TOK_INT (IntValue r.1) line col, r.2)
      else
        match punctuation c with
        | Some (ty, s) => Ok (mkToken ty (StrValue s) line col, advance1 self)
        | None =>
            if decide (c = "+"%char) then
              let self := advance1 self in
              if decide (_peek self = Some "="%char)
              then Ok (mkToken TOK_PLUSEQ (StrValue "+=") line col, advance1 self)
              else Ok (mkToken TOK_PLUS (StrValue "+") line col, self)
            else if decide (c = "="%char) then
              Ok (mkToken TOK_EQUALS (StrValue "=") line col, advance1 self)
            else Raise (ParseError (Unexpected_character c) line col)
        end
  end.

(** ** Specification-side definitions *)

(** The values of the String elements of a list, in list order: what the
    specification says [extract_string_list] returns for a ListExpr. *)
Fixpoint string_values (values : list Expression) : list string :=
  match values with
  | [] => []
  | StringExpr s :: rest => s :: string_values rest
  | _ :: rest => string_values rest
  end.

(** [expr] evaluates to [v] in the scope [variables]: the evaluator
    returns [v] when it is given enough recursion depth. *)
Definition evaluates_to (variables : gmap string Expression)
    (expr v : Expression) : Prop :=
  ∃ fuel, evaluate fuel variables expr = Ok v.

Definition is_list (e : Expression) : bool :=
  match e with ListExpr _ => true | _ => false end.

Definition is_string (e : Expression) : bool :=
  match e with StringExpr _ => true | _ => false end.

(** The module types that are emitted as [aosp_cc] elements. *)
Definition cc_types : list string :=
  ["cc_library_static"; "cc_library_shared"; "cc_library"; "cc_binary";
   "cc_binary_host"].

(** The library names a module lists under [key]: the String elements of
    the List bound to [key], in list order. *)
Definition lib_names (module : BpModule) (key : string) : list string :=
  match module_get module key with
  | Some (ListExpr values) => string_values values
  | _ => []
  end.

(** Scenario S6 of the specification. *)
Definition scenario_S6 : BpModule :=
  mkModule "cc_binary"
    [mkProperty "name" (StringExpr "bz");
     mkProperty "srcs" (ListExpr [StringExpr "m.c"]);
     mkProperty "static_libs" (ListExpr [StringExpr "libbz"]);
     mkProperty "shared_libs" (ListExpr [StringExpr "libz"])].

(** The registered names that are not visited yet: the measure that
    bounds the depth of the recursion of [_collect_defaults]. *)
Definition unvisited (registry : gmap string BpModule) (visited : gset string)
  : nat :=
  size (dom registry ∖ visited).

(** [module] binds the name [key] exactly once, to [value]. *)
Definition binds_once (module : BpModule) (key : string) (value : Expression)
  : Prop :=
  module_get module key = Some value ∧
  length (filter (fun p => prop_name p = key) (properties module)) = 1.

(** What [_merge_properties] keeps true of [merged_props]: one entry per
    key, and no entry for ["name"] or ["defaults"]. *)
Definition merged_ok (d : list (string * Expression)) : Prop :=
  NoDup (dict_keys d) ∧ ("name" ∉ dict_keys d) ∧ ("defaults" ∉ dict_keys d).

(** The claim on list-valued defaults as stated: [module] inherits
    [n1; n2], registered as [D1] and [D2], which have no [defaults] of
    their own, and all three bind a List to [P]. *)
Definition defaults_concat_claim (registry : gmap string BpModule)
    (module : BpModule) (n1 n2 : string) (D1 D2 : BpModule) (P : string)
    (v1 v2 vm : list Expression) : Prop :=
  module_get module "defaults" = Some (ListExpr [StringExpr n1; StringExpr n2]) →
  registry !! n1 = Some D1 → registry !! n2 = Some D2 →
  module_get D1 "defaults" = None → module_get D2 "defaults" = None →
  P ≠ "name" → P ≠ "defaults" →
  module_get D1 P = Some (ListExpr v1) →
  module_get D2 P = Some (ListExpr v2) →
  module_get module P = Some (ListExpr vm) →
  ∃ resolved,
    resolve (mkDefaultsResolver registry) module = Some resolved ∧
    module_get resolved P = Some (ListExpr (v1 ++ v2 ++ vm)).

Definition defaults_A : BpModule :=
  mkModule "cc_defaults"
    [mkProperty "name" (StringExpr "A");
     mkProperty "cflags" (ListExpr [StringExpr "-a"])].

Definition defaults_B : BpModule :=
  mkModule "cc_defaults"
    [mkProperty "name" (StringExpr "B");
     mkProperty "cflags" (ListExpr [StringExpr "-b"])].

(** A defaults module that binds [cflags] twice. *)
Definition defaults_twice : BpModule :=
  mkModule "cc_defaults"
    [mkProperty "name" (StringExpr "A");
     mkProperty "cflags" (ListExpr [StringExpr "-a"]);
     mkProperty "cflags" (ListExpr [StringExpr "-x"])].

Definition inherits (n1 n2 : string) : BpModule :=
  mkModule "cc_library_static"
    [mkProperty "name" (StringExpr "m");
     mkProperty "defaults" (ListExpr [StringExpr n1; StringExpr n2]);
     mkProperty "cflags" (ListExpr [StringExpr "-m"])].

Definition registry_of (modules : list BpModule) : gmap string BpModule :=
  defaults_registry (register_defaults (mkDefaultsResolver ∅) modules).

(** A [prebuilt_etc] module whose source file name has a comma in it. *)
Definition etc_conf : BpModule :=
  mkModule "prebuilt_etc"
    [mkProperty "name" (StringExpr "conf");
     mkProperty "src" (StringExpr "a,b.conf")].

(** The letters of the identifier grammar [[A-Za-z_][A-Za-z0-9_]*]. *)
Definition ascii_letter (c : ascii) : bool :=
  in_range 65 90 c || in_range 97 122 c.

Definition ident_start (c : ascii) : bool :=
  ascii_letter c || bool_decide (c = "_"%char).

Definition ident_char (c : ascii) : bool :=
  ident_start c || isdecimal c.

(** U+00E9, a letter that is not an ASCII letter, and U+00B2, a digit that
    is not a decimal digit. *)
Definition e_acute : ascii := "233"%char.
Definition superscript_two : ascii := "178"%char.

(** [expr] refers to the variable [x]. With [in_select] the references in
    the case values of a select expression count, without it only the
    references outside every select expression. *)
Inductive refers (in_select : bool) (x : string) : Expression → Prop :=
| refers_var : refers in_select x (VariableRef x)
| refers_left l op r :
    refers in_select x l → refers in_select x (OperatorExpr l op r)
| refers_right l op r :
    refers in_select x r → refers in_select x (OperatorExpr l op r)
| refers_list values v :
    v ∈ values → refers in_select x v → refers in_select x (ListExpr values)
| refers_map props p :
    p ∈ props → refers in_select x (prop_value p) →
    refers in_select x (MapExpr props)
| refers_select func_name func_args cases patterns v :
    in_select = true → (patterns, v) ∈ cases → refers in_select x v →
    refers in_select x (SelectExpr func_name func_args cases).

(** The scope a file's modules are evaluated in. *)
Definition scope_of (self : Converter) (file : File) : gmap string Expression :=
  add_file_variables (ev_variables (evaluator self)) file.

(** The claim on undefined variables, for a notion [refers] of reference:
    a module [m] of the file that refers to a variable without binding
    costs one error string and is otherwise converted around. *)
Definition undefined_reported (in_select : bool) (recursion_limit : nat)
    (self : Converter) (bp_path fname : string) (pre : list Defn) (m : BpModule)
    (post : list Defn) (source_dir output_prefix : string) : Prop :=
  ∀ p x,
    p ∈ properties m →
    refers in_select x (prop_value p) →
    scope_of self (mkFile fname (pre ++ DefModule m :: post)) !! x = None →
    ∃ c r r' before msg after,
      convert_file recursion_limit self bp_path
        (inr (mkFile fname (pre ++ DefModule m :: post)))
        source_dir output_prefix = Ok (c, r) ∧
      convert_file recursion_limit self bp_path
        (inr (mkFile fname (pre ++ post))) source_dir output_prefix = Ok (c, r') ∧
      elements r = elements r' ∧
      skipped r = skipped r' ∧
      unsupported r = unsupported r' ∧
      errors r' = before ++ after ∧
      errors r = before ++ msg :: after.

(** A module whose only reference to an unbound variable is in a case of
    a select expression. *)
Definition selects_undefined : BpModule :=
  mkModule "cc_library_static"
    [mkProperty "name" (StringExpr "x");
     mkProperty "srcs"
       (SelectExpr "soong_config_variable" ["a"; "b"]
          [([StringExpr "default"], VariableRef "undefined")])].

(** One call of [convert_file]: the path of the file, what [parse_file]
    made of it, its source directory and the caller's prefix. *)
Record conversion : Type := mkConversion {
  conv_path : string;
  conv_parsed : parse_outcome;
  conv_source_dir : string;
  conv_prefix : string
}.

Definition run (recursion_limit : nat) (self : Converter) (job : conversion)
  : outcome exn (Converter * ConversionResult) :=
  convert_file recursion_limit self (conv_path job) (conv_parsed job)
    (conv_source_dir job) (conv_prefix job).

(** The claim that a converter carries nothing from [G] into [F]: [F]
    converts the same after [G] as with a new converter. *)
Definition no_carry_over (recursion_limit : nat) (target_arch aosp_root : string)
    (G F : conversion) : Prop :=
  ∀ c1 rG c2 r c2' r',
    run recursion_limit (new_converter target_arch aosp_root) G = Ok (c1, rG) →
    run recursion_limit c1 F = Ok (c2, r) →
    run recursion_limit (new_converter target_arch aosp_root) F = Ok (c2', r') →
    r = r'.

(** [G] binds a variable that [F] uses without binding it. *)
Definition file_G : File :=
  mkFile "G/Android.bp"
    [DefAssignment (mkAssignment "base" (ListExpr [StringExpr "-O2"]) "=")].

Definition file_F : File :=
  mkFile "F/Android.bp"
    [DefModule
       (mkModule "cc_library_static"
          [mkProperty "name" (StringExpr "x");
           mkProperty "cflags" (VariableRef "base")])].

(** A parsed file that leaves nothing in a converter: it has no
    assignment and no [cc_defaults] module. A file that did not parse
    leaves nothing either. *)
Definition leaves_nothing (G : parse_outcome) : Prop :=
  match G with
  | inl _ => True
  | inr file =>
      Forall (fun d =>
                match d with
                | DefAssignment _ => False
                | DefModule m => type m ≠ "cc_defaults"
                end) (defs file)
  end.

(** ** The defaults graph

    A registered module [D] under the name [d] refers to the names of
    [nested_names D]. The traversal of [_collect_defaults] is a depth-first
    search of this graph from the names a module inherits. *)

(** [e] without the String elements [n]. *)
Definition drop_name (n : string) (e : Expression) : Expression :=
  match e with
  | ListExpr values =>
      ListExpr (filter (fun v => extract_string v ≠ Some n) values)
  | _ => e
  end.

(** The property list with [n] dropped from the first [defaults]
    property, the one [Module.get] returns. *)
Fixpoint drop_reference_props (n : string) (props : list Property)
  : list Property :=
  match props with
  | [] => []
  | p :: rest =>
      if decide (prop_name p = "defaults")
      then mkProperty (prop_name p) (drop_name n (prop_value p)) :: rest
      else p :: drop_reference_props n rest
  end.

Definition drop_reference (n : string) (m : BpModule) : BpModule :=
  mkModule (type m) (drop_reference_props n (properties m)).

(** The registry with the edge from [d] to [n] removed. *)
Definition without_edge (d n : string) (registry : gmap string BpModule)
  : gmap string BpModule :=
  alter (drop_reference n) d registry.

(** [expands registry names st stack x st_x]: the loop over [names] that
    starts in state [st] comes to expand [x], that is, to call
    [_collect_defaults] for [x] in a state [st_x] where [x] is not visited
    yet; [stack] are the names whose calls are open at that moment, the
    innermost last. *)
Inductive expands (registry : gmap string BpModule)
  : list string → collect_state → list string → string → collect_state → Prop :=
| expands_here names done_names x rest st st_x fuel :
    names = done_names ++ x :: rest →
    collect_all fuel registry done_names st = Some st_x →
    x ∉ st_x.2 →
    expands registry names st [] x st_x
| expands_nested names done_names a rest st st_a fuel A stack x st_x :
    names = done_names ++ a :: rest →
    collect_all fuel registry done_names st = Some st_a →
    a ∉ st_a.2 →
    registry !! a = Some A →
    expands registry (nested_names A) (st_a.1, {[a]} ∪ st_a.2) stack x st_x →
    expands registry names st (a :: stack) x st_x.

(** The reference from [d] to [n] is a back-edge of the traversal from
    [names]: when [d] is expanded, [n] is [d] itself or a name whose call
    is still open. *)
Definition back_edge (registry : gmap string BpModule) (names : list string)
    (d n : string) : Prop :=
  ∃ stack st_d D,
    expands registry names ([], ∅) stack d st_d ∧
    registry !! d = Some D ∧
    n ∈ nested_names D ∧
    (n = d ∨ n ∈ stack).

(** Two modules that merge alike into every target. *)
Definition same_merge (m m' : BpModule) : Prop :=
  ∀ target,
    _merge_properties target (properties m') =
    _merge_properties target (properties m).

(** Two states of the traversal, in a registry and in the registry
    without an edge: the same names visited, and modules that merge
    alike collected. *)
Definition similar (st st' : collect_state) : Prop :=
  st.2 = st'.2 ∧ Forall2 same_merge st.1 st'.1.

(** A cycle of two defaults modules. *)
Definition cycle_A : BpModule :=
  mkModule "cc_defaults"
    [mkProperty "name" (StringExpr "A");
     mkProperty "defaults" (ListExpr [StringExpr "B"]);
     mkProperty "cflags" (ListExpr [StringExpr "-a"])].

Definition cycle_B : BpModule :=
  mkModule "cc_defaults"
    [mkProperty "name" (StringExpr "B");
     mkProperty "defaults" (ListExpr [StringExpr "A"]);
     mkProperty "cflags" (ListExpr [StringExpr "-b"])].

Definition inherits_A : BpModule :=
  mkModule "cc_library_static"
    [mkProperty "name" (StringExpr "m");
     mkProperty "defaults" (ListExpr [StringExpr "A"]);
     mkProperty "cflags" (ListExpr [StringExpr "-m"])].

(** Once [n] is visited, a call at depth [fuel] goes the same way in the
    registry without the edge from [d] to [n]. *)
Definition call_simulated (registry : gmap string BpModule) (d n : string)
    (fuel : nat) : Prop :=
  ∀ x st st' st1,
    similar st st' → n ∈ st.2 →
    _collect_defaults fuel registry x st = Some st1 →
    ∃ st1',
      _collect_defaults fuel (without_edge d n registry) x st' = Some st1' ∧
      similar st1 st1'.

(** The names a file assigns, in source order. *)
Definition assigned_names (file : File) : list string :=
  omap (fun d => match d with
                 | DefAssignment a => Some (assign_name a)
                 | DefModule _ => None
                 end) (defs file).

(** What [register_defaults] keeps true of the registry: a module is
    stored under its own name, which is not empty, and is a
    [cc_defaults] module. *)
Definition registry_ok (registry : gmap string BpModule) : Prop :=
  ∀ k m, registry !! k = Some m →
         type m = "cc_defaults" ∧ module_name m = Some k ∧ k ≠ "".

(** The step of the loop of [_merge_values] over the overlay of a map. *)
Definition merge_entry (merged : list (string * Expression)) (prop : Property)
  : list (string * Expression) :=
  match dict_get merged (prop_name prop) with
  | Some existing =>
      dict_set merged (prop_name prop) (_merge_values existing (prop_value prop))
  | None => dict_set merged (prop_name prop) (prop_value prop)
  end.

(** A value that is neither a List nor a Map. *)
Definition is_scalar (e : Expression) : bool :=
  match e with
  | ListExpr _ | MapExpr _ => false
  | _ => true
  end.

(** What a call or a loop of [_collect_defaults] adds going from [st] to
    [st']: the visited set grows, and the modules appended are those of
    the registered names visited on the way, one for each name. *)
Definition collected (registry : gmap string BpModule) (st st' : collect_state)
  : Prop :=
  st.2 ⊆ st'.2 ∧
  ∃ ks new,
    st'.1 = st.1 ++ new ∧
    NoDup ks ∧
    (∀ k, k ∈ ks ↔ k ∈ st'.2 ∧ (k ∉ st.2) ∧ is_Some (registry !! k)) ∧
    Forall2 (fun k m => registry !! k = Some m) ks new.

(** A module's own properties as [resolve] orders them: the [name]
    property first, then the others but [defaults], in source order. *)
Definition own_properties (module : BpModule) : list Property :=
  match module_get module "name" with
  | Some name_prop => [mkProperty "name" name_prop]
  | None => []
  end ++
  filter (fun p => prop_name p ≠ "name" ∧ prop_name p ≠ "defaults")
         (properties module).

(** [supported_types]: the types of all handlers, in registry order. *)
Definition supported_types : list string :=
  fold_left (fun types handler => types ++ MODULE_TYPES handler) _HANDLERS [].

(** The [build-type] and the key of the name that the specification gives
    for a cc module type. *)
Definition build_type_of (module_type : string) : string :=
  if decide (module_type = "cc_library_static") then "static"
  else if decide (module_type = "cc_binary") then "binary"
  else if decide (module_type = "cc_binary_host") then "binary"
  else "shared".

Definition name_key_of (module_type : string) : string :=
  if decide (module_type = "cc_binary") then "binary-name"
  else if decide (module_type = "cc_binary_host") then "binary-name"
  else "lib-name".

(** Strictly below, in the order [sorted] uses on strings. *)
Definition str_lt (a b : string) : Prop := String.compare a b = Lt.

(** A [cc_library] that lists an include directory twice, out of order. *)
Definition include_module : BpModule :=
  mkModule "cc_library"
    [mkProperty "name" (StringExpr "libz");
     mkProperty "local_include_dirs" (ListExpr [StringExpr "b"; StringExpr "a"]);
     mkProperty "export_include_dirs" (ListExpr [StringExpr "b"])].

(** The element the [cc_library] handler emits for [include_module]. *)
Definition include_element : Element :=
  mkElement "libz.bst"
    (mkContent "aosp_cc" (Some ["base/aosp-sdk.bst"]) (Some [])
       (Some [("build-type", "shared"); ("lib-name", "libz");
              ("src-files", ""); ("include-flags", "-Ia -Ib")])
       None).
(** The number of modules a result accounts for. *)
Definition accounted (r : ConversionResult) : nat :=
  length (elements r) + length (skipped r) + length (unsupported r) +
  length (errors r).

(** [prefix] is the [output_prefix] put before a file name. *)
Definition prefixed (output_prefix filename : string) : string :=
  if decide (output_prefix = "") then filename
  else path_join output_prefix filename.

(** What every emitted element looks like. *)
Definition element_ok (source_dir output_prefix : string) (el : Element) : Prop :=
  (kind (content el) = "aosp_cc" ∨ kind (content el) = "import") ∧
  sources (content el) = Some (local_sources source_dir) ∧
  ∃ name, name ≠ "" ∧ filename el = prefixed output_prefix (name +:+ ".bst").

(** [s] is a single line: it has no newline. *)
Definition one_line (s : string) : Prop := str_contains newline s = false.

(** Every string of an element that [_format_bst] puts on a line of its
    own is a single line. The values of the variables are free. *)
Definition element_one_line (element_dict : ElementContent) : Prop :=
  one_line (kind element_dict) ∧
  (∀ deps, depends element_dict = Some deps → Forall one_line deps) ∧
  (∀ srcs, sources element_dict = Some srcs →
     Forall (fun src => one_line (src_kind src) ∧ one_line (src_path src)) srcs) ∧
  (∀ vars, variables element_dict = Some vars →
     Forall (fun kv => one_line kv.1) vars) ∧
  (∀ conf, config element_dict = Some conf →
     Forall (fun kv => one_line kv.1 ∧ one_line kv.2) conf).

(** [Lexer.tokenize]: the loop ends with the first [EOF] token. Every
    other round moves [pos] forward, so one round more than the text has
    characters is all the loop can make; without that bound the loop is
    not a structural recursion, and [None] stands for a loop that has not
    ended within [fuel] rounds. *)
Fixpoint tokenize_loop (fuel : nat) (self : Lexer) (tokens : list Token)
  : option (outcome lex_exn (list Token * Lexer)) :=
  match fuel with
  | O => None
  | S fuel' =>
      match next_token self with
      | Raise e => Some (Raise e)
      | Ok (tok, self) =>
          let tokens := tokens ++ [tok] in
          match tok_type tok with
          | TOK_EOF => Some (Ok (tokens, self))
          | _ => tokenize_loop fuel' self tokens
          end
      end
  end.

Definition tokenize (self : Lexer) : option (outcome lex_exn (list Token * Lexer)) :=
  tokenize_loop (S (length (text self))) self [].

(** The number of newlines of a text. *)
Definition newlines (l : list ascii) : nat :=
  length (filter (fun c => c = newline) l).

(** [line] and [col] are the line and the column of the character at
    [pos]: one more than the newlines before it, and one more than the
    characters between it and the start of its line. *)
Definition position_ok (self : Lexer) : Prop :=
  pos self ≤ length (text self) ∧
  line self = 1 + newlines (take (pos self) (text self)) ∧
  ∃ start,
    start ≤ pos self ∧ col self = 1 + (pos self - start) ∧
    (start = 0 ∨ ∃ p, start = S p ∧ text self !! p = Some newline) ∧
    ∀ i, start ≤ i < pos self → text self !! i ≠ Some newline.

(** [self'] is [self] after some calls of [_advance]. *)
Definition follows (self self' : Lexer) : Prop :=
  ∃ k, self' = _advance k self.

(** [c], followed by [next], starts a comment. *)
Definition comment_start (c : ascii) (next : option ascii) : Prop :=
  c = "/"%char ∧ (next = Some "/"%char ∨ next = Some "*"%char).

(** The lexer has nothing left to skip: it is at the end of the text, or
    at a character that is neither white space nor the start of a
    comment. *)
Definition at_token_start (self : Lexer) : Prop :=
  match _peek self with
  | None => True
  | Some c => is_space c = false ∧ ¬ comment_start c (_peek2 self)
  end.

(** [c] can go on an identifier, for the lexer. *)
Definition lexer_ident_char (c : ascii) : bool :=
  isalnum c || bool_decide (c = "_"%char).

(** ** parser.py: the parser

    The methods of [Parser] read and move [pos]; they are functions of the
    parser that return a value and the parser afterwards, or leave with
    an exception. The recursion of [_parse_expression] is bounded by the
    interpreter's recursion limit, and beyond it is a [RecursionError];
    the loops have no bound in the source, and [None] stands for a loop
    that has not ended within the rounds it is given here. *)

Module Parser.

(** What a [ParseError] of the parser reports. *)
Inductive parse_message : Type :=
| Expected (type_ : token_type) (got : Token)
| Expected_identifier_at_top_level (got : Token)
| Expected_definition (name got : Token)
| Unexpected_token_in_expression (got : Token)
| Expected_pattern (got : Token).

(** The exceptions of [Parser]: that of [tokenize], the parser's own
    [ParseError], and [RecursionError]. *)
Inductive parse_exn : Type :=
| Lexing (e : lex_exn)
| Parsing (message : parse_message) (line col : nat)
| Recursion.

Record Parser : Type := mkParser {
  tokens : list Token;
  pos : nat;
  filename : string
}.

Definition M (A : Type) : Type :=
  Parser → option (outcome parse_exn (A * Parser)).

Definition ret {A : Type} (x : A) : M A := fun self => Some (Ok (x, self)).

Definition raise {A : Type} (e : parse_exn) : M A := fun _ => Some (Raise e).

Definition bind {A B : Type} (m : M A) (k : A → M B) : M B :=
  fun self =>
    match m self with
    | Some (Ok (x, self')) => k x self'
    | Some (Raise e) => Some (Raise e)
    | None => None
    end.

Notation "x ←$ m ; k" := (bind m (fun x => k))
  (at level 20, m at level 100, k at level 200, only parsing).

(** [Parser.__init__]. *)
Definition __init__ (text filename : string) : option (outcome parse_exn Parser) :=
  match tokenize (new_lexer text) with
  | Some (Ok (toks, _)) => Some (Ok (mkParser toks 0 filename))
  | Some (Raise e) => Some (Raise (Lexing e))
  | None => None
  end.

(** The value of a token the lexer gave a [str], and of one it gave an
    [int]: the [INT] tokens have an [int], all others a [str]. *)
Definition value_str (tok : Token) : string :=
  match tok_value tok with
  | StrValue s => s
  | IntValue _ => ""
  end.

Definition value_int (tok : Token) : Z :=
  match tok_value tok with
  | IntValue n => n
  | StrValue _ => 0
  end.

Definition eof_token : Token := mkToken TOK_EOF (StrValue "") 0 0.

Definition token_at (self : Parser) (i : nat) : Token :=
  default eof_token (tokens self !! i).

Definition _peek : M Token := fun self => ret (token_at self (pos self)) self.

Definition _advance : M Token :=
  fun self =>
    Some (Ok (token_at self (pos self),
              mkParser (tokens self) (pos self + 1) (filename self))).

Definition is_type (tok : Token) (type_ : token_type) : bool :=
  match tok_type tok, type_ with
  | TOK_IDENT, TOK_IDENT | TOK_STRING, TOK_STRING | TOK_INT, TOK_INT
  | TOK_LBRACE, TOK_LBRACE | TOK_RBRACE, TOK_RBRACE
  | TOK_LBRACKET, TOK_LBRACKET | TOK_RBRACKET, TOK_RBRACKET
  | TOK_LPAREN, TOK_LPAREN | TOK_RPAREN, TOK_RPAREN
  | TOK_COLON, TOK_COLON | TOK_COMMA, TOK_COMMA
  | TOK_EQUALS, TOK_EQUALS | TOK_PLUS, TOK_PLUS | TOK_PLUSEQ, TOK_PLUSEQ
  | TOK_EOF, TOK_EOF => true
  | _, _ => false
  end.

Definition _expect (type_ : token_type) : M Token :=
  tok ←$ _advance;
  if is_type tok type_ then ret tok
  else raise (Parsing (Expected type_ tok) (tok_line tok) (tok_col tok)).

Definition _at (type_ : token_type) : M bool :=
  tok ←$ _peek; ret (is_type tok type_).

Definition _match (type_ : token_type) : M (option Token) :=
  at_type ←$ _at type_;
  if at_type then tok ←$ _advance; ret (Some tok) else ret None.

(** [while cond: acc.append(body)]. Each round of the loops of the parser
    takes a token, so one round more than there are tokens is all a loop
    can make. *)
Fixpoint while_loop {A : Type} (cond : M bool) (body : M A) (rounds : nat)
    (acc : list A) : M (list A) :=
  match rounds with
  | O => fun _ => None
  | S rounds' =>
      go_on ←$ cond;
      if go_on then x ←$ body; while_loop cond body rounds' (acc ++ [x])
      else ret acc
  end.

Definition _while {A : Type} (cond : M bool) (body : M A) : M (list A) :=
  fun self => while_loop cond body (S (length (tokens self))) [] self.

(** [not self._at(closing) and not self._at(TOK_EOF)]. *)
Definition inside (closing : token_type) : M bool :=
  at_closing ←$ _at closing; at_eof ←$ _at TOK_EOF;
  ret (negb at_closing && negb at_eof).

Section Expression.
(** The recursive call of [_parse_expression], one level down. *)
Variable _parse_expression : M Expression.

Definition _parse_property : M Property :=
  name_tok ←$ _expect TOK_IDENT;
  _ ←$ _expect TOK_COLON;
  value ←$ _parse_expression;
  ret (mkProperty (value_str name_tok) value).

Definition _parse_map_body : M (list Property) :=
  _ ←$ _expect TOK_LBRACE;
  properties ←$ _while (inside TOK_RBRACE)
                  (prop ←$ _parse_property; _ ←$ _match TOK_COMMA; ret prop);
  _ ←$ _expect TOK_RBRACE;
  ret properties.

Definition _parse_list : M Expression :=
  _ ←$ _expect TOK_LBRACKET;
  values ←$ _while (inside TOK_RBRACKET)
              (value ←$ _parse_expression; _ ←$ _match TOK_COMMA; ret value);
  _ ←$ _expect TOK_RBRACKET;
  ret (ListExpr values).

(** The pattern of a case of [select]. *)
Definition parse_patterns : M (list Expression) :=
  tok ←$ _peek;
  match tok_type tok with
  | TOK_STRING | TOK_IDENT =>
      pattern_tok ←$ _advance; ret [StringExpr (value_str pattern_tok)]
  | TOK_LPAREN =>
      _ ←$ _advance;
      patterns ←$ _while (at_paren ←$ _at TOK_RPAREN; ret (negb at_paren))
                    (p ←$ _expect TOK_STRING; _ ←$ _match TOK_COMMA;
                     ret (StringExpr (value_str p)));
      _ ←$ _expect TOK_RPAREN;
      ret patterns
  | _ => raise (Parsing (Expected_pattern tok) (tok_line tok) (tok_col tok))
  end.

Definition _parse_select : M Expression :=
  _ ←$ _expect TOK_IDENT;
  _ ←$ _expect TOK_LPAREN;
  func_name_tok ←$ _expect TOK_IDENT;
  _ ←$ _expect TOK_LPAREN;
  func_args ←$ _while (inside TOK_RPAREN)
                 (arg_tok ←$ _expect TOK_STRING; _ ←$ _match TOK_COMMA;
                  ret (value_str arg_tok));
  _ ←$ _expect TOK_RPAREN;
  _ ←$ _expect TOK_COMMA;
  _ ←$ _expect TOK_LBRACE;
  cases ←$ _while (inside TOK_RBRACE)
             (patterns ←$ parse_patterns;
              _ ←$ _expect TOK_COLON;
              value ←$ _parse_expression;
              _ ←$ _match TOK_COMMA;
              ret (patterns, value));
  _ ←$ _expect TOK_RBRACE;
  _ ←$ _expect TOK_RPAREN;
  ret (SelectExpr (value_str func_name_tok) func_args cases).

Definition _parse_primary : M Expression :=
  tok ←$ _peek;
  match tok_type tok with
  | TOK_STRING => _ ←$ _advance; ret (StringExpr (value_str tok))
  | TOK_INT => _ ←$ _advance; ret (IntExpr (value_int tok))
  | TOK_LBRACKET => _parse_list
  | TOK_LBRACE => props ←$ _parse_map_body; ret (MapExpr props)
  | TOK_IDENT =>
      if decide (value_str tok = "true") then
        _ ←$ _advance; ret (BoolExpr true)
      else if decide (value_str tok = "false") then
        _ ←$ _advance; ret (BoolExpr false)
      else if decide (value_str tok = "unset") then
        _ ←$ _advance; ret (StringExpr "__unset__")
      else if decide (value_str tok = "select") then _parse_select
      else _ ←$ _advance; ret (VariableRef (value_str tok))
  | _ =>
      raise (Parsing (Unexpected_token_in_expression tok)
               (tok_line tok) (tok_col tok))
  end.

(** [while self._at(TOK_PLUS): ...]. *)
Fixpoint plus_loop (rounds : nat) (left : Expression) : M Expression :=
  match rounds with
  | O => fun _ => None
  | S rounds' =>
      at_plus ←$ _at TOK_PLUS;
      if at_plus then
        _ ←$ _advance;
        right ←$ _parse_primary;
        plus_loop rounds' (OperatorExpr left "+" right)
      else ret left
  end.

Definition parse_expression_body : M Expression :=
  left ←$ _parse_primary;
  fun self => plus_loop (S (length (tokens self))) left self.
End Expression.

Fixpoint _parse_expression (limit : nat) : M Expression :=
  match limit with
  | O => raise Recursion
  | S limit' => parse_expression_body (_parse_expression limit')
  end.

Definition _parse_assignment (limit : nat) : M Defn :=
  name_tok ←$ _expect TOK_IDENT;
  at_pluseq ←$ _at TOK_PLUSEQ;
  assigner ←$ (if at_pluseq then _ ←$ _advance; ret "+="
               else _ ←$ _expect TOK_EQUALS; ret "=");
  value ←$ _parse_expression limit;
  ret (DefAssignment (mkAssignment (value_str name_tok) value assigner)).

Definition _parse_module (limit : nat) : M Defn :=
  type_tok ←$ _expect TOK_IDENT;
  properties ←$ _parse_map_body (_parse_expression limit);
  ret (DefModule (mkModule (value_str type_tok) properties)).

Definition _parse_definition (limit : nat) : M Defn :=
  tok ←$ _peek;
  if negb (is_type tok TOK_IDENT) then
    raise (Parsing (Expected_identifier_at_top_level tok) (tok_line tok) (tok_col tok))
  else
    fun self =>
      let next_tok := token_at self (pos self + 1) in
      if is_type next_tok TOK_EQUALS || is_type next_tok TOK_PLUSEQ
      then _parse_assignment limit self
      else if is_type next_tok TOK_LBRACE then _parse_module limit self
      else
        raise (Parsing (Expected_definition tok next_tok)
                 (tok_line next_tok) (tok_col next_tok)) self.

(** [Parser.parse]. *)
Definition parse (limit : nat) : M File :=
  defs ←$ _while (at_eof ←$ _at TOK_EOF; ret (negb at_eof))
            (_parse_definition limit);
  fun self => ret (mkFile (filename self) defs) self.

(** [parse_string]. *)
Definition parse_string (limit : nat) (text filename : string)
  : option (outcome parse_exn File) :=
  match __init__ text filename with
  | Some (Ok parser) =>
      match parse limit parser with
      | Some (Ok (file, _)) => Some (Ok file)
      | Some (Raise e) => Some (Raise e)
      | None => None
      end
  | Some (Raise e) => Some (Raise e)
  | None => None
  end.

End Parser.

(** The tokens a parser has not read yet. *)
Definition remaining (self : Parser.Parser) : nat :=
  length (Parser.tokens self) - Parser.pos self.

(** What a method of the parser does from [self] is fine: its loops have
    ended; if it returns, the tokens and the file name are kept and [pos]
    has not moved back, and with [progress] a token of the list was read;
    and it leaves with [RecursionError] only when [k] tokens or more are
    still to read. *)
Definition fine {A : Type} (k : nat) (progress : bool) (self : Parser.Parser)
    (r : option (outcome Parser.parse_exn (A * Parser.Parser))) : Prop :=
  match r with
  | None => False
  | Some (Ok (_, self')) =>
      Parser.tokens self' = Parser.tokens self ∧
      Parser.filename self' = Parser.filename self ∧
      if progress
      then Parser.pos self < Parser.pos self' ∧
           Parser.pos self < length (Parser.tokens self)
      else Parser.pos self ≤ Parser.pos self'
  | Some (Raise e) => e = Parser.Recursion → k ≤ remaining self
  end.

Definition sound {A : Type} (k : nat) (progress : bool) (m : Parser.M A) : Prop :=
  ∀ self, fine k progress self (m self).

(** The value of a token has the type the parser reads it at: an [int] in
    an [INT] token, a [str] in every other token. *)
Definition token_typed (tok : Token) : Prop :=
  match tok_type tok, tok_value tok with
  | TOK_INT, IntValue _ => True
  | TOK_INT, StrValue _ => False
  | _, StrValue _ => True
  | _, IntValue _ => False
  end.

(** * Properties *)

(** ** The evaluator *)

Lemma extract_loop_acc (values : list Expression) (acc : list string) :
  fold_left
    (fun result v =>
       match extract_string v with
       | Some s => result ++ [s]
       | None => result
       end) values acc
  = acc ++ string_values values.
Proof.
  revert acc. induction values as [|v values IH]; intros acc; simpl.
  - by rewrite app_nil_r.
  - rewrite IH. destruct v; simpl; try done.
    by rewrite <- app_assoc.
Qed.

Lemma extract_string_list_values (values : list Expression) :
  extract_string_list (ListExpr values) = string_values values.
Proof. unfold extract_string_list. by rewrite extract_loop_acc. Qed.

(** C10: for a ListExpr, [extract_string_list] returns the values of its
    String elements in list order and drops every other element; for
    every expression that is not a ListExpr it returns the empty list. *)
Theorem extract_string_list_spec (expr : Expression) :
  extract_string_list expr =
  match expr with
  | ListExpr values => string_values values
  | _ => []
  end.
Proof.
  destruct expr; try reflexivity.
  apply extract_string_list_values.
Qed.

Section Evaluate.
Variable variables : gmap string Expression.

Lemma traverse_mono {E A B : Type} (f g : A → outcome E B) (l : list A)
    (bs : list B) :
  (∀ a b, f a = Ok b → g a = Ok b) →
  traverse f l = Ok bs → traverse g l = Ok bs.
Proof.
  intros Hfg. revert bs. induction l as [|a l IH]; intros bs; simpl; [done|].
  destruct (f a) as [b|e] eqn:Hfa; simpl; [|done].
  rewrite (Hfg _ _ Hfa). simpl.
  destruct (traverse f l) as [bs'|e] eqn:Hl; simpl; [|done].
  intros H. by rewrite (IH _ eq_refl).
Qed.

(** More recursion depth does not change a result. *)
Lemma evaluate_mono (n m : nat) (expr v : Expression) :
  n ≤ m → evaluate n variables expr = Ok v → evaluate m variables expr = Ok v.
Proof.
  revert m expr v. induction n as [|n IH]; intros m expr v Hle; [done|].
  destruct m as [|m]; [lia|].
  assert (Hnm : n ≤ m) by lia.
  destruct expr; simpl; try done.
  - destruct (traverse (evaluate n variables) values) as [vs|e] eqn:Hvs;
      simpl; [|done].
    intros H.
    rewrite (traverse_mono _ (evaluate m variables) _ _
               (fun a b => IH m a b Hnm) Hvs).
    done.
  - match goal with
    | |- bind (traverse ?f _) _ = _ → bind (traverse ?g _) _ = _ =>
        destruct (traverse f properties0) as [ps|e] eqn:Hps; simpl; [|done];
        intros H;
        rewrite (traverse_mono f g _ ps); [done| |done]
    end.
    intros a b. simpl.
    destruct (evaluate n variables (prop_value a)) as [w|e] eqn:Hw;
      simpl; [|done].
    by rewrite (IH m _ _ Hnm Hw).
  - destruct (variables !! name) as [bound|]; [|done]. by apply IH.
  - destruct (evaluate n variables expr1) as [lv|e] eqn:Hl; simpl; [|done].
    rewrite (IH m _ _ Hnm Hl). simpl.
    destruct (evaluate n variables expr2) as [rv|e] eqn:Hr; simpl; [|done].
    by rewrite (IH m _ _ Hnm Hr).
Qed.

(** Evaluation is a function: two runs that return agree. *)
Lemma evaluates_to_functional (expr v w : Expression) :
  evaluates_to variables expr v → evaluates_to variables expr w → v = w.
Proof.
  intros [n Hn] [m Hm].
  apply (evaluate_mono n (n `max` m)) in Hn; [|lia].
  apply (evaluate_mono m (n `max` m)) in Hm; [|lia].
  congruence.
Qed.

Lemma evaluates_to_operator (l r lv rv : Expression) (op : string) :
  evaluates_to variables l lv → evaluates_to variables r rv →
  ∃ fuel,
    evaluate (S fuel) variables (OperatorExpr l op r) =
    (if decide (op = "+") then
       match lv, rv with
       | ListExpr a, ListExpr b => Ok (ListExpr (a ++ b))
       | StringExpr s, StringExpr t => Ok (StringExpr (s +:+ t))
       | _, _ => Ok (OperatorExpr lv op rv)
       end
     else Ok (OperatorExpr lv op rv)).
Proof.
  intros [n Hn] [m Hm]. exists (n `max` m). simpl.
  rewrite (evaluate_mono n (n `max` m) _ _ ltac:(lia) Hn).
  rewrite (evaluate_mono m (n `max` m) _ _ ltac:(lia) Hm).
  done.
Qed.

(** C2: when both sides of a [+] node evaluate to Lists the node
    evaluates to the List of the left values followed by the right
    values; when both evaluate to Strings, to the concatenated String;
    for every other pair of evaluated shapes, to an Operator node over
    the two evaluated sides, and no exception is raised. *)
Theorem evaluate_plus (l r lv rv : Expression) :
  evaluates_to variables l lv →
  evaluates_to variables r rv →
  (∀ a b, lv = ListExpr a → rv = ListExpr b →
     evaluates_to variables (OperatorExpr l "+" r) (ListExpr (a ++ b))) ∧
  (∀ s t, lv = StringExpr s → rv = StringExpr t →
     evaluates_to variables (OperatorExpr l "+" r) (StringExpr (s +:+ t))) ∧
  (is_list lv && is_list rv = false →
   is_string lv && is_string rv = false →
   evaluates_to variables (OperatorExpr l "+" r) (OperatorExpr lv "+" rv)).
Proof.
  intros Hl Hr.
  destruct (evaluates_to_operator l r lv rv "+" Hl Hr) as [fuel Hfuel].
  rewrite decide_True in Hfuel by done.
  split; [|split].
  - intros a b -> ->. by exists (S fuel).
  - intros s t -> ->. by exists (S fuel).
  - intros Hlist Hstr. exists (S fuel). rewrite Hfuel.
    destruct lv, rv; simpl in *; done.
Qed.
End Evaluate.

Lemma evaluate_plus_witness :
  evaluates_to ∅ (OperatorExpr (ListExpr [StringExpr "a"]) "+"
                    (ListExpr [StringExpr "b"]))
    (ListExpr [StringExpr "a"; StringExpr "b"]).
Proof.
  assert (Hl : evaluates_to ∅ (ListExpr [StringExpr "a"]) (ListExpr [StringExpr "a"]))
    by (exists 2; reflexivity).
  assert (Hr : evaluates_to ∅ (ListExpr [StringExpr "b"]) (ListExpr [StringExpr "b"]))
    by (exists 2; reflexivity).
  exact (proj1 (evaluate_plus ∅ _ _ _ _ Hl Hr) _ _ eq_refl eq_refl).
Defined.

(** ** Module handlers *)

Lemma string_list_prop_lib_names (module : BpModule) (key : string) :
  string_list_prop (properties module) key = lib_names module key.
Proof.
  unfold string_list_prop, lib_names, module_get.
  destruct (props_get (properties module) key) as [prop|]; [|done].
  destruct prop; try done. apply extract_string_list_values.
Qed.

Lemma append_deps (libs : list string) (deps : list string) :
  fold_left (fun deps lib_name => deps ++ [lib_dep lib_name]) libs deps
  = deps ++ map lib_dep libs.
Proof.
  revert deps. induction libs as [|lib libs IH]; intros deps; simpl.
  - by rewrite app_nil_r.
  - rewrite IH. by rewrite <- app_assoc.
Qed.

Lemma _get_lib_deps_spec (module : BpModule) :
  _get_lib_deps module =
  map lib_dep
    (lib_names module "static_libs" ++ lib_names module "shared_libs" ++
     lib_names module "whole_static_libs" ++ lib_names module "header_libs").
Proof.
  unfold _get_lib_deps. simpl.
  rewrite !append_deps, !string_list_prop_lib_names. simpl.
  by rewrite !map_app, <- !app_assoc.
Qed.

Lemma convert_cc_depends (build_type name_key : string) (module : BpModule)
    (target_arch source_dir : string) (el : Element) :
  convert_cc build_type name_key module target_arch source_dir = Some el →
  depends (content el) = Some ("base/aosp-sdk.bst" :: _get_lib_deps module).
Proof.
  unfold convert_cc. destruct (module_name module) as [name|]; [|done].
  destruct (decide (name = "")); [done|].
  by intros [= <-].
Qed.

Lemma set_build_type_depends (build_type : string) (result : option Element)
    (el : Element) :
  set_build_type build_type result = Some el →
  ∃ el0, result = Some el0 ∧ depends (content el) = depends (content el0).
Proof.
  destruct result as [el0|]; [|done]. simpl. intros [= <-]. by exists el0.
Qed.

Lemma convert_cc_emits (build_type name_key : string) (module : BpModule)
    (target_arch source_dir name : string) :
  module_name module = Some name → name ≠ "" →
  is_Some (convert_cc build_type name_key module target_arch source_dir).
Proof.
  intros Hname Hne. unfold convert_cc. rewrite Hname.
  by destruct (decide (name = "")).
Qed.

(** C7: a named module of one of the five cc types has a handler, the
    handler emits an element when the name is not empty, and the
    [depends] list of every element it emits is [base/aosp-sdk.bst]
    followed by [external/<lib>.bst] for the library names of
    [static_libs], [shared_libs], [whole_static_libs] and [header_libs],
    in that order and in each property's list order. *)
Theorem cc_depends (module : BpModule) (target_arch source_dir name : string) :
  type module ∈ cc_types →
  module_name module = Some name →
  ∃ handler,
    get_handler (type module) = Some handler ∧
    (name ≠ "" → is_Some (convert handler module target_arch source_dir)) ∧
    ∀ el, convert handler module target_arch source_dir = Some el →
      depends (content el) =
      Some ("base/aosp-sdk.bst" ::
            map lib_dep
              (lib_names module "static_libs" ++
               lib_names module "shared_libs" ++
               lib_names module "whole_static_libs" ++
               lib_names module "header_libs")).
Proof.
  intros Hty Hname. rewrite <- _get_lib_deps_spec.
  unfold cc_types in Hty. rewrite !elem_of_cons, elem_of_nil in Hty.
  destruct Hty as [Hty|[Hty|[Hty|[Hty|[Hty|[]]]]]]; rewrite Hty.
  - exists CcLibraryStaticHandler. split; [done|]. split.
    + intros Hne. by eapply convert_cc_emits.
    + intros el. apply convert_cc_depends.
  - exists CcLibrarySharedHandler. split; [done|]. split.
    + intros Hne. simpl.
      destruct (convert_cc_emits "static" "lib-name" module target_arch
                  source_dir name Hname Hne) as [el ->].
      done.
    + intros el Hel. apply set_build_type_depends in Hel as (el0 & Hel0 & ->).
      by eapply convert_cc_depends.
  - exists CcLibraryHandler. split; [done|]. split.
    + intros Hne. simpl.
      destruct (convert_cc_emits "static" "lib-name" module target_arch
                  source_dir name Hname Hne) as [el ->].
      done.
    + intros el Hel. apply set_build_type_depends in Hel as (el0 & Hel0 & ->).
      by eapply convert_cc_depends.
  - exists CcBinaryHandler. split; [done|]. split.
    + intros Hne. by eapply convert_cc_emits.
    + intros el. apply convert_cc_depends.
  - exists CcBinaryHandler. split; [done|]. split.
    + intros Hne. by eapply convert_cc_emits.
    + intros el. apply convert_cc_depends.
Qed.

Lemma cc_depends_witness :
  ∃ handler,
    get_handler "cc_binary" = Some handler ∧
    ("bz" ≠ "" → is_Some (convert handler scenario_S6 "x86_64" "")) ∧
    ∀ el, convert handler scenario_S6 "x86_64" "" = Some el →
      depends (content el) =
      Some ["base/aosp-sdk.bst"; "external/libbz.bst"; "external/libz.bst"].
Proof.
  apply (cc_depends scenario_S6 "x86_64" "" "bz").
  - unfold cc_types. simpl. rewrite !elem_of_cons. tauto.
  - reflexivity.
Defined.

(** ** The defaults resolver: collecting the chain *)

Section Collect.
Variable registry : gmap string BpModule.

Lemma collect_unfold (fuel : nat) (name : string) (st : collect_state) :
  _collect_defaults (S fuel) registry name st =
  if decide (name ∈ st.2) then Some st
  else
    match registry !! name with
    | None => Some (st.1, {[name]} ∪ st.2)
    | Some defaults_module =>
        match collect_all fuel registry (nested_names defaults_module)
                (st.1, {[name]} ∪ st.2) with
        | Some st' => Some (st'.1 ++ [defaults_module], st'.2)
        | None => None
        end
    end.
Proof. reflexivity. Qed.

Lemma collect_loop_none (fuel : nat) (names : list string) :
  fold_left
    (fun acc name =>
       match acc with
       | Some st' => _collect_defaults fuel registry name st'
       | None => None
       end) names None = None.
Proof. by induction names. Qed.

Lemma collect_all_cons (fuel : nat) (name : string) (names : list string)
    (st : collect_state) :
  collect_all fuel registry (name :: names) st =
  match _collect_defaults fuel registry name st with
  | Some st' => collect_all fuel registry names st'
  | None => None
  end.
Proof.
  unfold collect_all. simpl.
  destruct (_collect_defaults fuel registry name st); [done|].
  apply collect_loop_none.
Qed.

Lemma collect_all_app (fuel : nat) (names1 names2 : list string)
    (st : collect_state) :
  collect_all fuel registry (names1 ++ names2) st =
  match collect_all fuel registry names1 st with
  | Some st' => collect_all fuel registry names2 st'
  | None => None
  end.
Proof.
  revert st. induction names1 as [|x names1 IH]; intros st; [done|].
  simpl. rewrite !collect_all_cons.
  destruct (_collect_defaults fuel registry x st); [apply IH|done].
Qed.

(** What holds of every call at some depth holds of the loop over a
    list of names at that depth. *)
Lemma collect_all_lift (P : collect_state → collect_state → Prop) (fuel : nat) :
  (∀ st, P st st) →
  (∀ st1 st2 st3, P st1 st2 → P st2 st3 → P st1 st3) →
  (∀ x st st', _collect_defaults fuel registry x st = Some st' → P st st') →
  ∀ names st st', collect_all fuel registry names st = Some st' → P st st'.
Proof.
  intros Hrefl Htrans Hstep names.
  induction names as [|x names IH]; intros st st'.
  - intros [= <-]. apply Hrefl.
  - rewrite collect_all_cons.
    destruct (_collect_defaults fuel registry x st) as [st1|] eqn:Hx; [|done].
    intros Hrest. eapply Htrans; [by eapply Hstep|by apply IH].
Qed.

(** The visited set only grows. *)
Lemma collect_visited_grows (fuel : nat) (x : string) (st st' : collect_state) :
  _collect_defaults fuel registry x st = Some st' → st.2 ⊆ st'.2.
Proof.
  revert x st st'. induction fuel as [|fuel IH]; intros x st st'; [done|].
  rewrite collect_unfold. destruct (decide (x ∈ st.2)).
  { by intros [= <-]. }
  destruct (registry !! x) as [dm|].
  - destruct (collect_all fuel registry (nested_names dm) (st.1, {[x]} ∪ st.2))
      as [st1|] eqn:Hall; [|done].
    intros [= <-]. simpl.
    apply (collect_all_lift (fun s s' => s.2 ⊆ s'.2) fuel) in Hall;
      [simpl in Hall; set_solver|done|set_solver|apply IH].
  - intros [= <-]. simpl. set_solver.
Qed.

Lemma collect_all_visited_grows (fuel : nat) (names : list string)
    (st st' : collect_state) :
  collect_all fuel registry names st = Some st' → st.2 ⊆ st'.2.
Proof.
  apply (collect_all_lift (fun s s' => s.2 ⊆ s'.2) fuel);
    [done|set_solver|apply collect_visited_grows].
Qed.

(** The name a call is made for is visited when the call returns. *)
Lemma collect_visits (fuel : nat) (x : string) (st st' : collect_state) :
  _collect_defaults fuel registry x st = Some st' → x ∈ st'.2.
Proof.
  destruct fuel as [|fuel]; [done|].
  rewrite collect_unfold. destruct (decide (x ∈ st.2)).
  { by intros [= <-]. }
  destruct (registry !! x) as [dm|].
  - destruct (collect_all fuel registry (nested_names dm) (st.1, {[x]} ∪ st.2))
      as [st1|] eqn:Hall; [|done].
    intros [= <-]. simpl.
    apply collect_all_visited_grows in Hall. simpl in Hall. set_solver.
  - intros [= <-]. simpl. set_solver.
Qed.

(** More depth does not change what a call returns. *)
Lemma collect_mono (fuel fuel' : nat) (x : string) (st st' : collect_state) :
  fuel ≤ fuel' →
  _collect_defaults fuel registry x st = Some st' →
  _collect_defaults fuel' registry x st = Some st'.
Proof.
  revert fuel' x st st'. induction fuel as [|fuel IH];
    intros fuel' x st st' Hle; [done|].
  destruct fuel' as [|fuel']; [lia|].
  rewrite !collect_unfold. destruct (decide (x ∈ st.2)); [done|].
  destruct (registry !! x) as [dm|]; [|done].
  destruct (collect_all fuel registry (nested_names dm) (st.1, {[x]} ∪ st.2))
    as [st1|] eqn:Hall; [|done].
  intros [= <-].
  enough (collect_all fuel' registry (nested_names dm) (st.1, {[x]} ∪ st.2)
          = Some st1) as -> by done.
  clear n. revert Hall. generalize (st.1, {[x]} ∪ st.2).
  induction (nested_names dm) as [|y names IHn]; intros s; [done|].
  rewrite !collect_all_cons.
  destruct (_collect_defaults fuel registry y s) as [s1|] eqn:Hy; [|done].
  rewrite (IH fuel' y s s1 ltac:(lia) Hy). apply IHn.
Qed.

Lemma collect_all_mono (fuel fuel' : nat) (names : list string)
    (st st' : collect_state) :
  fuel ≤ fuel' →
  collect_all fuel registry names st = Some st' →
  collect_all fuel' registry names st = Some st'.
Proof.
  intros Hle. revert st. induction names as [|y names IH]; intros s; [done|].
  rewrite !collect_all_cons.
  destruct (_collect_defaults fuel registry y s) as [s1|] eqn:Hy; [|done].
  rewrite (collect_mono fuel fuel' y s s1 Hle Hy). apply IH.
Qed.

Lemma unvisited_subseteq (v v' : gset string) :
  v ⊆ v' → unvisited registry v' ≤ unvisited registry v.
Proof. intros Hsub. unfold unvisited. apply subseteq_size. set_solver. Qed.

Lemma unvisited_visit (x : string) (v : gset string) :
  x ∉ v → is_Some (registry !! x) →
  unvisited registry ({[x]} ∪ v) < unvisited registry v.
Proof.
  intros Hx Hreg. unfold unvisited. apply subset_size.
  apply elem_of_dom in Hreg. set_solver.
Qed.

Lemma collect_all_terminates_from (fuel : nat) :
  (∀ x st, unvisited registry st.2 < fuel →
           is_Some (_collect_defaults fuel registry x st)) →
  ∀ names st, unvisited registry st.2 < fuel →
              is_Some (collect_all fuel registry names st).
Proof.
  intros Hcall names. induction names as [|y names IHn]; intros s Hs; [done|].
  rewrite collect_all_cons.
  destruct (Hcall y s Hs) as [s1 Hs1]. rewrite Hs1.
  apply IHn. apply collect_visited_grows in Hs1.
  pose proof (unvisited_subseteq _ _ Hs1). lia.
Qed.

Lemma collect_terminates (fuel : nat) (x : string) (st : collect_state) :
  unvisited registry st.2 < fuel →
  is_Some (_collect_defaults fuel registry x st).
Proof.
  revert x st. induction fuel as [|fuel IH]; intros x st Hlt; [lia|].
  rewrite collect_unfold. destruct (decide (x ∈ st.2)); [done|].
  destruct (registry !! x) as [dm|] eqn:Hreg; [|done].
  destruct (collect_all_terminates_from fuel IH (nested_names dm)
              (st.1, {[x]} ∪ st.2)) as [st1 ->]; [|done].
  pose proof (unvisited_visit x st.2 n ltac:(by rewrite Hreg)).
  simpl. lia.
Qed.

Lemma collect_all_terminates (fuel : nat) (names : list string)
    (st : collect_state) :
  unvisited registry st.2 < fuel →
  is_Some (collect_all fuel registry names st).
Proof.
  apply collect_all_terminates_from. intros x s. apply collect_terminates.
Qed.

(** [collect_fuel] is enough for every loop that starts with nothing
    visited, and every larger depth gives the same chain. *)
Lemma collect_fuel_enough (names : list string) :
  ∃ st, ∀ fuel, collect_fuel registry ≤ fuel →
    collect_all fuel registry names ([], ∅) = Some st.
Proof.
  destruct (collect_all_terminates (collect_fuel registry) names ([], ∅))
    as [st Hst].
  { unfold unvisited, collect_fuel. simpl.
    rewrite difference_empty_L, size_dom. lia. }
  exists st. intros fuel Hle. by eapply collect_all_mono.
Qed.
End Collect.

(** ** Insertion-ordered dictionaries *)

Section DictFacts.
Context {V : Type}.
Implicit Types (d : list (string * V)) (k : string) (v : V).

Lemma dict_get_set_eq d k v : dict_get (dict_set d k v) k = Some v.
Proof.
  induction d as [|[k' v'] d IH]; cbn.
  - by case_decide.
  - case_decide; cbn; by case_decide.
Qed.

Lemma dict_get_set_ne d k k' v :
  k ≠ k' → dict_get (dict_set d k v) k' = dict_get d k'.
Proof.
  intros Hne. induction d as [|[k0 v0] d IH]; cbn.
  - by case_decide.
  - case_decide; cbn; repeat case_decide; by simplify_eq.
Qed.

Lemma dict_get_None d k : dict_get d k = None ↔ k ∉ dict_keys d.
Proof.
  unfold dict_keys. induction d as [|[k' v'] d IH]; simpl.
  - split; [intros _; apply not_elem_of_nil|done].
  - rewrite not_elem_of_cons. destruct (decide (k' = k)) as [->|].
    + split; [done|]. by intros [? _].
    + rewrite IH. split; [by split|by intros [_ ?]].
Qed.

Lemma dict_get_Some_key d k v : dict_get d k = Some v → k ∈ dict_keys d.
Proof.
  intros Hget. destruct (decide (k ∈ dict_keys d)) as [|Hn]; [done|].
  apply dict_get_None in Hn. congruence.
Qed.

(** Storing keeps the order of the keys: a key the dictionary has stays
    where it is, a new key goes last. *)
Lemma dict_keys_set d k v :
  dict_keys (dict_set d k v) =
  if decide (k ∈ dict_keys d) then dict_keys d else dict_keys d ++ [k].
Proof.
  unfold dict_keys. induction d as [|[k' v'] d IH].
  - rewrite decide_False by apply not_elem_of_nil. done.
  - cbn [dict_set]. destruct (decide (k' = k)) as [->|Hne].
    + rewrite decide_True; [done|]. csimpl. apply elem_of_cons. by left.
    + csimpl. rewrite IH. destruct (decide (k ∈ d.*1)) as [Hin|Hin].
      * rewrite decide_True; [done|]. apply elem_of_cons. by right.
      * rewrite decide_False; [done|]. apply not_elem_of_cons. by split.
Qed.

Lemma dict_set_NoDup d k v :
  NoDup (dict_keys d) → NoDup (dict_keys (dict_set d k v)).
Proof.
  intros Hnd. rewrite dict_keys_set. destruct (decide (k ∈ dict_keys d)); [done|].
  apply NoDup_app. split; [done|]. split; [|apply NoDup_singleton].
  intros x Hx Hk. apply list_elem_of_singleton in Hk. by subst.
Qed.

Lemma dict_set_keys_elem d k v k' :
  k' ∈ dict_keys (dict_set d k v) ↔ k' = k ∨ k' ∈ dict_keys d.
Proof.
  rewrite dict_keys_set. destruct (decide (k ∈ dict_keys d)).
  - split; [by right|]. by intros [->|].
  - rewrite elem_of_app, list_elem_of_singleton. tauto.
Qed.
End DictFacts.

Lemma items_to_props_names (d : list (string * Expression)) :
  prop_name <$> items_to_props d = dict_keys d.
Proof.
  unfold items_to_props, dict_keys. induction d as [|[k v] d IH]; [done|].
  simpl. by f_equal.
Qed.

Lemma items_to_props_get (d : list (string * Expression)) (k : string) :
  props_get (items_to_props d) k = dict_get d k.
Proof.
  unfold items_to_props. induction d as [|[k' v] d IH]; [done|].
  simpl. destruct (decide (k' = k)); [done|apply IH].
Qed.

(** ** The defaults resolver: merging *)

Lemma merge_property_ok (d : list (string * Expression)) (prop : Property) :
  merged_ok d → merged_ok (merge_property d prop).
Proof.
  intros (Hnd & Hname & Hdef). unfold merge_property.
  destruct (decide (prop_name prop = "name" ∨ prop_name prop = "defaults"))
    as [|Hne]; [done|].
  assert (∀ v, merged_ok (dict_set d (prop_name prop) v)) as Hset.
  { intros v. split; [by apply dict_set_NoDup|].
    rewrite !dict_set_keys_elem. split; intros [Heq|?]; try done.
    - apply Hne. by left.
    - apply Hne. by right. }
  destruct (dict_get d (prop_name prop)); apply Hset.
Qed.

Lemma _merge_properties_ok (d : list (string * Expression)) (props : list Property) :
  merged_ok d → merged_ok (_merge_properties d props).
Proof.
  unfold _merge_properties. revert d.
  induction props as [|p props IH]; intros d Hd; [done|].
  simpl. apply IH. by apply merge_property_ok.
Qed.

Lemma merge_all_ok (all_defaults : list BpModule) (module : BpModule) :
  merged_ok (merge_all all_defaults module).
Proof.
  unfold merge_all. apply _merge_properties_ok.
  assert (merged_ok []) as Hnil.
  { split; [apply NoDup_nil_2|]. split; apply not_elem_of_nil. }
  revert Hnil. generalize (@nil (string * Expression)).
  induction all_defaults as [|dm all_defaults IH]; intros d Hd; [done|].
  simpl. apply IH. by apply _merge_properties_ok.
Qed.

Lemma finish_props_names (module : BpModule) (d : list (string * Expression))
    (name_prop : Expression) :
  merged_ok d → module_get module "name" = Some name_prop →
  finish_props module d = mkProperty "name" name_prop :: items_to_props d.
Proof.
  intros (_ & Hname & _) Hget. unfold finish_props.
  rewrite bool_decide_eq_false_2; [by rewrite Hget|].
  rewrite Exists_exists. intros (p & Hp & Hpn). apply Hname.
  rewrite <- items_to_props_names, <- Hpn. by apply list_elem_of_fmap_2.
Qed.

Lemma string_values_strings (names : list string) :
  string_values (StringExpr <$> names) = names.
Proof. induction names as [|n names IH]; [done|]. simpl. by f_equal. Qed.

(** Every module has a resolution: the recursion over the defaults chain
    comes back. *)
Lemma resolve_returns (registry : gmap string BpModule) (module : BpModule) :
  ∃ resolved, ∀ fuel, collect_fuel registry ≤ fuel →
    resolve_with fuel registry module = Some resolved.
Proof.
  unfold resolve_with.
  destruct (module_get module "defaults") as [defaults_prop|]; [|by eexists].
  destruct (extract_string_list defaults_prop) as [|n names]; [by eexists|].
  destruct (collect_fuel_enough registry (n :: names)) as [[all visited] Hst].
  eexists. intros fuel Hle. by rewrite (Hst fuel Hle).
Qed.

(** C4: for a module that has a [name] property and whose [defaults]
    property is a non-empty string list, [resolve] returns a module whose
    property list has at most one Property per name and contains the
    [name] property of the original module. *)
Theorem resolve_unique_names (registry : gmap string BpModule) (module : BpModule)
    (name_prop : Expression) (names : list string) :
  module_get module "name" = Some name_prop →
  module_get module "defaults" = Some (ListExpr (StringExpr <$> names)) →
  names ≠ [] →
  ∃ resolved,
    resolve (mkDefaultsResolver registry) module = Some resolved ∧
    NoDup (prop_name <$> properties resolved) ∧
    mkProperty "name" name_prop ∈ properties resolved ∧
    module_get resolved "name" = Some name_prop.
Proof.
  intros Hname Hdefaults Hnames. unfold resolve, resolve_with. simpl.
  rewrite Hdefaults, extract_string_list_values, string_values_strings.
  destruct names as [|n names]; [done|].
  destruct (collect_fuel_enough registry (n :: names)) as [[all visited] Hst].
  rewrite (Hst _ (le_n _)). eexists. split; [done|]. simpl.
  pose proof (merge_all_ok all module) as Hok.
  rewrite (finish_props_names module _ name_prop Hok Hname).
  split; [|split].
  - csimpl. rewrite items_to_props_names. apply NoDup_cons.
    destruct Hok as (Hnd & Hn & _). by split.
  - apply elem_of_cons. by left.
  - reflexivity.
Qed.

Lemma resolve_unique_names_witness :
  ∃ resolved,
    resolve (mkDefaultsResolver ∅)
      (mkModule "cc_library"
         [mkProperty "name" (StringExpr "m");
          mkProperty "defaults" (ListExpr (StringExpr <$> ["d"]));
          mkProperty "srcs" (ListExpr [StringExpr "a.c"]);
          mkProperty "srcs" (ListExpr [StringExpr "b.c"])]) = Some resolved ∧
    NoDup (prop_name <$> properties resolved) ∧
    mkProperty "name" (StringExpr "m") ∈ properties resolved ∧
    module_get resolved "name" = Some (StringExpr "m").
Proof.
  apply (resolve_unique_names ∅ _ (StringExpr "m") ["d"]).
  - reflexivity.
  - reflexivity.
  - discriminate.
Defined.

(** ** The defaults resolver: list-valued properties *)

(** The claim as stated fails when the two names are the same name, which
    is collected once, and when a module binds the property twice. *)
Lemma resolve_concatenates_counterexample :
  ¬ defaults_concat_claim (registry_of [defaults_A]) (inherits "A" "A")
      "A" "A" defaults_A defaults_A "cflags"
      [StringExpr "-a"] [StringExpr "-a"] [StringExpr "-m"] ∧
  ¬ defaults_concat_claim (registry_of [defaults_twice; defaults_B])
      (inherits "A" "B") "A" "B" defaults_twice defaults_B "cflags"
      [StringExpr "-a"] [StringExpr "-b"] [StringExpr "-m"].
Proof.
  split; intros Hclaim.
  - destruct Hclaim as (resolved & Hres & Hget); try done.
    vm_compute in Hres. injection Hres as <-. vm_compute in Hget. done.
  - destruct Hclaim as (resolved & Hres & Hget); try done.
    vm_compute in Hres. injection Hres as <-. vm_compute in Hget. done.
Qed.

Lemma merge_property_other (d : list (string * Expression)) (p : Property)
    (P : string) :
  prop_name p ≠ P → dict_get (merge_property d p) P = dict_get d P.
Proof.
  intros Hne. unfold merge_property.
  destruct (decide (prop_name p = "name" ∨ prop_name p = "defaults")); [done|].
  destruct (dict_get d (prop_name p)); by apply dict_get_set_ne.
Qed.

Lemma merge_absent (d : list (string * Expression)) (props : list Property)
    (P : string) :
  filter (fun p => prop_name p = P) props = [] →
  dict_get (_merge_properties d props) P = dict_get d P.
Proof.
  unfold _merge_properties. revert d.
  induction props as [|p props IH]; intros d Hnone; [done|].
  rewrite filter_cons in Hnone.
  destruct (decide (prop_name p = P)) as [|Hne]; [done|].
  simpl. rewrite IH by done. by apply merge_property_other.
Qed.

(** Merging a property list that binds [P] once, to [v]: [P] ends up
    bound to [v] merged into what the target had. *)
Lemma merge_once (d : list (string * Expression)) (props : list Property)
    (P : string) (v : Expression) :
  P ≠ "name" → P ≠ "defaults" →
  props_get props P = Some v →
  length (filter (fun p => prop_name p = P) props) = 1 →
  dict_get (_merge_properties d props) P =
  Some match dict_get d P with
       | Some existing => _merge_values existing v
       | None => v
       end.
Proof.
  intros Hname Hdefaults. revert d.
  induction props as [|p props IH]; intros d Hget Hlen; [done|].
  cbn [props_get] in Hget. rewrite filter_cons in Hlen.
  destruct (decide (prop_name p = P)) as [Heq|Hne].
  - injection Hget as Hv. simpl in Hlen.
    assert (filter (fun p => prop_name p = P) props = []) as Hnil.
    { apply nil_length_inv. lia. }
    change (_merge_properties d (p :: props))
      with (_merge_properties (merge_property d p) props).
    rewrite merge_absent by done.
    unfold merge_property. rewrite Heq, Hv.
    rewrite decide_False by (intros [?|?]; done).
    destruct (dict_get d P); apply dict_get_set_eq.
  - change (_merge_properties d (p :: props))
      with (_merge_properties (merge_property d p) props).
    rewrite IH by done. by rewrite merge_property_other.
Qed.

(** The comprehension that leaves out [defaults] changes nothing, since
    [_merge_properties] skips that name itself. *)
Lemma merge_without_defaults (d : list (string * Expression))
    (props : list Property) :
  _merge_properties d (filter (fun p => prop_name p ≠ "defaults") props) =
  _merge_properties d props.
Proof.
  unfold _merge_properties. revert d.
  induction props as [|p props IH]; intros d; [done|].
  rewrite filter_cons. destruct (decide (prop_name p ≠ "defaults")) as [|Heq].
  - simpl. apply IH.
  - simpl. rewrite IH. f_equal. unfold merge_property.
    rewrite decide_True; [done|]. right. by destruct (decide (prop_name p = "defaults")).
Qed.

Lemma nested_names_none (m : BpModule) :
  module_get m "defaults" = None → nested_names m = [].
Proof. unfold nested_names. by intros ->. Qed.

Lemma collect_leaf (fuel : nat) (registry : gmap string BpModule) (n : string)
    (D : BpModule) (st : collect_state) :
  n ∉ st.2 → registry !! n = Some D → nested_names D = [] →
  _collect_defaults (S fuel) registry n st = Some (st.1 ++ [D], {[n]} ∪ st.2).
Proof.
  intros Hn Hreg Hnested. rewrite collect_unfold.
  rewrite decide_False by done. by rewrite Hreg, Hnested.
Qed.

Lemma finish_props_get (module : BpModule) (d : list (string * Expression))
    (P : string) :
  P ≠ "name" → props_get (finish_props module d) P = dict_get d P.
Proof.
  intros Hname. unfold finish_props.
  destruct (bool_decide _); [apply items_to_props_get|].
  destruct (module_get module "name"); [|apply items_to_props_get].
  cbn [props_get prop_name]. rewrite decide_False by done.
  apply items_to_props_get.
Qed.

(** C1 (amended): a module inherits [n1; n2], two different names
    registered as [D1] and [D2], which have no [defaults] of their own;
    [D1], [D2] and the module each bind [P] exactly once, to a List, and
    [P] is neither [name] nor [defaults]. Then [resolve] returns a module
    that binds [P] to the List of [D1]'s values, then [D2]'s, then the
    module's own. *)
Theorem resolve_concatenates (registry : gmap string BpModule)
    (module : BpModule) (n1 n2 : string) (D1 D2 : BpModule) (P : string)
    (v1 v2 vm : list Expression) :
  module_get module "defaults" = Some (ListExpr [StringExpr n1; StringExpr n2]) →
  n1 ≠ n2 →
  registry !! n1 = Some D1 → registry !! n2 = Some D2 →
  module_get D1 "defaults" = None → module_get D2 "defaults" = None →
  P ≠ "name" → P ≠ "defaults" →
  binds_once D1 P (ListExpr v1) →
  binds_once D2 P (ListExpr v2) →
  binds_once module P (ListExpr vm) →
  ∃ resolved,
    resolve (mkDefaultsResolver registry) module = Some resolved ∧
    module_get resolved P = Some (ListExpr (v1 ++ v2 ++ vm)).
Proof.
  intros Hdefaults Hne Hreg1 Hreg2 Hd1 Hd2 Hname Hdef [Hg1 Hl1] [Hg2 Hl2] [Hgm Hlm].
  unfold resolve, resolve_with, collect_fuel. cbn [defaults_registry].
  rewrite Hdefaults, extract_string_list_values. cbn [string_values].
  rewrite !collect_all_cons.
  rewrite (collect_leaf _ _ n1 D1) by (try apply nested_names_none; done).
  cbv beta iota. rewrite collect_all_cons.
  rewrite (collect_leaf _ _ n2 D2)
    by (try apply nested_names_none; try done; cbn; set_solver).
  cbn [collect_all fold_left fst snd app].
  eexists. split; [done|].
  unfold module_get. cbn [properties].
  rewrite finish_props_get by done.
  unfold merge_all. cbn [fold_left]. rewrite merge_without_defaults.
  rewrite (merge_once _ _ P (ListExpr vm)) by done.
  rewrite (merge_once _ _ P (ListExpr v2)) by done.
  rewrite (merge_once _ _ P (ListExpr v1)) by done.
  cbn. by rewrite app_assoc.
Qed.

Lemma resolve_concatenates_witness :
  ∃ resolved,
    resolve (mkDefaultsResolver (registry_of [defaults_A; defaults_B]))
      (inherits "A" "B") = Some resolved ∧
    module_get resolved "cflags" =
    Some (ListExpr ([StringExpr "-a"] ++ [StringExpr "-b"] ++ [StringExpr "-m"])).
Proof.
  apply (resolve_concatenates (registry_of [defaults_A; defaults_B])
           (inherits "A" "B") "A" "B" defaults_A defaults_B "cflags").
  - reflexivity.
  - discriminate.
  - vm_compute. reflexivity.
  - vm_compute. reflexivity.
  - reflexivity.
  - reflexivity.
  - discriminate.
  - discriminate.
  - split; reflexivity.
  - split; reflexivity.
  - split; reflexivity.
Defined.

(** ** The serializer *)

(** In the [variables] block a value without a newline is double-quoted
    exactly when it has one of the special characters. *)
Lemma format_variable_quotes (key value : string) :
  str_contains newline value = false →
  format_variable (key, value) =
  ["  " +:+ key +:+ ": " +:+
   (if str_contains_any yaml_special value
    then dquote +:+ value +:+ dquote else value)].
Proof.
  intros Hnl. unfold format_variable. cbn [fst snd]. rewrite Hnl.
  by destruct (str_contains_any yaml_special value).
Qed.

(** C8 (the code at the failing input): the element of a [prebuilt_etc]
    module whose [src] has a comma. The [config] block renders the value
    as it is, where the [variables] block double-quotes the same value. *)
Theorem format_config_unquoted :
  ∃ el,
    convert PrebuiltEtcHandler etc_conf "x86_64" "" = Some el ∧
    str_contains_any yaml_special "a,b.conf" = true ∧
    format_lines (content el) =
      ["kind: import"; ""; "config:"; "  source: a,b.conf";
       "  target: /etc"; ""] ∧
    format_variable ("source", "a,b.conf") =
      ["  source: " +:+ dquote +:+ "a,b.conf" +:+ dquote].
Proof. eexists. repeat split; reflexivity. Qed.

(** ** The lexer *)

(** On the ASCII letters, digits and the underscore the lexer's tests are
    those of the identifier grammar. *)
Lemma isalpha_ascii (c : ascii) :
  code c < 128 → isalpha c = ascii_letter c.
Proof.
  intros Hc.
  assert (∀ lo hi, 128 ≤ lo → in_range lo hi c = false) as Hhigh.
  { intros lo hi Hlo. unfold in_range.
    by rewrite (proj2 (Nat.leb_gt lo (code c))) by lia. }
  unfold isalpha, ascii_letter.
  rewrite (Hhigh 170 170), (Hhigh 181 181), (Hhigh 186 186), (Hhigh 192 214),
    (Hhigh 216 246), (Hhigh 248 255) by lia.
  by rewrite !orb_false_r.
Qed.

Lemma isalnum_ascii (c : ascii) :
  code c < 128 → isalnum c || bool_decide (c = "_"%char) = ident_char c.
Proof.
  intros Hc.
  assert (∀ lo hi, 128 ≤ lo → in_range lo hi c = false) as Hhigh.
  { intros lo hi Hlo. unfold in_range.
    by rewrite (proj2 (Nat.leb_gt lo (code c))) by lia. }
  unfold isalnum, isdigit, ident_char, ident_start.
  rewrite (isalpha_ascii c Hc), (Hhigh 178 179), (Hhigh 185 185), (Hhigh 188 190)
    by lia.
  rewrite !orb_false_r.
  by destruct (ascii_letter c), (isdecimal c), (bool_decide (c = "_"%char)).
Qed.

(** C9 (the code at the failing input): [U+00E9] is not a letter of the
    identifier grammar, and the lexer reads it as an identifier; [U+00B2]
    is not a decimal digit, and the lexer leaves with a [ValueError] that
    has no position, not with a [ParseError]. *)
Theorem lexer_accepts_non_ascii :
  ident_start e_acute = false ∧
  next_token (new_lexer (String e_acute "")) =
    Ok (mkToken TOK_IDENT (StrValue (String e_acute "")) 1 1,
        mkLexer [e_acute] 1 1 2) ∧
  isdecimal superscript_two = false ∧
  next_token (new_lexer (String superscript_two "")) = Raise ValueError.
Proof. repeat split; reflexivity. Qed.

(** ** The converter *)

Lemma resolve_total (self : DefaultsResolver) (module : BpModule) :
  is_Some (resolve self module).
Proof.
  destruct (resolve_returns (defaults_registry self) module) as [resolved H].
  exists resolved. by apply H.
Qed.

Lemma convert_step_returns (resolver : DefaultsResolver)
    (target_arch source_dir output_prefix : string) (result : ConversionResult)
    (module : BpModule) :
  ∃ result',
    convert_step resolver target_arch source_dir output_prefix result module
    = Ok result' ∧ errors result' = errors result.
Proof.
  unfold convert_step. destruct (get_handler (type module)); [|by eexists].
  destruct (resolve_total resolver module) as [resolved ->].
  destruct (convert _ _ _ _); by eexists.
Qed.

Lemma convert_step_errors (resolver : DefaultsResolver)
    (target_arch source_dir output_prefix : string) (result result' : ConversionResult)
    (module : BpModule) (errs : list string) :
  convert_step resolver target_arch source_dir output_prefix result module
  = Ok result' →
  convert_step resolver target_arch source_dir output_prefix
    (set_errors errs result) module = Ok (set_errors errs result').
Proof.
  unfold convert_step. destruct (get_handler (type module)).
  - destruct (resolve resolver module); [|done].
    destruct (convert _ _ _ _); by intros [= <-].
  - by intros [= <-].
Qed.

Lemma convert_loop_returns (resolver : DefaultsResolver)
    (target_arch source_dir output_prefix : string) (modules : list BpModule)
    (start : ConversionResult) :
  ∃ result,
    convert_loop resolver target_arch source_dir output_prefix modules (Ok start)
    = Ok result ∧
    errors result = errors start ∧
    ∀ errs,
      convert_loop resolver target_arch source_dir output_prefix modules
        (Ok (set_errors errs start)) = Ok (set_errors errs result).
Proof.
  unfold convert_loop. revert start.
  induction modules as [|m modules IH]; intros start.
  - by exists start.
  - cbn [fold_left bind].
    destruct (convert_step_returns resolver target_arch source_dir output_prefix
                start m) as (r1 & Hr1 & He1).
    rewrite Hr1. destruct (IH r1) as (r & Hr & He & Hset).
    exists r. split; [done|]. split; [congruence|].
    intros errs.
    rewrite (convert_step_errors _ _ _ _ _ _ _ errs Hr1). apply Hset.
Qed.

(** The first loop adds to what it starts from. *)
Lemma evaluate_loop_acc (limit : nat) (variables : gmap string Expression)
    (modules : list BpModule) (acc : list BpModule * list string) :
  evaluate_loop limit variables modules acc =
  (acc.1 ++ (evaluate_loop limit variables modules ([], [])).1,
   acc.2 ++ (evaluate_loop limit variables modules ([], [])).2).
Proof.
  unfold evaluate_loop. revert acc.
  induction modules as [|m modules IH]; intros acc.
  - simpl. rewrite !app_nil_r. by destruct acc.
  - cbn [fold_left]. rewrite IH.
    rewrite (IH (evaluate_step limit variables ([], []) m)).
    unfold evaluate_step.
    destruct (evaluate_module limit variables m); cbn [fst snd];
      by rewrite ?app_nil_l, ?app_assoc.
Qed.

Lemma evaluate_loop_app (limit : nat) (variables : gmap string Expression)
    (ms1 ms2 : list BpModule) :
  evaluate_loop limit variables (ms1 ++ ms2) ([], []) =
  ((evaluate_loop limit variables ms1 ([], [])).1 ++
   (evaluate_loop limit variables ms2 ([], [])).1,
   (evaluate_loop limit variables ms1 ([], [])).2 ++
   (evaluate_loop limit variables ms2 ([], [])).2).
Proof.
  unfold evaluate_loop at 1. rewrite fold_left_app.
  apply evaluate_loop_acc.
Qed.

(** A module whose evaluation raises adds one error and no module. *)
Lemma evaluate_loop_raise (limit : nat) (variables : gmap string Expression)
    (m : BpModule) (ms : list BpModule) (e : exn) :
  evaluate_module limit variables m = Raise e →
  evaluate_loop limit variables (m :: ms) ([], []) =
  ((evaluate_loop limit variables ms ([], [])).1,
   ("Evaluation error for " +:+ type m +:+ " '" +:+ name_str m +:+ "': "
    +:+ exn_str e) :: (evaluate_loop limit variables ms ([], [])).2).
Proof.
  intros Hraise. unfold evaluate_loop at 1. cbn [fold_left].
  unfold evaluate_step at 2. rewrite Hraise. cbn [fst snd app].
  apply (evaluate_loop_acc limit variables ms ([], [_])).
Qed.

Lemma file_modules_app (fname : string) (ds1 ds2 : list Defn) :
  file_modules (mkFile fname (ds1 ++ ds2)) =
  file_modules (mkFile fname ds1) ++ file_modules (mkFile fname ds2).
Proof. unfold file_modules. cbn [defs]. apply omap_app. Qed.

(** A module of the file binds no variable. *)
Lemma add_file_variables_module (variables : gmap string Expression)
    (fname : string) (pre post : list Defn) (m : BpModule) :
  add_file_variables variables (mkFile fname (pre ++ DefModule m :: post)) =
  add_file_variables variables (mkFile fname (pre ++ post)).
Proof.
  unfold add_file_variables. cbn [defs]. by rewrite !fold_left_app.
Qed.

(** A comprehension raises when its body raises for one of the elements. *)
Lemma traverse_raises {E A B : Type} (f : A → outcome E B) (l : list A) (a : A) :
  a ∈ l → (∃ e, f a = Raise e) → ∃ e, traverse f l = Raise e.
Proof.
  intros Hin [e He]. induction l as [|a' l IH]; [by apply elem_of_nil in Hin|].
  cbn [traverse]. apply elem_of_cons in Hin as [<-|Hin].
  - rewrite He. by eexists.
  - destruct (f a'); [|by eexists]. cbn [bind].
    destruct (IH Hin) as [e' ->]. by eexists.
Qed.

(** An expression that refers, outside every select expression, to a
    variable without binding does not evaluate: at every depth the
    evaluator raises. *)
Lemma refers_raises (variables : gmap string Expression) (x : string)
    (expr : Expression) :
  refers false x expr → variables !! x = None →
  ∀ fuel, ∃ e, evaluate fuel variables expr = Raise e.
Proof.
  intros Href Hx. remember false as in_select eqn:Hsel.
  induction Href as [|l op r _ IH|l op r _ IH|values v Hin _ IH|props p Hin _ IH|];
    intros fuel; (destruct fuel as [|fuel]; [by eexists|]); cbn [evaluate].
  - rewrite Hx. by eexists.
  - destruct (IH fuel) as [e ->]. by eexists.
  - destruct (evaluate fuel variables l); [|by eexists]. cbn [bind].
    destruct (IH fuel) as [e ->]. by eexists.
  - destruct (traverse_raises (evaluate fuel variables) values v Hin (IH fuel))
      as [e ->].
    by eexists.
  - match goal with
    | |- ∃ e, bind (traverse ?f props) _ = _ =>
        destruct (traverse_raises f props p Hin) as [e ->]; [|by eexists]
    end.
    destruct (IH fuel) as [e ->]. by eexists.
  - congruence.
Qed.

Lemma evaluate_module_raises (variables : gmap string Expression) (x : string)
    (m : BpModule) (p : Property) (limit : nat) :
  p ∈ properties m → refers false x (prop_value p) → variables !! x = None →
  ∃ e, evaluate_module limit variables m = Raise e.
Proof.
  intros Hin Href Hx. unfold evaluate_module.
  match goal with
  | |- ∃ e, bind (traverse ?f _) _ = _ =>
      destruct (traverse_raises f (properties m) p Hin) as [e ->]; [|by eexists]
  end.
  destruct (refers_raises variables x _ Href Hx limit) as [e ->]. by eexists.
Qed.

Lemma evaluate_loop_skip (limit : nat) (variables : gmap string Expression)
    (ms1 : list BpModule) (m : BpModule) (ms2 : list BpModule) (e : exn) :
  evaluate_module limit variables m = Raise e →
  evaluate_loop limit variables (ms1 ++ m :: ms2) ([], []) =
  ((evaluate_loop limit variables ms1 ([], [])).1 ++
   (evaluate_loop limit variables ms2 ([], [])).1,
   (evaluate_loop limit variables ms1 ([], [])).2 ++
   ("Evaluation error for " +:+ type m +:+ " '" +:+ name_str m +:+ "': "
    +:+ exn_str e) :: (evaluate_loop limit variables ms2 ([], [])).2).
Proof.
  intros Hraise. by rewrite evaluate_loop_app, (evaluate_loop_raise _ _ _ _ _ Hraise).
Qed.

Lemma file_modules_module (fname : string) (pre post : list Defn) (m : BpModule) :
  file_modules (mkFile fname (pre ++ DefModule m :: post)) =
  file_modules (mkFile fname pre) ++ m :: file_modules (mkFile fname post).
Proof. by rewrite file_modules_app. Qed.

(** C6 (amended): when a property value of a module of the file refers,
    outside every select expression, to a variable that has no binding in
    scope, [convert_file] returns with one more error string than for the
    file without that module, and with the same elements, skipped and
    unsupported entries, and the same converter state. *)
Theorem undefined_variable_contained (recursion_limit : nat) (self : Converter)
    (bp_path fname : string) (pre : list Defn) (m : BpModule) (post : list Defn)
    (source_dir output_prefix : string) (p : Property) (x : string) :
  p ∈ properties m →
  refers false x (prop_value p) →
  scope_of self (mkFile fname (pre ++ DefModule m :: post)) !! x = None →
  ∃ c r r' before msg after,
    convert_file recursion_limit self bp_path
      (inr (mkFile fname (pre ++ DefModule m :: post)))
      source_dir output_prefix = Ok (c, r) ∧
    convert_file recursion_limit self bp_path
      (inr (mkFile fname (pre ++ post))) source_dir output_prefix = Ok (c, r') ∧
    elements r = elements r' ∧
    skipped r = skipped r' ∧
    unsupported r = unsupported r' ∧
    errors r' = before ++ after ∧
    errors r = before ++ msg :: after.
Proof.
  intros Hin Href Hx. unfold scope_of in Hx.
  rewrite add_file_variables_module in Hx.
  destruct (evaluate_module_raises _ x m p recursion_limit Hin Href Hx)
    as [e Hraise].
  unfold convert_file.
  rewrite add_file_variables_module, file_modules_module, file_modules_app.
  set (variables := add_file_variables _ _) in *.
  rewrite (evaluate_loop_skip _ _ _ _ _ _ Hraise), evaluate_loop_app.
  cbn [fst snd].
  set (ev1 := evaluate_loop _ _ (file_modules (mkFile fname pre)) _).
  set (ev2 := evaluate_loop _ _ (file_modules (mkFile fname post)) _).
  set (resolver := register_defaults _ _).
  destruct (convert_loop_returns resolver (target_arch self) source_dir
              output_prefix (ev1.1 ++ ev2.1) (mkResult [] [] [] []))
    as (r0 & Hr0 & He0 & Hset).
  pose proof (Hset (ev1.2 ++ ev2.2)) as Hwithout.
  pose proof (Hset (ev1.2 ++
    ("Evaluation error for " +:+ type m +:+ " '" +:+ name_str m +:+ "': "
     +:+ exn_str e) :: ev2.2)) as Hwith.
  unfold set_errors in Hwithout, Hwith. cbn [elements skipped unsupported] in *.
  rewrite Hwithout, Hwith. cbn [bind].
  eexists _, _, _, ev1.2, _, ev2.2. repeat split; reflexivity.
Qed.

Lemma undefined_variable_contained_witness :
  ∃ c r r' before msg after,
    convert_file 100 (new_converter "x86_64" "") "Android.bp"
      (inr (mkFile "Android.bp"
              ([] ++ DefModule (mkModule "cc_library_static"
                                  [mkProperty "name" (StringExpr "x");
                                   mkProperty "srcs" (VariableRef "undefined")])
                  :: [DefModule scenario_S6])))
      "" "" = Ok (c, r) ∧
    convert_file 100 (new_converter "x86_64" "") "Android.bp"
      (inr (mkFile "Android.bp" ([] ++ [DefModule scenario_S6]))) "" ""
    = Ok (c, r') ∧
    elements r = elements r' ∧
    skipped r = skipped r' ∧
    unsupported r = unsupported r' ∧
    errors r' = before ++ after ∧
    errors r = before ++ msg :: after.
Proof.
  apply (undefined_variable_contained 100 (new_converter "x86_64" "")
           "Android.bp" "Android.bp" [] _ [DefModule scenario_S6] "" ""
           (mkProperty "srcs" (VariableRef "undefined")) "undefined").
  - cbn [properties]. rewrite !elem_of_cons. tauto.
  - apply refers_var.
  - reflexivity.
Defined.

(** The claim as stated, where a reference in a case of a select
    expression counts, fails: the module is converted and nothing is
    reported. *)
Lemma undefined_variable_counterexample :
  ¬ undefined_reported true 100 (new_converter "x86_64" "") "Android.bp"
      "Android.bp" [] selects_undefined [] "" "".
Proof.
  intros Hclaim.
  destruct (Hclaim
              (mkProperty "srcs"
                 (SelectExpr "soong_config_variable" ["a"; "b"]
                    [([StringExpr "default"], VariableRef "undefined")]))
              "undefined")
    as (c & r & r' & before & msg & after & Hwith & _ & _ & _ & _ & _ & Herr).
  - unfold selects_undefined. cbn [properties]. rewrite !elem_of_cons. tauto.
  - eapply refers_select; [done| |apply refers_var].
    apply elem_of_cons. by left.
  - reflexivity.
  - vm_compute in Hwith. injection Hwith as _ <-. cbn [errors] in Herr.
    by destruct before.
Qed.

(** What [convert_file] emits for that module. *)
Example selects_undefined_converted :
  ∃ c r,
    convert_file 100 (new_converter "x86_64" "") "Android.bp"
      (inr (mkFile "Android.bp" [DefModule selects_undefined])) "" ""
    = Ok (c, r) ∧
    filename <$> elements r = ["x.bst"] ∧ errors r = [].
Proof. eexists _, _. split; [vm_compute; reflexivity|]. by split. Qed.

(** *** State between conversions *)

Lemma convert_file_returns (recursion_limit : nat) (self : Converter)
    (bp_path : string) (parsed : parse_outcome) (source_dir output_prefix : string) :
  ∃ c r,
    convert_file recursion_limit self bp_path parsed source_dir output_prefix
    = Ok (c, r).
Proof.
  destruct parsed as [e|file]; [by eexists _, _|].
  unfold convert_file.
  match goal with
  | |- context [convert_loop ?res ?ta ?sd ?pre ?ms (Ok ?start)] =>
      destruct (convert_loop_returns res ta sd pre ms start) as (r & -> & _)
  end.
  by eexists _, _.
Qed.

Lemma evaluate_module_type (limit : nat) (variables : gmap string Expression)
    (m m' : BpModule) :
  evaluate_module limit variables m = Ok m' → type m' = type m.
Proof.
  unfold evaluate_module. destruct (traverse _ _); [|done]. by intros [= <-].
Qed.

Lemma evaluate_loop_types (limit : nat) (variables : gmap string Expression)
    (P : string → Prop) (modules : list BpModule) :
  Forall (fun m => P (type m)) modules →
  Forall (fun m => P (type m)) (evaluate_loop limit variables modules ([], [])).1.
Proof.
  induction 1 as [|m modules Hm _ IH]; [done|].
  change (m :: modules) with ([m] ++ modules).
  rewrite evaluate_loop_app. cbn [fst]. apply Forall_app. split; [|done].
  unfold evaluate_loop, evaluate_step. cbn [fold_left].
  destruct (evaluate_module limit variables m) as [m'|] eqn:Hev; cbn [fst app].
  - apply Forall_singleton. by rewrite (evaluate_module_type _ _ _ _ Hev).
  - done.
Qed.

Lemma register_defaults_none (self : DefaultsResolver) (modules : list BpModule) :
  Forall (fun m => type m ≠ "cc_defaults") modules →
  register_defaults self modules = self.
Proof.
  intros Hall. unfold register_defaults. destruct self as [registry].
  f_equal. cbn [defaults_registry].
  induction Hall as [|m modules Hm _ IH]; [done|].
  cbn [fold_left]. unfold register_one at 2. by rewrite decide_False.
Qed.

Lemma leaves_nothing_modules (file : File) :
  leaves_nothing (inr file) →
  Forall (fun m => type m ≠ "cc_defaults") (file_modules file).
Proof.
  unfold leaves_nothing, file_modules.
  induction 1 as [|d ds Hd _ IH]; [done|].
  destruct d as [a|m]; [done|]. cbn [omap]. by apply Forall_cons.
Qed.

Lemma leaves_nothing_variables (variables : gmap string Expression) (file : File) :
  leaves_nothing (inr file) → add_file_variables variables file = variables.
Proof.
  unfold leaves_nothing, add_file_variables.
  induction 1 as [|d ds Hd _ IH]; [done|].
  destruct d as [a|m]; [done|]. apply IH.
Qed.

(** A conversion that leaves nothing returns the converter it was given. *)
Lemma leaves_nothing_converter (recursion_limit : nat) (self c : Converter)
    (bp_path : string) (parsed : parse_outcome) (source_dir output_prefix : string)
    (r : ConversionResult) :
  leaves_nothing parsed →
  convert_file recursion_limit self bp_path parsed source_dir output_prefix
  = Ok (c, r) →
  c = self.
Proof.
  intros Hnothing. destruct parsed as [e|file]; [by intros [= <- _]|].
  unfold convert_file.
  rewrite (leaves_nothing_variables _ _ Hnothing).
  rewrite register_defaults_none
    by (apply (evaluate_loop_types _ _ (fun t => t ≠ "cc_defaults")),
          leaves_nothing_modules, Hnothing).
  destruct (convert_loop _ _ _ _ _ _); [|done]. intros [= <- _].
  by destruct self as [? ? ? []].
Qed.

(** C3 (amended): after a conversion of a file that has no assignment and
    no [cc_defaults] module (or that did not parse), a converter converts
    every [F] as a newly constructed converter of the same target
    architecture does. *)
Theorem fresh_after_stateless_file (recursion_limit : nat)
    (target_arch aosp_root : string) (G F : conversion) :
  leaves_nothing (conv_parsed G) →
  ∃ c1 rG,
    run recursion_limit (new_converter target_arch aosp_root) G = Ok (c1, rG) ∧
    run recursion_limit c1 F =
    run recursion_limit (new_converter target_arch aosp_root) F.
Proof.
  intros Hnothing. unfold run.
  destruct (convert_file_returns recursion_limit
              (new_converter target_arch aosp_root) (conv_path G) (conv_parsed G)
              (conv_source_dir G) (conv_prefix G)) as (c1 & rG & HG).
  exists c1, rG. split; [done|].
  by rewrite (leaves_nothing_converter _ _ _ _ _ _ _ _ Hnothing HG).
Qed.

Lemma fresh_after_stateless_file_witness :
  ∃ c1 rG,
    run 100 (new_converter "x86_64" "")
      (mkConversion "G/Android.bp"
         (inr (mkFile "G/Android.bp" [DefModule scenario_S6])) "G" "") = Ok (c1, rG) ∧
    run 100 c1 (mkConversion "F/Android.bp" (inr file_F) "F" "") =
    run 100 (new_converter "x86_64" "")
      (mkConversion "F/Android.bp" (inr file_F) "F" "").
Proof.
  apply (fresh_after_stateless_file 100 "x86_64" ""
           (mkConversion "G/Android.bp"
              (inr (mkFile "G/Android.bp" [DefModule scenario_S6])) "G" "")).
  cbn [conv_parsed leaves_nothing defs]. apply Forall_singleton. discriminate.
Defined.

(** After [file_G] the converter knows [base]: [file_F] converts to an
    element, where a new converter reports an undefined variable. *)
Lemma carry_over_counterexample :
  ¬ no_carry_over 100 "x86_64" ""
      (mkConversion "G/Android.bp" (inr file_G) "G" "")
      (mkConversion "F/Android.bp" (inr file_F) "F" "").
Proof.
  intros Hclaim. unfold no_carry_over, run in Hclaim.
  cbn [conv_path conv_parsed conv_source_dir conv_prefix] in Hclaim.
  destruct (convert_file_returns 100 (new_converter "x86_64" "") "G/Android.bp"
              (inr file_G) "G" "") as (c1 & rG & HG).
  destruct (convert_file_returns 100 c1 "F/Android.bp" (inr file_F) "F" "")
    as (c2 & r & HF).
  destruct (convert_file_returns 100 (new_converter "x86_64" "") "F/Android.bp"
              (inr file_F) "F" "") as (c2' & r' & HF').
  pose proof (Hclaim _ _ _ _ _ _ HG HF HF') as Heq.
  vm_compute in HG. injection HG as <- <-.
  vm_compute in HF, HF'. injection HF as _ <-. injection HF' as _ <-.
  discriminate Heq.
Qed.

(** ** The defaults resolver: cycles *)

Lemma string_values_drop (n : string) (values : list Expression) :
  string_values (filter (fun v => extract_string v ≠ Some n) values) =
  filter (fun s => s ≠ n) (string_values values).
Proof.
  induction values as [|v values IH]; [done|].
  rewrite filter_cons. destruct v; cbn [extract_string string_values];
    try (rewrite decide_True by done; cbn [string_values]; apply IH).
  rewrite filter_cons. destruct (decide (value ≠ n)) as [Hne|Heq].
  - rewrite decide_True by congruence. cbn [string_values]. by f_equal.
  - rewrite decide_False by (intros H; apply Heq; congruence). apply IH.
Qed.

Lemma extract_drop_name (n : string) (e : Expression) :
  extract_string_list (drop_name n e) =
  filter (fun s => s ≠ n) (extract_string_list e).
Proof.
  destruct e; try done. cbn [drop_name].
  by rewrite !extract_string_list_values, string_values_drop.
Qed.

Lemma drop_reference_get (n : string) (props : list Property) :
  props_get (drop_reference_props n props) "defaults" =
  drop_name n <$> props_get props "defaults".
Proof.
  induction props as [|p props IH]; [done|].
  cbn [drop_reference_props props_get].
  destruct (decide (prop_name p = "defaults")) as [Heq|Hne].
  - cbn [props_get prop_name prop_value]. by rewrite decide_True.
  - cbn [props_get]. by rewrite decide_False.
Qed.

Lemma nested_names_drop (n : string) (m : BpModule) :
  nested_names (drop_reference n m) = filter (fun s => s ≠ n) (nested_names m).
Proof.
  unfold nested_names, module_get, drop_reference. cbn [properties].
  rewrite drop_reference_get.
  destruct (props_get (properties m) "defaults"); [|done].
  apply extract_drop_name.
Qed.

Lemma same_merge_refl (m : BpModule) : same_merge m m.
Proof. by intros target. Qed.

Lemma same_merge_drop (n : string) (m : BpModule) :
  same_merge m (drop_reference n m).
Proof.
  intros target. unfold drop_reference, _merge_properties. cbn [properties].
  revert target. induction (properties m) as [|p props IH]; intros target; [done|].
  cbn [drop_reference_props].
  destruct (decide (prop_name p = "defaults")) as [Heq|Hne].
  - cbn [fold_left]. f_equal. unfold merge_property. cbn [prop_name].
    by rewrite !decide_True by (by right).
  - cbn [fold_left]. apply IH.
Qed.

Lemma merge_all_similar (all all' : list BpModule) (module : BpModule) :
  Forall2 same_merge all all' → merge_all all' module = merge_all all module.
Proof.
  intros Hall. unfold merge_all. f_equal.
  generalize (@nil (string * Expression)).
  induction Hall as [|m m' all all' Hm _ IH]; intros target; [done|].
  cbn [fold_left]. rewrite (Hm target). apply IH.
Qed.

Lemma collect_visited (fuel : nat) (registry : gmap string BpModule) (x : string)
    (st st1 : collect_state) :
  x ∈ st.2 → _collect_defaults fuel registry x st = Some st1 → st1 = st.
Proof.
  intros Hx. destruct fuel as [|fuel]; [done|].
  rewrite collect_unfold, decide_True by done. by intros [= <-].
Qed.

Section WithoutEdge.
Variable registry : gmap string BpModule.
Variables d n : string.

Lemma lookup_without_edge_ne (x : string) :
  x ≠ d → without_edge d n registry !! x = registry !! x.
Proof. intros Hne. unfold without_edge. by rewrite lookup_alter_ne. Qed.

(** What the registry without the edge has under a name: nothing where
    the registry has nothing, and else a module that merges alike and
    refers to the same names, but for [n]. *)
Lemma lookup_without_edge (x : string) :
  match registry !! x with
  | None => without_edge d n registry !! x = None
  | Some X =>
      ∃ X', without_edge d n registry !! x = Some X' ∧ same_merge X X' ∧
            (nested_names X' = nested_names X ∨
             nested_names X' = filter (fun s => s ≠ n) (nested_names X))
  end.
Proof.
  unfold without_edge. destruct (decide (x = d)) as [->|Hne].
  - rewrite lookup_alter_eq. destruct (registry !! d) as [X|]; [|done].
    exists (drop_reference n X). split; [done|].
    split; [apply same_merge_drop|]. right. apply nested_names_drop.
  - rewrite lookup_alter_ne by done. destruct (registry !! x) as [X|]; [|done].
    exists X. split; [done|]. split; [apply same_merge_refl|]. by left.
Qed.

Lemma size_without_edge :
  collect_fuel (without_edge d n registry) = collect_fuel registry.
Proof.
  unfold collect_fuel, without_edge. f_equal.
  by rewrite <- !size_dom, dom_alter_L.
Qed.

Lemma similar_app (st st' : collect_state) (m m' : BpModule) :
  similar st st' → same_merge m m' →
  similar (st.1 ++ [m], st.2) (st'.1 ++ [m'], st'.2).
Proof.
  intros [Hv Hr] Hm. split; [done|]. cbn [fst].
  apply Forall2_app; [done|]. by apply Forall2_cons.
Qed.

(** *** Once [n] is visited *)

Lemma loop_simulated (fuel : nat) :
  call_simulated registry d n fuel →
  ∀ names st st' st1,
    similar st st' → n ∈ st.2 →
    collect_all fuel registry names st = Some st1 →
    ∃ st1',
      collect_all fuel (without_edge d n registry) names st' = Some st1' ∧
      similar st1 st1'.
Proof.
  intros Hcall names. induction names as [|y names IH]; intros st st' st1 Hsim Hn.
  - intros [= <-]. by exists st'.
  - rewrite !collect_all_cons.
    destruct (_collect_defaults fuel registry y st) as [s|] eqn:Hy; [|done].
    destruct (Hcall y st st' s Hsim Hn Hy) as (s' & -> & Hsim').
    apply IH; [done|]. apply collect_visited_grows in Hy. set_solver.
Qed.

(** The loop over the names without [n] does the same: a call for the
    visited [n] changes nothing. *)
Lemma loop_filter_simulated (fuel : nat) :
  call_simulated registry d n fuel →
  ∀ names st st' st1,
    similar st st' → n ∈ st.2 →
    collect_all fuel registry names st = Some st1 →
    ∃ st1',
      collect_all fuel (without_edge d n registry)
        (filter (fun s => s ≠ n) names) st' = Some st1' ∧
      similar st1 st1'.
Proof.
  intros Hcall names. induction names as [|y names IH]; intros st st' st1 Hsim Hn.
  - intros [= <-]. by exists st'.
  - rewrite collect_all_cons, filter_cons.
    destruct (_collect_defaults fuel registry y st) as [s|] eqn:Hy; [|done].
    destruct (decide (y ≠ n)) as [Hne|Heq].
    + rewrite collect_all_cons.
      destruct (Hcall y st st' s Hsim Hn Hy) as (s' & -> & Hsim').
      apply IH; [done|]. apply collect_visited_grows in Hy. set_solver.
    + assert (y = n) as -> by (by destruct (decide (y = n))).
      apply collect_visited in Hy as ->; [|done]. by apply IH.
Qed.

(** A call that expands [x], when [n] is [x] or visited. *)
Lemma expand_simulated (fuel : nat) (x : string) (st st' st1 : collect_state) :
  call_simulated registry d n fuel →
  similar st st' → x ∉ st.2 → n ∈ ({[x]} ∪ st.2 : gset string) →
  _collect_defaults (S fuel) registry x st = Some st1 →
  ∃ st1',
    _collect_defaults (S fuel) (without_edge d n registry) x st' = Some st1' ∧
    similar st1 st1'.
Proof.
  intros Hcall Hsim Hx Hn. rewrite !collect_unfold.
  destruct Hsim as [Hv Hr]. rewrite <- Hv.
  rewrite !decide_False by done.
  pose proof (lookup_without_edge x) as Hlook.
  destruct (registry !! x) as [X|].
  - destruct Hlook as (X' & -> & Hmerge & Hnames).
    destruct (collect_all fuel registry (nested_names X) (st.1, {[x]} ∪ st.2))
      as [s|] eqn:Hs; [|done].
    intros [= <-].
    assert (similar (st.1, {[x]} ∪ st.2) (st'.1, {[x]} ∪ st.2)) as Hsim
      by done.
    destruct Hnames as [-> | ->].
    + destruct (loop_simulated fuel Hcall _ _ _ _ Hsim Hn Hs) as (s' & -> & Hs').
      eexists. split; [done|]. by apply similar_app.
    + destruct (loop_filter_simulated fuel Hcall _ _ _ _ Hsim Hn Hs)
        as (s' & -> & Hs').
      eexists. split; [done|]. by apply similar_app.
  - rewrite Hlook. intros [= <-]. by eexists.
Qed.

Lemma call_simulated_all (fuel : nat) : call_simulated registry d n fuel.
Proof.
  induction fuel as [|fuel IH]; intros x st st' st1 Hsim Hn; [done|].
  destruct (decide (x ∈ st.2)) as [Hx|Hx].
  - intros Hcall. apply collect_visited in Hcall as ->; [|done].
    exists st'. split; [|done].
    rewrite collect_unfold, decide_True; [done|]. by rewrite <- (proj1 Hsim).
  - apply expand_simulated; [done..|set_solver].
Qed.
End WithoutEdge.

Section BackEdge.
Variable registry : gmap string BpModule.
Variables d n : string.

(** *** While [d] is not visited *)

Lemma loop_untouched_from (fuel : nat) :
  (∀ x st st' st1,
     similar st st' → d ∉ st1.2 →
     _collect_defaults fuel registry x st = Some st1 →
     ∃ st1',
       _collect_defaults fuel (without_edge d n registry) x st' = Some st1' ∧
       similar st1 st1') →
  ∀ names st st' st1,
    similar st st' → d ∉ st1.2 →
    collect_all fuel registry names st = Some st1 →
    ∃ st1',
      collect_all fuel (without_edge d n registry) names st' = Some st1' ∧
      similar st1 st1'.
Proof.
  intros Hcall names. induction names as [|y names IH]; intros st st' st1 Hsim Hd.
  - intros [= <-]. by exists st'.
  - rewrite !collect_all_cons.
    destruct (_collect_defaults fuel registry y st) as [s|] eqn:Hy; [|done].
    intros Hrest.
    assert (d ∉ s.2) as Hds.
    { apply collect_all_visited_grows in Hrest. set_solver. }
    destruct (Hcall y st st' s Hsim Hds Hy) as (s' & -> & Hsim').
    by apply (IH s s' st1).
Qed.

Lemma call_untouched (fuel : nat) (x : string) (st st' st1 : collect_state) :
  similar st st' → d ∉ st1.2 →
  _collect_defaults fuel registry x st = Some st1 →
  ∃ st1',
    _collect_defaults fuel (without_edge d n registry) x st' = Some st1' ∧
    similar st1 st1'.
Proof.
  revert x st st' st1. induction fuel as [|fuel IH];
    intros x st st' st1 Hsim Hd; [done|].
  intros Hcall. pose proof (collect_visits _ _ _ _ _ Hcall) as Hx.
  revert Hcall. rewrite !collect_unfold.
  destruct Hsim as [Hv Hr]. rewrite <- Hv.
  destruct (decide (x ∈ st.2)).
  { intros [= <-]. by exists st'. }
  rewrite lookup_without_edge_ne by (intros ->; done).
  destruct (registry !! x) as [X|].
  - destruct (collect_all fuel registry (nested_names X) (st.1, {[x]} ∪ st.2))
      as [s|] eqn:Hs; [|done].
    intros [= <-]. cbn [snd] in Hd.
    assert (similar (st.1, {[x]} ∪ st.2) (st'.1, {[x]} ∪ st.2)) as Hsim by done.
    destruct (loop_untouched_from fuel IH _ _ _ _ Hsim Hd Hs) as (s' & -> & Hs').
    eexists. split; [done|]. apply similar_app; [done|apply same_merge_refl].
  - intros [= <-]. by eexists.
Qed.

Lemma loop_untouched (fuel : nat) (names : list string)
    (st st' st1 : collect_state) :
  similar st st' → d ∉ st1.2 →
  collect_all fuel registry names st = Some st1 →
  ∃ st1',
    collect_all fuel (without_edge d n registry) names st' = Some st1' ∧
    similar st1 st1'.
Proof. apply loop_untouched_from. intros x. apply call_untouched. Qed.

(** *** Along the open calls *)

Lemma collect_all_agree (fuel fuel' : nat) (names : list string)
    (st st1 st2 : collect_state) :
  collect_all fuel registry names st = Some st1 →
  collect_all fuel' registry names st = Some st2 →
  st1 = st2.
Proof.
  intros H1 H2.
  apply (collect_all_mono _ fuel (fuel `max` fuel')) in H1; [|lia].
  apply (collect_all_mono _ fuel' (fuel `max` fuel')) in H2; [|lia].
  congruence.
Qed.

(** The state a name is expanded in has all that was visited before, and
    not the name. *)
Lemma expands_state (names : list string) (st : collect_state)
    (stack : list string) (x : string) (st_x : collect_state) :
  expands registry names st stack x st_x →
  st.2 ⊆ st_x.2 ∧ (x ∉ st_x.2) ∧ ∀ a, a ∈ stack → a ∈ st_x.2.
Proof.
  induction 1 as [names done_names x rest st st_x fuel _ Hdone Hx
                 |names done_names a rest st st_a fuel A stack x st_x
                    _ Hdone Ha HA _ IH].
  - split; [by eapply collect_all_visited_grows|]. split; [done|].
    intros a Ha. by apply elem_of_nil in Ha.
  - destruct IH as (Hsub & Hx & Hstack). cbn [snd] in Hsub.
    apply collect_all_visited_grows in Hdone.
    split; [set_solver|]. split; [done|].
    intros b Hb. apply elem_of_cons in Hb as [->|Hb]; [set_solver|by apply Hstack].
Qed.

End BackEdge.

(** The traversal in which [d] is expanded while [n] is [d] or on the
    stack goes the same way without the edge from [d] to [n]. *)
Lemma expands_simulated (registry : gmap string BpModule) (d n : string)
    (names : list string) (st : collect_state)
    (stack : list string) (st_d : collect_state) :
  expands registry names st stack d st_d →
  n = d ∨ n ∈ stack →
  ∀ fuel st' st1,
    similar st st' →
    collect_all fuel registry names st = Some st1 →
    (∃ st1',
       collect_all fuel (without_edge d n registry) names st' = Some st1' ∧
       similar st1 st1') ∧
    n ∈ st1.2.
Proof.
  induction 1 as [names done_names x rest st st_x fuel0 -> Hdone Hx
                 |names done_names a rest st st_a fuel0 A stack x st_x
                    -> Hdone Ha HA Hexp IH];
    intros Hn fuel st' st1 Hsim.
  - (* [x] is expanded by this loop *)
    destruct Hn as [->|Hn]; [|by apply elem_of_nil in Hn].
    rewrite !collect_all_app.
    destruct (collect_all fuel registry done_names st) as [s|] eqn:Hs; [|done].
    pose proof (collect_all_agree _ _ _ _ _ _ _ Hs Hdone) as ->.
    destruct (loop_untouched registry x x fuel done_names st st' st_x Hsim Hx Hs)
      as (st_x' & -> & Hsim_x).
    rewrite !collect_all_cons.
    destruct (_collect_defaults fuel registry x st_x) as [s|] eqn:Hcall; [|done].
    intros Hrest. destruct fuel as [|fuel]; [done|].
    destruct (expand_simulated registry x x fuel x st_x st_x' s
                (call_simulated_all registry x x fuel) Hsim_x Hx
                ltac:(set_solver) Hcall) as (s' & -> & Hsim_s).
    apply collect_visits in Hcall.
    split.
    + by apply (loop_simulated registry x x (S fuel)
                  (call_simulated_all registry x x (S fuel)) rest s s' st1).
    + apply collect_all_visited_grows in Hrest. set_solver.
  - (* [x] is expanded under the call for [a] *)
    destruct (expands_state _ _ _ _ _ _ Hexp) as (Hsub & Hxd & Hstack).
    cbn [snd] in Hsub.
    assert (a ≠ x) as Hax by set_solver.
    rewrite !collect_all_app.
    destruct (collect_all fuel registry done_names st) as [s|] eqn:Hs; [|done].
    pose proof (collect_all_agree _ _ _ _ _ _ _ Hs Hdone) as ->.
    destruct (loop_untouched registry x n fuel done_names st st' st_a Hsim
                ltac:(set_solver) Hs) as (st_a' & -> & Hsim_a).
    rewrite !collect_all_cons.
    destruct fuel as [|fuel]; [done|].
    rewrite !collect_unfold.
    destruct Hsim_a as [Hv Hr]. rewrite <- Hv.
    rewrite !decide_False by done.
    rewrite lookup_without_edge_ne, HA by done.
    destruct (collect_all fuel registry (nested_names A) (st_a.1, {[a]} ∪ st_a.2))
      as [s0|] eqn:Hs0; [|done].
    assert (similar (st_a.1, {[a]} ∪ st_a.2) (st_a'.1, {[a]} ∪ st_a.2))
      as Hsim_in by done.
    assert ((∃ s0', collect_all fuel (without_edge x n registry) (nested_names A)
                      (st_a'.1, {[a]} ∪ st_a.2) = Some s0' ∧ similar s0 s0')
            ∧ n ∈ s0.2) as [(s0' & -> & Hsim0) Hn0].
    { destruct (decide (n = a)) as [->|Hna].
      - assert (a ∈ ({[a]} ∪ st_a.2 : gset string)) as Hin by set_solver.
        split.
        + by apply (loop_simulated registry x a fuel
                      (call_simulated_all registry x a fuel) (nested_names A)
                      (st_a.1, {[a]} ∪ st_a.2) (st_a'.1, {[a]} ∪ st_a.2) s0).
        + apply collect_all_visited_grows in Hs0. set_solver.
      - apply IH; [|done..].
        destruct Hn as [->|Hn]; [by left|].
        apply elem_of_cons in Hn as [->|Hn]; [done|by right]. }
    intros Hrest.
    assert (similar (s0.1 ++ [A], s0.2) (s0'.1 ++ [A], s0'.2)) as Hsim_s
      by (apply similar_app; [done|apply same_merge_refl]).
    split.
    + by apply (loop_simulated registry x n (S fuel)
                  (call_simulated_all registry x n (S fuel)) rest _ _ st1 Hsim_s).
    + apply collect_all_visited_grows in Hrest. set_solver.
Qed.

(** C5: for every registry, with or without cycles among the [defaults]
    references, and every module, [resolve] returns, and returns the same
    at every larger recursion depth; and for every back-edge of the
    traversal from the module's [defaults], the result is the result in
    the registry with that edge removed. *)
Theorem resolve_cycle_safe (registry : gmap string BpModule) (module : BpModule) :
  (∃ resolved,
     resolve (mkDefaultsResolver registry) module = Some resolved ∧
     ∀ fuel, collect_fuel registry ≤ fuel →
             resolve_with fuel registry module = Some resolved) ∧
  ∀ d n,
    back_edge registry (nested_names module) d n →
    resolve (mkDefaultsResolver (without_edge d n registry)) module =
    resolve (mkDefaultsResolver registry) module.
Proof.
  split.
  { destruct (resolve_returns registry module) as [resolved Hres].
    exists resolved. split; [|done]. by apply Hres. }
  intros d n (stack & st_d & D & Hexp & HD & Hedge & Hn).
  unfold resolve, resolve_with. cbn [defaults_registry].
  rewrite size_without_edge. unfold nested_names in Hexp.
  destruct (module_get module "defaults") as [defaults_prop|]; [|done].
  destruct (extract_string_list defaults_prop) as [|y names]; [done|].
  destruct (collect_fuel_enough registry (y :: names)) as [[all visited] Hall].
  specialize (Hall _ (le_n _)).
  destruct (expands_simulated registry d n _ _ _ _ Hexp Hn
              (collect_fuel registry) ([], ∅) (all, visited))
    as [([all' visited'] & Hall' & Hv & Hsim) _]; [done|done|].
  rewrite Hall, Hall'. cbn [fst snd] in Hsim.
  by rewrite (merge_all_similar all all' module Hsim).
Qed.

Lemma resolve_cycle_safe_witness :
  resolve (mkDefaultsResolver
             (without_edge "B" "A" (registry_of [cycle_A; cycle_B]))) inherits_A =
  resolve (mkDefaultsResolver (registry_of [cycle_A; cycle_B])) inherits_A.
Proof.
  apply (proj2 (resolve_cycle_safe (registry_of [cycle_A; cycle_B]) inherits_A)
           "B" "A").
  exists ["A"], ([], {["A"]} ∪ ∅), cycle_B.
  split; [|split; [|split]].
  - apply (expands_nested _ ["A"] [] "A" [] ([], ∅) ([], ∅) 1 cycle_A [] "B").
    + reflexivity.
    + reflexivity.
    + apply not_elem_of_empty.
    + vm_compute. reflexivity.
    + apply (expands_here _ ["B"] [] "B" [] _ _ 1).
      * reflexivity.
      * reflexivity.
      * cbn [snd]. rewrite elem_of_union, elem_of_singleton, elem_of_empty.
        intros [[=]|[]].
  - vm_compute. reflexivity.
  - change (nested_names cycle_B) with ["A"]. rewrite elem_of_cons. by left.
  - right. rewrite elem_of_cons. by left.
Defined.

(** The chain the cycle resolves to: [B], then [A], then the module. *)
Example resolve_cycle_chain :
  ∃ resolved,
    resolve (mkDefaultsResolver (registry_of [cycle_A; cycle_B])) inherits_A
    = Some resolved ∧
    module_get resolved "cflags" =
    Some (ListExpr [StringExpr "-b"; StringExpr "-a"; StringExpr "-m"]).
Proof. eexists. split; [vm_compute; reflexivity|reflexivity]. Qed.

(** The reference from [A] to [B] is a tree edge of that traversal, not a
    back-edge: without it [B] is not reached. *)
Example tree_edge_matters :
  ∃ resolved,
    resolve (mkDefaultsResolver
               (without_edge "A" "B" (registry_of [cycle_A; cycle_B]))) inherits_A
    = Some resolved ∧
    module_get resolved "cflags" =
    Some (ListExpr [StringExpr "-a"; StringExpr "-m"]).
Proof. eexists. split; [vm_compute; reflexivity|reflexivity]. Qed.

(** * Further properties *)

(** ** The evaluator: results *)

(** A comprehension returns the list of what its body returns. *)
Lemma traverse_Forall2 {E A B : Type} (f : A → outcome E B) (l : list A)
    (bs : list B) :
  traverse f l = Ok bs ↔ Forall2 (fun a b => f a = Ok b) l bs.
Proof.
  revert bs. induction l as [|a l IH]; intros bs; cbn [traverse].
  - split.
    + intros [= <-]. constructor.
    + intros H. by apply Forall2_nil_inv_l in H as ->.
  - destruct (f a) as [b|e] eqn:Hfa; cbn [bind].
    + destruct (traverse f l) as [bs'|e] eqn:Hl; cbn [bind].
      * split.
        -- intros [= <-]. constructor; [done|]. by apply IH.
        -- intros H. apply Forall2_cons_inv_l in H as (b' & bs'' & Hb & Hbs & ->).
           apply IH in Hbs. congruence.
      * split; [done|].
        intros H. apply Forall2_cons_inv_l in H as (b' & bs'' & Hb & Hbs & ->).
        apply IH in Hbs. congruence.
    + split; [done|].
      intros H. apply Forall2_cons_inv_l in H as (b' & bs'' & Hb & Hbs & ->).
      congruence.
Qed.

Lemma traverse_app {E A B : Type} (f : A → outcome E B) (l1 l2 : list A)
    (bs1 bs2 : list B) :
  traverse f l1 = Ok bs1 → traverse f l2 = Ok bs2 →
  traverse f (l1 ++ l2) = Ok (bs1 ++ bs2).
Proof.
  rewrite !traverse_Forall2. apply Forall2_app.
Qed.

(** What a comprehension returns, a second comprehension returns
    unchanged when its body returns the results of the first unchanged. *)
Lemma traverse_stable {E A B : Type} (f : A → outcome E B) (g : B → outcome E B)
    (l : list A) (bs : list B) :
  (∀ a b, f a = Ok b → g b = Ok b) →
  traverse f l = Ok bs → traverse g bs = Ok bs.
Proof.
  intros Hfg. rewrite !traverse_Forall2.
  induction 1 as [|a b l bs Hab _ IH]; constructor; [by eapply Hfg|done].
Qed.

Lemma evaluate_list_unfold (n : nat) (variables : gmap string Expression)
    (values : list Expression) :
  evaluate (S n) variables (ListExpr values) =
  bind (traverse (evaluate n variables) values) (fun vs => Ok (ListExpr vs)).
Proof. reflexivity. Qed.

Lemma evaluate_list_inv (n : nat) (variables : gmap string Expression)
    (values vs : list Expression) :
  evaluate n variables (ListExpr values) = Ok (ListExpr vs) →
  ∃ n', n = S n' ∧ traverse (evaluate n' variables) values = Ok vs.
Proof.
  destruct n as [|n']; cbn [evaluate]; [done|].
  destruct (traverse _ values) as [vs'|] eqn:Hvs; [|done].
  intros [= <-]. by exists n'.
Qed.

(** A value the evaluator returned evaluates to itself, in every scope
    and at the same depth. *)
Lemma evaluate_stable (n : nat) (variables variables' : gmap string Expression)
    (expr v : Expression) :
  evaluate n variables expr = Ok v → evaluate n variables' v = Ok v.
Proof.
  revert expr v. induction n as [|n IH]; intros expr v; [done|].
  destruct expr; intros H; cbn [evaluate] in H.
  - by injection H as <-.
  - by injection H as <-.
  - by injection H as <-.
  - destruct (traverse _ values) as [vs|] eqn:Hvs; [|done].
    injection H as <-. cbn [evaluate bind].
    by rewrite (traverse_stable _ (evaluate n variables') _ _ (fun a b => IH a b) Hvs).
  - revert H.
    match goal with
    | |- bind (traverse ?f ?l) _ = _ → _ =>
        destruct (traverse f l) as [ps|] eqn:Hps; [|done]
    end.
    intros [= <-]. cbn [evaluate bind].
    match goal with
    | |- bind (traverse ?g ps) _ = _ =>
        enough (traverse g ps = Ok ps) as -> by done;
        apply (traverse_stable _ g _ _) in Hps; [done|]
    end.
    intros a b. simpl.
    destruct (evaluate n variables (prop_value a)) as [w|] eqn:Hw; [|done].
    intros [= <-]. cbn [prop_value prop_name bind].
    by rewrite (IH _ _ Hw).
  - destruct (variables !! name) as [bound|]; [|done].
    apply (evaluate_mono variables' n); [lia|by eapply IH].
  - destruct (evaluate n variables expr1) as [lv|] eqn:Hl; [|done].
    destruct (evaluate n variables expr2) as [rv|] eqn:Hr; [|done].
    cbn [bind] in H. apply IH in Hl, Hr.
    assert (evaluate (S n) variables' (OperatorExpr lv op rv) =
            if decide (op = "+") then
              match lv, rv with
              | ListExpr a, ListExpr b => Ok (ListExpr (a ++ b))
              | StringExpr s, StringExpr t => Ok (StringExpr (s +:+ t))
              | _, _ => Ok (OperatorExpr lv op rv)
              end
            else Ok (OperatorExpr lv op rv)) as Hop.
    { cbn [evaluate]. by rewrite Hl, Hr. }
    destruct (decide (op = "+")) as [->|Hop'].
    + destruct lv, rv; try (injection H as <-; exact Hop).
      * by injection H as <-.
      * injection H as <-.
        apply evaluate_list_inv in Hl as (n' & -> & Hl).
        apply evaluate_list_inv in Hr as (? & [= <-] & Hr).
        rewrite evaluate_list_unfold.
        rewrite (traverse_app _ _ _ _ _
                   (traverse_mono _ (evaluate (S n') variables') _ _
                      (fun a b => evaluate_mono variables' n' (S n') a b
                                    ltac:(lia)) Hl)
                   (traverse_mono _ (evaluate (S n') variables') _ _
                      (fun a b => evaluate_mono variables' n' (S n') a b
                                    ltac:(lia)) Hr)).
        done.
    + injection H as <-. exact Hop.
  - by injection H as <-.
Qed.

(** X1: a value the evaluator returned evaluates to itself, in the same
    scope and in every other: evaluation is idempotent. *)
Theorem evaluate_idempotent (variables variables' : gmap string Expression)
    (expr v : Expression) :
  evaluates_to variables expr v → evaluates_to variables' v v.
Proof. intros [n Hn]. exists n. by eapply evaluate_stable. Qed.

Lemma evaluate_idempotent_witness :
  evaluates_to ∅ (ListExpr [StringExpr "-O2"; StringExpr "-Wall"])
    (ListExpr [StringExpr "-O2"; StringExpr "-Wall"]).
Proof.
  apply (evaluate_idempotent
           {["base" := ListExpr [StringExpr "-O2"]]} ∅
           (OperatorExpr (VariableRef "base") "+" (ListExpr [StringExpr "-Wall"]))).
  exists 5. vm_compute. reflexivity.
Defined.

(** X2: what the evaluator returns has no variable reference outside
    select expressions, whatever the scope binds. *)
Theorem evaluate_leaves_no_reference (n : nat)
    (variables : gmap string Expression) (expr v : Expression) (x : string) :
  evaluate n variables expr = Ok v → ¬ refers false x v.
Proof.
  revert expr v. induction n as [|n IH]; intros expr v; [done|].
  destruct expr; intros H Href; cbn [evaluate] in H.
  - injection H as <-. inversion Href.
  - injection H as <-. inversion Href.
  - injection H as <-. inversion Href.
  - destruct (traverse _ values) as [vs|] eqn:Hvs; [|done].
    injection H as <-. apply traverse_Forall2 in Hvs.
    inversion Href as [| | |? w Hin Hw| |]; subst.
    apply list_elem_of_lookup in Hin as [i Hi].
    destruct (Forall2_lookup_r _ _ _ _ _ Hvs Hi) as (a & _ & Ha).
    by eapply IH.
  - revert H.
    match goal with
    | |- bind (traverse ?f ?l) _ = _ → _ =>
        destruct (traverse f l) as [ps|] eqn:Hps; [|done]
    end.
    intros [= <-]. apply traverse_Forall2 in Hps.
    inversion Href as [| | | |? p Hin Hp|]; subst.
    apply list_elem_of_lookup in Hin as [i Hi].
    destruct (Forall2_lookup_r _ _ _ _ _ Hps Hi) as (a & _ & Ha).
    simpl in Ha.
    destruct (evaluate n variables (prop_value a)) as [w|] eqn:Hw; [|done].
    injection Ha as <-. by eapply IH.
  - destruct (variables !! name) as [bound|]; [|done]. by eapply IH.
  - destruct (evaluate n variables expr1) as [lv|] eqn:Hl; [|done].
    destruct (evaluate n variables expr2) as [rv|] eqn:Hr; [|done].
    cbn [bind] in H.
    assert (¬ refers false x (OperatorExpr lv op rv)) as Hop.
    { intros Hop. inversion Hop; subst;
        [by eapply (IH _ _ Hl)|by eapply (IH _ _ Hr)]. }
    destruct (decide (op = "+")) as [->|Hop'].
    + destruct lv, rv; try (injection H as <-; by apply Hop).
      * injection H as <-. inversion Href.
      * injection H as <-.
        inversion Href as [| | |? w Hin Hw| |]; subst.
        apply elem_of_app in Hin as [Hin|Hin].
        -- eapply (IH _ _ Hl). by eapply refers_list.
        -- eapply (IH _ _ Hr). by eapply refers_list.
    + injection H as <-. by apply Hop.
  - injection H as <-. inversion Href. done.
Qed.

Lemma evaluate_leaves_no_reference_witness :
  ¬ refers false "base"
      (ListExpr [StringExpr "-O2"; StringExpr "-Wall"]).
Proof.
  apply (evaluate_leaves_no_reference 5
           {["base" := ListExpr [StringExpr "-O2"]]}
           (OperatorExpr (VariableRef "base") "+" (ListExpr [StringExpr "-Wall"]))).
  vm_compute. reflexivity.
Defined.

(** X3: [evaluate_module] returns exactly when every property value
    evaluates, and then the module has the same type and the same
    property names in the same order, each with its evaluated value. *)
Theorem evaluate_module_shape (n : nat) (variables : gmap string Expression)
    (m m' : BpModule) :
  evaluate_module n variables m = Ok m' ↔
  type m' = type m ∧
  Forall2 (fun p p' =>
             prop_name p' = prop_name p ∧
             evaluate n variables (prop_value p) = Ok (prop_value p'))
          (properties m) (properties m').
Proof.
  unfold evaluate_module.
  match goal with
  | |- bind (traverse ?f ?l) _ = _ ↔ _ =>
      assert (∀ ps, traverse f l = Ok ps ↔
                Forall2 (fun p p' =>
                           prop_name p' = prop_name p ∧
                           evaluate n variables (prop_value p) = Ok (prop_value p'))
                        l ps) as Hiff
  end.
  { intros ps. rewrite traverse_Forall2.
    assert (∀ p p',
              bind (evaluate n variables (prop_value p))
                (fun v => Ok (mkProperty (prop_name p) v)) = Ok p' ↔
              prop_name p' = prop_name p ∧
              evaluate n variables (prop_value p) = Ok (prop_value p')) as Hone.
    { intros p p'.
      destruct (evaluate n variables (prop_value p)) as [w|]; cbn [bind].
      - destruct p' as [k w']. cbn [prop_name prop_value].
        split; [by intros [= <- <-]|]. by intros [-> [= ->]].
      - split; [done|]. by intros [_ ?]. }
    split; intros Hall; eapply Forall2_impl; try exact Hall;
      intros p p'; apply Hone. }
  destruct (traverse _ (properties m)) as [ps|]; cbn [bind].
  - split.
    + intros [= <-]. split; [done|]. by apply Hiff.
    + intros [Hty Hall]. apply Hiff in Hall as [= ->].
      destruct m' as [t ps']. cbn [type] in Hty. by subst t.
  - split; [done|]. intros [_ Hall]. by apply Hiff in Hall.
Qed.

(** X4: [add_file_variables] binds every name the file assigns and
    leaves the binding of every other name as it was. *)
Theorem add_file_variables_binds (variables : gmap string Expression)
    (file : File) (x : string) :
  (x ∈ assigned_names file →
   is_Some (add_file_variables variables file !! x)) ∧
  (x ∉ assigned_names file →
   add_file_variables variables file !! x = variables !! x).
Proof.
  unfold add_file_variables, assigned_names.
  match goal with |- context [omap ?g _] => set (f := g) end.
  revert variables.
  induction (defs file) as [|d ds IH]; intros variables.
  - split; [|done]. intros Hin. by apply elem_of_nil in Hin.
  - cbn [fold_left omap]. destruct d as [a|m].
    + assert (∀ vars, add_assignment vars (DefAssignment a) !! assign_name a ≠ None
                      ∧ ∀ y, y ≠ assign_name a →
                          add_assignment vars (DefAssignment a) !! y = vars !! y)
        as Hstep.
      { intros vars. unfold add_assignment.
        destruct (decide (assigner a = "+=")); [destruct (vars !! assign_name a)|];
          (split; [by rewrite lookup_insert_eq|
                   intros y Hy; by rewrite lookup_insert_ne]). }
      destruct (IH (add_assignment variables (DefAssignment a))) as [IHin IHout].
      destruct (Hstep variables) as [Hbound Hframe].
      split.
      * intros Hin. destruct (decide (x ∈ omap f ds)) as [|Hnot]; [by apply IHin|].
        apply elem_of_cons in Hin as [->|]; [|done].
        rewrite IHout by done. by apply not_eq_None_Some.
      * intros Hnot. apply not_elem_of_cons in Hnot as [Hne Hnot].
        rewrite IHout by done. by apply Hframe.
    + apply IH.
Qed.

Lemma add_file_variables_binds_witness :
  is_Some (add_file_variables ∅ file_G !! "base").
Proof.
  apply (proj1 (add_file_variables_binds ∅ file_G "base")).
  unfold assigned_names. cbn. apply elem_of_cons. by left.
Defined.

(** ** The defaults resolver: the registry *)

Lemma register_one_ok (registry : gmap string BpModule) (module : BpModule) :
  registry_ok registry → registry_ok (register_one registry module).
Proof.
  intros Hok. unfold register_one.
  destruct (decide (type module = "cc_defaults")) as [Hty|]; [|done].
  destruct (module_name module) as [name|] eqn:Hname; [|done].
  destruct (decide (name = "")) as [|Hne]; [done|].
  intros k m. destruct (decide (name = k)) as [->|Hk].
  - rewrite lookup_insert_eq. by intros [= <-].
  - rewrite lookup_insert_ne by done. apply Hok.
Qed.

(** X5: [register_defaults] keeps every module of the registry stored
    under its own non-empty name and of type [cc_defaults], and the new
    registry has a name exactly when the old one had it or a named
    [cc_defaults] module of the list carries it. *)
Theorem register_defaults_ok (self : DefaultsResolver) (modules : list BpModule) :
  registry_ok (defaults_registry self) →
  registry_ok (defaults_registry (register_defaults self modules)) ∧
  ∀ k, is_Some (defaults_registry (register_defaults self modules) !! k) ↔
       is_Some (defaults_registry self !! k) ∨
       ∃ m, m ∈ modules ∧ type m = "cc_defaults" ∧
            module_name m = Some k ∧ k ≠ "".
Proof.
  unfold register_defaults. cbn [defaults_registry].
  generalize (defaults_registry self). clear self.
  induction modules as [|m modules IH]; intros registry Hok.
  - split; [done|]. intros k. split; [by left|].
    intros [|(m & Hin & _)]; [done|]. by apply elem_of_nil in Hin.
  - cbn [fold_left].
    destruct (IH _ (register_one_ok registry m Hok)) as [Hok' Hdom].
    split; [done|]. intros k. rewrite Hdom. clear IH Hdom Hok'.
    unfold register_one.
    destruct (decide (type m = "cc_defaults")) as [Hty|Hty];
      [destruct (module_name m) as [name|] eqn:Hname;
       [destruct (decide (name = "")) as [Hempty|Hne]|]|].
    + split.
      * intros [|(m' & Hin & H)]; [by left|]. right. exists m'.
        split; [by apply elem_of_cons; right|done].
      * intros [|(m' & Hin & H1 & H2 & H3)]; [by left|]. right. exists m'.
        split; [|done]. apply elem_of_cons in Hin as [->|]; [|done]. congruence.
    + split.
      * intros [Hins|(m' & Hin & H)].
        -- destruct (decide (name = k)) as [<-|Hk].
           ++ right. exists m. split; [apply elem_of_cons; by left|done].
           ++ left. by rewrite lookup_insert_ne in Hins.
        -- right. exists m'. split; [by apply elem_of_cons; right|done].
      * intros [Hold|(m' & Hin & H1 & H2 & H3)].
        -- left. destruct (decide (name = k)) as [<-|Hk].
           ++ by rewrite lookup_insert_eq.
           ++ by rewrite lookup_insert_ne.
        -- apply elem_of_cons in Hin as [->|Hin].
           ++ left. assert (name = k) as -> by congruence.
              by rewrite lookup_insert_eq.
           ++ right. by exists m'.
    + split.
      * intros [|(m' & Hin & H)]; [by left|]. right. exists m'.
        split; [by apply elem_of_cons; right|done].
      * intros [|(m' & Hin & H1 & H2 & H3)]; [by left|]. right. exists m'.
        split; [|done]. apply elem_of_cons in Hin as [->|]; [|done]. congruence.
    + split.
      * intros [|(m' & Hin & H)]; [by left|]. right. exists m'.
        split; [by apply elem_of_cons; right|done].
      * intros [|(m' & Hin & H1 & H2 & H3)]; [by left|]. right. exists m'.
        split; [|done]. apply elem_of_cons in Hin as [->|]; [|done]. congruence.
Qed.

Lemma register_defaults_ok_witness :
  registry_ok (registry_of [defaults_A; defaults_B]) ∧
  ∀ k, is_Some (registry_of [defaults_A; defaults_B] !! k) ↔
       is_Some ((∅ : gmap string BpModule) !! k) ∨
       ∃ m, m ∈ [defaults_A; defaults_B] ∧ type m = "cc_defaults" ∧
            module_name m = Some k ∧ k ≠ "".
Proof.
  apply (register_defaults_ok (mkDefaultsResolver ∅) [defaults_A; defaults_B]).
  intros k m Hk. cbn [defaults_registry] in Hk. by rewrite lookup_empty in Hk.
Defined.

(** ** The defaults resolver: what is collected *)

Lemma collected_refl (registry : gmap string BpModule) (st : collect_state) :
  collected registry st st.
Proof.
  split; [done|]. exists [], []. split; [by rewrite app_nil_r|].
  split; [apply NoDup_nil_2|]. split; [|constructor].
  intros k. split; [intros H; by apply elem_of_nil in H|]. by intros (? & ? & _).
Qed.

Lemma collected_trans (registry : gmap string BpModule)
    (st1 st2 st3 : collect_state) :
  collected registry st1 st2 → collected registry st2 st3 →
  collected registry st1 st3.
Proof.
  intros [Hsub1 (ks1 & new1 & Hr1 & Hnd1 & Hks1 & Hall1)]
         [Hsub2 (ks2 & new2 & Hr2 & Hnd2 & Hks2 & Hall2)].
  split; [set_solver|]. exists (ks1 ++ ks2), (new1 ++ new2).
  split; [by rewrite Hr2, Hr1, app_assoc|].
  split; [|split; [|by apply Forall2_app]].
  - apply NoDup_app. split; [done|]. split; [|done].
    intros k Hk1 Hk2. apply Hks1 in Hk1. apply Hks2 in Hk2. tauto.
  - intros k. rewrite elem_of_app, Hks1, Hks2.
    destruct (decide (k ∈ st2.2)); set_solver.
Qed.

Lemma collect_collected (registry : gmap string BpModule) (fuel : nat)
    (x : string) (st st' : collect_state) :
  _collect_defaults fuel registry x st = Some st' → collected registry st st'.
Proof.
  revert x st st'. induction fuel as [|fuel IH]; intros x st st'; [done|].
  rewrite collect_unfold. destruct (decide (x ∈ st.2)) as [|Hx].
  { intros [= <-]. apply collected_refl. }
  destruct (registry !! x) as [X|] eqn:Hreg.
  - destruct (collect_all fuel registry (nested_names X) (st.1, {[x]} ∪ st.2))
      as [st1|] eqn:Hall; [|done].
    intros [= <-].
    apply (collect_all_lift registry (collected registry) fuel) in Hall;
      [|apply collected_refl|apply collected_trans|apply IH].
    destruct Hall as [Hsub (ks & new & Hr & Hnd & Hks & Hall)].
    cbn [fst snd] in *.
    split; [set_solver|]. exists (ks ++ [x]), (new ++ [X]). cbn [fst snd].
    split; [by rewrite Hr, app_assoc|].
    split; [|split].
    + apply NoDup_app. split; [done|]. split; [|apply NoDup_singleton].
      intros k Hk1 Hk2. apply list_elem_of_singleton in Hk2 as ->.
      apply Hks in Hk1. set_solver.
    + intros k. rewrite elem_of_app, list_elem_of_singleton, Hks.
      destruct (decide (k = x)) as [->|]; [|set_solver].
      split; [|by right]. intros _. split; [set_solver|]. by rewrite Hreg.
    + apply Forall2_app; [done|]. by constructor.
  - intros [= <-]. split; [set_solver|]. exists [], []. cbn [fst snd].
    split; [by rewrite app_nil_r|]. split; [apply NoDup_nil_2|].
    split; [|constructor].
    intros k. split; [intros H; by apply elem_of_nil in H|].
    intros (Hk & Hnk & Hsome).
    assert (k = x) as -> by set_solver. rewrite Hreg in Hsome. by destruct Hsome.
Qed.

(** X6: the loop that collects the defaults of a module visits every
    name it is given, and the chain it returns has one module for each
    visited registered name, the module registered under it: never more
    modules than the registry has. *)
Theorem collect_all_chain (registry : gmap string BpModule) (fuel : nat)
    (names : list string) (all_defaults : list BpModule) (visited : gset string) :
  collect_all fuel registry names ([], ∅) = Some (all_defaults, visited) →
  (∀ n, n ∈ names → n ∈ visited) ∧
  length all_defaults ≤ size registry ∧
  ∃ ks,
    NoDup ks ∧
    (∀ k, k ∈ ks ↔ k ∈ visited ∧ is_Some (registry !! k)) ∧
    Forall2 (fun k m => registry !! k = Some m) ks all_defaults.
Proof.
  intros Hall. split; [|].
  { clear -Hall. revert Hall. generalize (@nil BpModule, ∅ : gset string).
    induction names as [|y names IH]; intros st Hall n Hn.
    - by apply elem_of_nil in Hn.
    - rewrite collect_all_cons in Hall.
      destruct (_collect_defaults fuel registry y st) as [s|] eqn:Hy; [|done].
      apply elem_of_cons in Hn as [->|Hn]; [|by eapply IH].
      apply collect_visits in Hy. apply collect_all_visited_grows in Hall.
      set_solver. }
  apply (collect_all_lift registry (collected registry) fuel) in Hall;
    [|apply collected_refl|apply collected_trans|intros x; apply collect_collected].
  destruct Hall as [_ (ks & new & Hr & Hnd & Hks & Hall)]. cbn [fst snd] in *.
  cbn [app] in Hr. subst all_defaults.
  assert (∀ k, k ∈ ks ↔ k ∈ visited ∧ is_Some (registry !! k)) as Hks'.
  { intros k. rewrite Hks. set_solver. }
  split; [|by exists ks].
  rewrite <- (Forall2_length _ _ _ Hall), <- size_dom.
  rewrite <- (size_list_to_set (C := gset string) ks) by done.
  apply subseteq_size. intros k Hk. apply elem_of_list_to_set, Hks' in Hk.
  apply elem_of_dom. tauto.
Qed.

Lemma collect_all_chain_witness :
  (∀ n, n ∈ ["A"] → n ∈ ({["B"]} ∪ ({["A"]} ∪ ∅) : gset string)) ∧
  length [cycle_B; cycle_A] ≤ size (registry_of [cycle_A; cycle_B]) ∧
  ∃ ks,
    NoDup ks ∧
    (∀ k, k ∈ ks ↔
          k ∈ ({["B"]} ∪ ({["A"]} ∪ ∅) : gset string) ∧
          is_Some (registry_of [cycle_A; cycle_B] !! k)) ∧
    Forall2 (fun k m => registry_of [cycle_A; cycle_B] !! k = Some m) ks
      [cycle_B; cycle_A].
Proof.
  apply (collect_all_chain (registry_of [cycle_A; cycle_B]) 3 ["A"]).
  vm_compute. reflexivity.
Defined.

(** ** The defaults resolver: edge cases *)

(** X7: a module whose [defaults] property is absent, is not a list or
    lists no string is returned as it is. *)
Theorem resolve_without_defaults (self : DefaultsResolver) (module : BpModule) :
  nested_names module = [] → resolve self module = Some module.
Proof.
  unfold nested_names, resolve, resolve_with.
  destruct (module_get module "defaults") as [defaults_prop|]; [|done].
  by intros ->.
Qed.

Lemma resolve_without_defaults_witness :
  resolve (mkDefaultsResolver (registry_of [defaults_A])) scenario_S6
  = Some scenario_S6.
Proof.
  apply (resolve_without_defaults (mkDefaultsResolver (registry_of [defaults_A]))
           scenario_S6).
  reflexivity.
Defined.

Lemma dict_set_fresh {V : Type} (d : list (string * V)) (k : string) (v : V) :
  k ∉ dict_keys d → dict_set d k v = d ++ [(k, v)].
Proof.
  unfold dict_keys. induction d as [|[k' v'] d IH]; [done|].
  csimpl. rewrite not_elem_of_cons. intros [Hne Hnot].
  rewrite decide_False by done. by rewrite IH.
Qed.

(** Merging properties of new, different names appends them. *)
Lemma merge_fresh (d : list (string * Expression)) (props : list Property) :
  NoDup (prop_name <$> props) →
  (∀ p, p ∈ props → prop_name p ∉ dict_keys d) →
  _merge_properties d props =
  d ++ ((fun p => (prop_name p, prop_value p)) <$>
        filter (fun p => prop_name p ≠ "name" ∧ prop_name p ≠ "defaults") props).
Proof.
  unfold _merge_properties. revert d.
  induction props as [|p props IH]; intros d Hnd Hnew.
  - by rewrite app_nil_r.
  - rewrite fmap_cons in Hnd. apply NoDup_cons in Hnd as [Hp Hnd].
    cbn [fold_left]. rewrite filter_cons. unfold merge_property at 2.
    destruct (decide (prop_name p = "name" ∨ prop_name p = "defaults")) as [Hskip|Hkeep].
    + rewrite decide_False by tauto. apply IH; [done|].
      intros q Hq. apply Hnew, elem_of_cons. by right.
    + rewrite decide_True by tauto.
      assert (prop_name p ∉ dict_keys d) as Hfresh
        by (apply Hnew, elem_of_cons; by left).
      rewrite (proj2 (dict_get_None d (prop_name p)) Hfresh).
      rewrite dict_set_fresh by done.
      rewrite IH; [by rewrite fmap_cons, <- app_assoc|done|].
      intros q Hq. unfold dict_keys. rewrite fmap_app, elem_of_app.
      intros [Hin|Hin].
      * apply (Hnew q); [apply elem_of_cons; by right|done].
      * csimpl in Hin. apply list_elem_of_singleton in Hin.
        apply Hp. rewrite <- Hin. by apply list_elem_of_fmap_2.
Qed.

Lemma items_of_props (props : list Property) :
  items_to_props ((fun p => (prop_name p, prop_value p)) <$> props) = props.
Proof.
  unfold items_to_props. induction props as [|[k v] props IH]; [done|].
  csimpl. by f_equal.
Qed.

Lemma collect_all_unregistered (registry : gmap string BpModule) (fuel : nat)
    (names : list string) (st : collect_state) :
  (∀ n, n ∈ names → registry !! n = None) →
  ∃ visited, collect_all (S fuel) registry names st = Some (st.1, visited).
Proof.
  revert st. induction names as [|y names IH]; intros st Hnone.
  - exists st.2. by destruct st.
  - rewrite collect_all_cons, collect_unfold.
    assert (∀ n, n ∈ names → registry !! n = None) as Hrest
      by (intros n Hn; apply Hnone, elem_of_cons; by right).
    destruct (decide (y ∈ st.2)); [by apply IH|].
    rewrite (Hnone y) by (apply elem_of_cons; by left).
    apply (IH (st.1, {[y]} ∪ st.2) Hrest).
Qed.

(** X8: when none of the names a module inherits is registered, and
    the module repeats no property name, [resolve] returns the module's
    own properties: [name] first, then the others without [defaults],
    in source order. *)
Theorem resolve_unknown_defaults (registry : gmap string BpModule)
    (module : BpModule) :
  nested_names module ≠ [] →
  (∀ n, n ∈ nested_names module → registry !! n = None) →
  NoDup (prop_name <$> properties module) →
  resolve (mkDefaultsResolver registry) module =
  Some (mkModule (type module) (own_properties module)).
Proof.
  unfold nested_names, resolve, resolve_with. cbn [defaults_registry].
  destruct (module_get module "defaults") as [defaults_prop|]; [|done].
  destruct (extract_string_list defaults_prop) as [|y names]; [done|].
  intros _ Hnone Hnd. unfold collect_fuel.
  destruct (collect_all_unregistered registry (size registry) (y :: names)
              ([], ∅) Hnone) as [visited ->].
  cbn [fst]. f_equal. f_equal.
  pose proof (merge_all_ok [] module) as Hok.
  unfold own_properties, finish_props.
  rewrite bool_decide_eq_false_2.
  2:{ rewrite Exists_exists. intros (p & Hp & Hpn).
      destruct Hok as (_ & Hname & _). apply Hname.
      rewrite <- items_to_props_names, <- Hpn. by apply list_elem_of_fmap_2. }
  assert (items_to_props (merge_all [] module) =
          filter (fun p => prop_name p ≠ "name" ∧ prop_name p ≠ "defaults")
                 (properties module)) as ->.
  { unfold merge_all. cbn [fold_left]. rewrite merge_without_defaults.
    rewrite merge_fresh; [|done|intros p _; apply not_elem_of_nil].
    apply items_of_props. }
  by destruct (module_get module "name").
Qed.

Lemma resolve_unknown_defaults_witness :
  resolve (mkDefaultsResolver ∅) (inherits "A" "B") =
  Some (mkModule "cc_library_static"
          [mkProperty "name" (StringExpr "m");
           mkProperty "cflags" (ListExpr [StringExpr "-m"])]).
Proof.
  apply (resolve_unknown_defaults ∅ (inherits "A" "B")).
  - discriminate.
  - intros n _. apply lookup_empty.
  - cbn. repeat (apply NoDup_cons; split;
                 [rewrite ?elem_of_cons, ?elem_of_nil; intros H;
                  repeat destruct H as [H|H]; try discriminate H; done|]).
    apply NoDup_nil_2.
Defined.

(** ** The defaults resolver: precedence *)

Lemma merge_values_scalar (base v : Expression) :
  is_scalar v = true → _merge_values base v = v.
Proof. destruct v; try done; by destruct base. Qed.

Lemma merge_all_once (all_defaults : list BpModule) (module : BpModule)
    (P : string) (v : Expression) :
  P ≠ "name" → P ≠ "defaults" → binds_once module P v →
  dict_get (merge_all all_defaults module) P =
  Some match
         dict_get
           (fold_left (fun merged defaults_module =>
                         _merge_properties merged (properties defaults_module))
                      all_defaults []) P
       with
       | Some existing => _merge_values existing v
       | None => v
       end.
Proof.
  intros Hname Hdef [Hget Hlen]. unfold merge_all.
  rewrite merge_without_defaults. by apply merge_once.
Qed.

(** X9: a property the module binds once to a value that is neither a
    List nor a Map keeps that value in the resolved module, whatever the
    defaults bind it to. *)
Theorem resolve_module_scalar_wins (registry : gmap string BpModule)
    (module : BpModule) (P : string) (v : Expression) :
  binds_once module P v → is_scalar v = true → P ≠ "defaults" →
  ∃ resolved,
    resolve (mkDefaultsResolver registry) module = Some resolved ∧
    module_get resolved P = Some v.
Proof.
  intros Hbinds Hscalar Hdef.
  destruct (resolve_returns registry module) as [resolved Hres].
  specialize (Hres _ (le_n _)). exists resolved. split; [done|].
  revert Hres. unfold resolve_with.
  destruct (module_get module "defaults") as [defaults_prop|];
    [|intros [= <-]; apply Hbinds].
  destruct (extract_string_list defaults_prop) as [|y names];
    [intros [= <-]; apply Hbinds|].
  destruct (collect_all _ _ _ _) as [[all visited]|]; [|done].
  intros [= <-]. unfold module_get. cbn [properties].
  destruct (decide (P = "name")) as [->|Hname].
  - pose proof (merge_all_ok all module) as Hok.
    rewrite (finish_props_names module _ v Hok (proj1 Hbinds)). reflexivity.
  - rewrite finish_props_get by done.
    rewrite (merge_all_once all module P v) by done.
    destruct (dict_get _ P); by rewrite ?merge_values_scalar.
Qed.

Lemma resolve_module_scalar_wins_witness :
  ∃ resolved,
    resolve (mkDefaultsResolver
               (registry_of
                  [mkModule "cc_defaults"
                     [mkProperty "name" (StringExpr "A");
                      mkProperty "stl" (StringExpr "libc++")]]))
      (mkModule "cc_library"
         [mkProperty "name" (StringExpr "m");
          mkProperty "defaults" (ListExpr [StringExpr "A"]);
          mkProperty "stl" (StringExpr "none")]) = Some resolved ∧
    module_get resolved "stl" = Some (StringExpr "none").
Proof.
  apply resolve_module_scalar_wins.
  - split; reflexivity.
  - reflexivity.
  - discriminate.
Defined.

(** X10: a default's own default is merged before it: for a module
    that inherits [b], where [b] inherits [a], a List property bound
    once by each resolves to the values of [a], then [b], then the
    module. *)
Theorem resolve_chain (registry : gmap string BpModule) (module : BpModule)
    (a b : string) (A B : BpModule) (P : string) (va vb vm : list Expression) :
  nested_names module = [b] →
  registry !! b = Some B → nested_names B = [a] →
  registry !! a = Some A → nested_names A = [] →
  a ≠ b →
  P ≠ "name" → P ≠ "defaults" →
  binds_once A P (ListExpr va) →
  binds_once B P (ListExpr vb) →
  binds_once module P (ListExpr vm) →
  ∃ resolved,
    resolve (mkDefaultsResolver registry) module = Some resolved ∧
    module_get resolved P = Some (ListExpr (va ++ vb ++ vm)).
Proof.
  intros Hm HB HnB HA HnA Hab Hname Hdef [HgA HlA] [HgB HlB] Hbm.
  assert (collect_all 2 registry [b] ([], ∅) = Some ([A; B], {[a]} ∪ ({[b]} ∪ ∅)))
    as Hchain.
  { rewrite collect_all_cons, collect_unfold.
    rewrite decide_False by apply not_elem_of_empty.
    rewrite HB, HnB. cbn [fst snd].
    rewrite collect_all_cons.
    rewrite (collect_leaf 0 registry a A) by (try done; cbn; set_solver).
    reflexivity. }
  assert (2 ≤ collect_fuel registry) as Hfuel.
  { unfold collect_fuel.
    assert (size registry ≠ 0); [|lia].
    intros Hsize. apply map_size_empty_iff in Hsize.
    by rewrite Hsize, lookup_empty in HB. }
  apply (collect_all_mono registry 2 (collect_fuel registry)) in Hchain; [|done].
  unfold resolve, resolve_with. cbn [defaults_registry].
  unfold nested_names in Hm.
  destruct (module_get module "defaults") as [defaults_prop|]; [|done].
  rewrite Hm, Hchain. eexists. split; [done|].
  unfold module_get. cbn [properties].
  rewrite finish_props_get by done.
  rewrite (merge_all_once _ module P (ListExpr vm)) by done.
  cbn [fold_left].
  rewrite (merge_once _ _ P (ListExpr vb)) by done.
  rewrite (merge_once _ _ P (ListExpr va)) by done.
  cbn. by rewrite app_assoc.
Qed.

Lemma resolve_chain_witness :
  ∃ resolved,
    resolve (mkDefaultsResolver
               (registry_of
                  [defaults_A;
                   mkModule "cc_defaults"
                     [mkProperty "name" (StringExpr "B");
                      mkProperty "defaults" (ListExpr [StringExpr "A"]);
                      mkProperty "cflags" (ListExpr [StringExpr "-b"])]]))
      (mkModule "cc_library_static"
         [mkProperty "name" (StringExpr "m");
          mkProperty "defaults" (ListExpr [StringExpr "B"]);
          mkProperty "srcs" (ListExpr [StringExpr "x.c"]);
          mkProperty "cflags" (ListExpr [StringExpr "-c"])]) = Some resolved ∧
    module_get resolved "cflags" =
    Some (ListExpr ([StringExpr "-a"] ++ [StringExpr "-b"] ++ [StringExpr "-c"])).
Proof.
  apply (resolve_chain _ _ "A" "B" defaults_A
           (mkModule "cc_defaults"
              [mkProperty "name" (StringExpr "B");
               mkProperty "defaults" (ListExpr [StringExpr "A"]);
               mkProperty "cflags" (ListExpr [StringExpr "-b"])])
           "cflags").
  - reflexivity.
  - vm_compute. reflexivity.
  - reflexivity.
  - vm_compute. reflexivity.
  - reflexivity.
  - discriminate.
  - discriminate.
  - discriminate.
  - split; reflexivity.
  - split; reflexivity.
  - split; reflexivity.
Defined.

(** ** The defaults resolver: merging maps *)

Lemma merge_values_map (bp op : list Property) :
  _merge_values (MapExpr bp) (MapExpr op) =
  MapExpr (items_to_props (fold_left merge_entry op (props_to_dict bp))).
Proof.
  cbn [_merge_values]. do 2 f_equal.
  generalize (props_to_dict bp).
  induction op as [|[name value] op IH]; intros d; [done|].
  cbn [fold_left]. rewrite <- IH. reflexivity.
Qed.

Lemma merge_entry_NoDup (op : list Property) (d : list (string * Expression)) :
  NoDup (dict_keys d) → NoDup (dict_keys (fold_left merge_entry op d)).
Proof.
  revert d. induction op as [|p op IH]; intros d Hd; [done|].
  cbn [fold_left]. apply IH. unfold merge_entry.
  destruct (dict_get d (prop_name p)); by apply dict_set_NoDup.
Qed.

Lemma props_to_dict_NoDup (props : list Property) :
  NoDup (dict_keys (props_to_dict props)).
Proof.
  unfold props_to_dict.
  assert (NoDup (dict_keys (@nil (string * Expression)))) as Hnil
    by apply NoDup_nil_2.
  revert Hnil. generalize (@nil (string * Expression)).
  induction props as [|p props IH]; intros d Hd; [done|].
  cbn [fold_left]. apply IH. by apply dict_set_NoDup.
Qed.

(** The dictionary of a property list without repeated names has the
    bindings of the list. *)
Lemma props_to_dict_get (props : list Property) (k : string) :
  NoDup (prop_name <$> props) →
  dict_get (props_to_dict props) k = props_get props k.
Proof.
  unfold props_to_dict.
  enough (∀ d, NoDup (prop_name <$> props) →
               dict_get (fold_left (fun d p => dict_set d (prop_name p) (prop_value p))
                                   props d) k =
               match props_get props k with
               | Some v => Some v
               | None => dict_get d k
               end) as Hgen.
  { intros Hnd. rewrite Hgen by done. by destruct (props_get props k). }
  induction props as [|p props IH]; intros d Hnd; [done|].
  rewrite fmap_cons in Hnd. apply NoDup_cons in Hnd as [Hp Hnd].
  cbn [fold_left props_get]. rewrite IH by done.
  destruct (decide (prop_name p = k)) as [<-|Hne].
  - assert (props_get props (prop_name p) = None) as ->.
    { destruct (props_get props (prop_name p)) eqn:Hget; [|done].
      exfalso. apply Hp. clear -Hget.
      induction props as [|q props IH]; [done|]. cbn [props_get] in Hget.
      rewrite fmap_cons. apply elem_of_cons.
      destruct (decide (prop_name q = prop_name p)); [by left|right; by apply IH]. }
    apply dict_get_set_eq.
  - destruct (props_get props k); [done|]. by apply dict_get_set_ne.
Qed.

Lemma props_get_None (props : list Property) (k : string) :
  props_get props k = None ↔ k ∉ prop_name <$> props.
Proof.
  induction props as [|p props IH]; cbn [props_get].
  - split; [intros _; apply not_elem_of_nil|done].
  - rewrite fmap_cons, not_elem_of_cons.
    destruct (decide (prop_name p = k)) as [->|Hne].
    + split; [done|]. by intros [? _].
    + rewrite IH. split; [by split|by intros [_ ?]].
Qed.

(** The loop over the overlay, key by key. *)
Lemma merge_entry_get (op : list Property) (d : list (string * Expression))
    (k : string) :
  NoDup (prop_name <$> op) →
  dict_get (fold_left merge_entry op d) k =
  match props_get op k with
  | Some b => Some match dict_get d k with
                   | Some a => _merge_values a b
                   | None => b
                   end
  | None => dict_get d k
  end.
Proof.
  revert d. induction op as [|p op IH]; intros d Hnd; [done|].
  rewrite fmap_cons in Hnd. apply NoDup_cons in Hnd as [Hp Hnd].
  cbn [fold_left props_get]. rewrite IH by done.
  destruct (decide (prop_name p = k)) as [<-|Hne].
  - rewrite (proj2 (props_get_None op (prop_name p)) Hp).
    unfold merge_entry. destruct (dict_get d (prop_name p)); apply dict_get_set_eq.
  - assert (dict_get (merge_entry d p) k = dict_get d k) as ->; [|done].
    unfold merge_entry. destruct (dict_get d (prop_name p)); by apply dict_get_set_ne.
Qed.

(** X11: merging two maps without repeated names gives a map without
    repeated names that binds every key as the per-key rule says: the
    merge of both values where both maps bind it, and else the value of
    the map that binds it. *)
Theorem merge_values_maps (bp op : list Property) :
  NoDup (prop_name <$> bp) → NoDup (prop_name <$> op) →
  ∃ ps,
    _merge_values (MapExpr bp) (MapExpr op) = MapExpr ps ∧
    NoDup (prop_name <$> ps) ∧
    ∀ k, props_get ps k =
         match props_get bp k, props_get op k with
         | Some a, Some b => Some (_merge_values a b)
         | Some a, None => Some a
         | None, Some b => Some b
         | None, None => None
         end.
Proof.
  intros Hbp Hop. rewrite merge_values_map. eexists. split; [done|]. split.
  - rewrite items_to_props_names. apply merge_entry_NoDup, props_to_dict_NoDup.
  - intros k. rewrite items_to_props_get, merge_entry_get by done.
    rewrite props_to_dict_get by done.
    by destruct (props_get op k), (props_get bp k).
Qed.

Lemma merge_values_maps_witness :
  ∃ ps,
    _merge_values
      (MapExpr [mkProperty "arm" (MapExpr [mkProperty "cflags"
                                             (ListExpr [StringExpr "-marm"])])])
      (MapExpr [mkProperty "x86" (MapExpr [mkProperty "cflags"
                                             (ListExpr [StringExpr "-msse"])])])
    = MapExpr ps ∧
    NoDup (prop_name <$> ps) ∧
    ∀ k, props_get ps k =
         match props_get [mkProperty "arm" (MapExpr [mkProperty "cflags"
                                             (ListExpr [StringExpr "-marm"])])] k,
               props_get [mkProperty "x86" (MapExpr [mkProperty "cflags"
                                             (ListExpr [StringExpr "-msse"])])] k
         with
         | Some a, Some b => Some (_merge_values a b)
         | Some a, None => Some a
         | None, Some b => Some b
         | None, None => None
         end.
Proof.
  apply merge_values_maps; csimpl; apply NoDup_singleton.
Defined.

(** X12: merging any two maps gives a map that binds no name twice,
    and binds exactly the names of the two maps. *)
Theorem merge_values_map_names (bp op : list Property) :
  ∃ ps,
    _merge_values (MapExpr bp) (MapExpr op) = MapExpr ps ∧
    NoDup (prop_name <$> ps) ∧
    ∀ k, k ∈ prop_name <$> ps ↔ k ∈ prop_name <$> bp ∨ k ∈ prop_name <$> op.
Proof.
  rewrite merge_values_map. eexists. split; [done|].
  rewrite items_to_props_names. split.
  - apply merge_entry_NoDup, props_to_dict_NoDup.
  - intros k.
    assert (∀ props d,
              k ∈ dict_keys (fold_left (fun d p => dict_set d (prop_name p)
                                                    (prop_value p)) props d) ↔
              k ∈ dict_keys d ∨ k ∈ prop_name <$> props) as Hbase.
    { induction props as [|p props IH]; intros d.
      - cbn [fold_left]. rewrite fmap_nil, elem_of_nil. tauto.
      - cbn [fold_left]. rewrite IH, dict_set_keys_elem, fmap_cons, elem_of_cons.
        tauto. }
    assert (∀ d, k ∈ dict_keys (fold_left merge_entry op d) ↔
                 k ∈ dict_keys d ∨ k ∈ prop_name <$> op) as Hover.
    { induction op as [|p op IH]; intros d.
      - cbn [fold_left]. rewrite fmap_nil, elem_of_nil. tauto.
      - cbn [fold_left]. rewrite IH, fmap_cons, elem_of_cons.
        assert (k ∈ dict_keys (merge_entry d p) ↔ k = prop_name p ∨ k ∈ dict_keys d)
          as ->; [|tauto].
        unfold merge_entry. destruct (dict_get d (prop_name p));
          apply dict_set_keys_elem. }
    rewrite Hover. unfold props_to_dict. rewrite Hbase.
    unfold dict_keys at 1. rewrite fmap_nil, elem_of_nil. tauto.
Qed.

(** * Further properties: the module handlers and the converter *)

(** ** Module handlers: dispatch *)

Lemma find_None {A : Type} (f : A → bool) (l : list A) :
  List.find f l = None ↔ Forall (fun x => f x = false) l.
Proof.
  induction l as [|x l IH]; cbn [List.find].
  - split; [constructor|done].
  - destruct (f x) eqn:Hfx.
    + split; [done|]. intros H. apply Forall_cons in H as [? _]. congruence.
    + rewrite IH. split; [by constructor|]. intros H. by apply Forall_cons in H as [_ ?].
Qed.

Lemma find_Some_holds {A : Type} (f : A → bool) (l : list A) (x : A) :
  List.find f l = Some x → f x = true ∧ x ∈ l.
Proof.
  induction l as [|y l IH]; cbn [List.find]; [done|].
  destruct (f y) eqn:Hfy.
  - intros [= <-]. split; [done|]. apply elem_of_cons. by left.
  - intros H. destruct (IH H). split; [done|]. apply elem_of_cons. by right.
Qed.

(** X13: [get_handler] finds no handler exactly for the types that
    [supported_types] does not list, and a handler it finds lists the
    type among its [MODULE_TYPES]. *)
Theorem get_handler_supported (module_type : string) :
  (get_handler module_type = None ↔ module_type ∉ supported_types) ∧
  ∀ handler, get_handler module_type = Some handler →
             module_type ∈ MODULE_TYPES handler.
Proof.
  split.
  - unfold get_handler. rewrite find_None.
    unfold supported_types, _HANDLERS. cbn [fold_left app].
    rewrite !Forall_cons, Forall_nil. unfold can_handle.
    rewrite !bool_decide_eq_false, !not_elem_of_app. tauto.
  - intros handler Hfind. apply find_Some_holds in Hfind as [Hcan _].
    by apply bool_decide_eq_true in Hcan.
Qed.

(** ** Module handlers: what is emitted *)

(** X14: no handler emits an element for a module without a name: one
    with no String [name] property, or with the empty name. *)
Theorem convert_unnamed (handler : ModuleHandler) (module : BpModule)
    (target_arch source_dir : string) :
  module_name module = None ∨ module_name module = Some "" →
  convert handler module target_arch source_dir = None.
Proof.
  intros Hname.
  destruct handler; cbn [convert]; try reflexivity;
    unfold convert_cc, convert_prebuilt_etc;
    destruct Hname as [-> | ->]; reflexivity.
Qed.

Lemma convert_unnamed_witness :
  convert CcBinaryHandler
    (mkModule "cc_binary" [mkProperty "srcs" (ListExpr [StringExpr "m.c"])])
    "x86_64" "" = None.
Proof.
  apply convert_unnamed. by left.
Defined.

(** X15: the [prebuilt_etc] handler emits an element exactly for a
    module with a non-empty name and a non-empty String [src]; the
    element is an [import] of that source to [/etc], named after the
    module, with neither [depends] nor [variables]. *)
Theorem convert_prebuilt_etc_spec (module : BpModule)
    (target_arch source_dir : string) (el : Element) :
  convert PrebuiltEtcHandler module target_arch source_dir = Some el ↔
  ∃ name src,
    module_name module = Some name ∧ name ≠ "" ∧
    module_get module "src" = Some (StringExpr src) ∧ src ≠ "" ∧
    el = mkElement (name +:+ ".bst")
           (mkContent "import" None (Some (local_sources source_dir)) None
              (Some [("source", src); ("target", "/etc")])).
Proof.
  cbn [convert]. unfold convert_prebuilt_etc. split.
  - destruct (module_name module) as [name|]; [|done].
    destruct (decide (name = "")); [done|].
    destruct (module_get module "src") as [[src| | | | | | |]|]; try done.
    destruct (decide (src = "")); [done|].
    intros [= <-]. by exists name, src.
  - intros (name & src & -> & Hname & -> & Hsrc & ->).
    by rewrite !decide_False.
Qed.

Lemma set_build_type_Some (build_type : string) (result : option Element)
    (el : Element) :
  set_build_type build_type result = Some el →
  ∃ el0, result = Some el0 ∧
    filename el = filename el0 ∧
    kind (content el) = kind (content el0) ∧
    depends (content el) = depends (content el0) ∧
    sources (content el) = sources (content el0) ∧
    config (content el) = config (content el0) ∧
    variables (content el) =
      (fun vars => dict_set vars "build-type" build_type) <$> variables (content el0).
Proof.
  destruct result as [el0|]; [|done]. intros [= <-]. exists el0.
  cbn. by destruct (variables (content el0)).
Qed.

(** The variables of the element [convert_cc] builds, key by key. *)
Lemma convert_cc_variables (build_type name_key : string) (module : BpModule)
    (target_arch source_dir : string) (el : Element) :
  name_key = "lib-name" ∨ name_key = "binary-name" →
  convert_cc build_type name_key module target_arch source_dir = Some el →
  ∃ name vars,
    module_name module = Some name ∧ name ≠ "" ∧
    filename el = name +:+ ".bst" ∧
    kind (content el) = "aosp_cc" ∧
    sources (content el) = Some (local_sources source_dir) ∧
    config (content el) = None ∧
    variables (content el) = Some vars ∧
    dict_get vars "build-type" = Some build_type ∧
    dict_get vars name_key = Some name ∧
    dict_get vars "src-files"
      = Some (str_join " " (_get_srcs module target_arch)) ∧
    dict_get vars "extra-cflags"
      = match _get_cflags module target_arch with
        | [] => None
        | cflags => Some (str_join " " cflags)
        end ∧
    dict_get vars "include-flags"
      = match _get_include_dirs module ++ _get_export_include_dirs module with
        | [] => None
        | all => Some (str_join " " (map (fun d => "-I" +:+ d) (sorted_set all)))
        end.
Proof.
  intros Hkey. unfold convert_cc.
  destruct (module_name module) as [name|]; [|done].
  destruct (decide (name = "")) as [|Hname]; [done|].
  intros [= <-]. exists name. eexists. split; [done|]. split; [done|].
  cbn [filename content kind sources config variables].
  do 5 (split; [reflexivity|]).
  destruct (_get_cflags module target_arch) as [|flag cflags];
    destruct (_get_include_dirs module ++ _get_export_include_dirs module)
      as [|d dirs];
    destruct Hkey as [-> | ->];
    rewrite ?dict_get_set_eq, ?dict_get_set_ne by done; done.
Qed.

(** X16: the element emitted for a module of one of the five cc types is
    an [aosp_cc] element named after the module. Its [build-type] is
    [static] for [cc_library_static], [binary] for the two binary types
    and [shared] for the others; the name is stored under [binary-name]
    for binaries and [lib-name] for libraries; [src-files] joins the
    common and the architecture's sources, and [extra-cflags] is present
    exactly when there is a flag. *)
Theorem convert_cc_element (module : BpModule) (handler : ModuleHandler)
    (target_arch source_dir : string) (el : Element) :
  type module ∈ cc_types →
  get_handler (type module) = Some handler →
  convert handler module target_arch source_dir = Some el →
  ∃ name vars,
    module_name module = Some name ∧ name ≠ "" ∧
    filename el = name +:+ ".bst" ∧
    kind (content el) = "aosp_cc" ∧
    sources (content el) = Some (local_sources source_dir) ∧
    config (content el) = None ∧
    variables (content el) = Some vars ∧
    dict_get vars "build-type" = Some (build_type_of (type module)) ∧
    dict_get vars (name_key_of (type module)) = Some name ∧
    dict_get vars "src-files"
      = Some (str_join " " (_get_srcs module target_arch)) ∧
    dict_get vars "extra-cflags"
      = match _get_cflags module target_arch with
        | [] => None
        | cflags => Some (str_join " " cflags)
        end.
Proof.
  intros Hty. unfold cc_types in Hty. rewrite !elem_of_cons, elem_of_nil in Hty.
  destruct Hty as [Hty|[Hty|[Hty|[Hty|[Hty|[]]]]]]; rewrite Hty;
    intros [= <-]; cbn [convert]; intros Hel;
    match goal with
    | |- context [build_type_of ?t] =>
        let b := eval vm_compute in (build_type_of t) in
        let k := eval vm_compute in (name_key_of t) in
        change (build_type_of t) with b; change (name_key_of t) with k
    end.
  - apply convert_cc_variables in Hel
      as (name & vars & ? & ? & ? & ? & ? & ? & ? & ? & ? & ? & ? & _);
      [|by left].
    by exists name, vars.
  - apply set_build_type_Some in Hel
      as (el0 & Hel0 & Hfile & Hkind & _ & Hsrc & Hconf & Hvars).
    apply convert_cc_variables in Hel0
      as (name & vars & ? & ? & ? & ? & ? & ? & Hv & ? & ? & ? & ? & _);
      [|by left].
    rewrite Hv in Hvars. exists name, (dict_set vars "build-type" "shared").
    rewrite Hfile, Hkind, Hsrc, Hconf, Hvars.
    rewrite dict_get_set_eq, !dict_get_set_ne by done. done.
  - apply set_build_type_Some in Hel
      as (el0 & Hel0 & Hfile & Hkind & _ & Hsrc & Hconf & Hvars).
    apply convert_cc_variables in Hel0
      as (name & vars & ? & ? & ? & ? & ? & ? & Hv & ? & ? & ? & ? & _);
      [|by left].
    rewrite Hv in Hvars. exists name, (dict_set vars "build-type" "shared").
    rewrite Hfile, Hkind, Hsrc, Hconf, Hvars.
    rewrite dict_get_set_eq, !dict_get_set_ne by done. done.
  - apply convert_cc_variables in Hel
      as (name & vars & ? & ? & ? & ? & ? & ? & ? & ? & ? & ? & ? & _);
      [|by right].
    by exists name, vars.
  - apply convert_cc_variables in Hel
      as (name & vars & ? & ? & ? & ? & ? & ? & ? & ? & ? & ? & ? & _);
      [|by right].
    by exists name, vars.
Qed.

Lemma convert_cc_element_witness :
  ∃ name vars,
    module_name include_module = Some name ∧ name ≠ "" ∧
    filename include_element = name +:+ ".bst" ∧
    kind (content include_element) = "aosp_cc" ∧
    sources (content include_element) = Some (local_sources "") ∧
    config (content include_element) = None ∧
    variables (content include_element) = Some vars ∧
    dict_get vars "build-type" = Some (build_type_of (type include_module)) ∧
    dict_get vars (name_key_of (type include_module)) = Some name ∧
    dict_get vars "src-files"
      = Some (str_join " " (_get_srcs include_module "x86_64")) ∧
    dict_get vars "extra-cflags"
      = match _get_cflags include_module "x86_64" with
        | [] => None
        | cflags => Some (str_join " " cflags)
        end.
Proof.
  apply (convert_cc_element include_module CcLibraryHandler "x86_64" "").
  - vm_compute. set_solver.
  - reflexivity.
  - reflexivity.
Defined.

(** ** [sorted(set(...))] *)

Lemma str_lt_irrefl (s : string) : ¬ str_lt s s.
Proof.
  unfold str_lt. intros H. pose proof (String.compare_antisym s s) as Ha.
  rewrite H in Ha. discriminate.
Qed.

Lemma ascii_compare_Lt (a b : ascii) :
  Ascii.compare a b = Lt ↔ (N_of_ascii a < N_of_ascii b)%N.
Proof. unfold Ascii.compare. apply N.compare_lt_iff. Qed.

Lemma str_lt_trans (a b c : string) : str_lt a b → str_lt b c → str_lt a c.
Proof.
  unfold str_lt. revert b c.
  induction a as [|x a IH]; intros [|y b] [|z c]; cbn [String.compare]; try done.
  destruct (Ascii.compare x y) eqn:Hxy; [| |done].
  - apply Ascii.compare_eq_iff in Hxy as ->.
    destruct (Ascii.compare y z); [|done..]. apply IH.
  - intros _. destruct (Ascii.compare y z) eqn:Hyz; [| |done].
    + apply Ascii.compare_eq_iff in Hyz as <-. by rewrite Hxy.
    + intros _. apply ascii_compare_Lt in Hxy, Hyz.
      assert (Ascii.compare x z = Lt) as ->; [|done].
      apply ascii_compare_Lt. by eapply N.lt_trans.
Qed.

Lemma sorted_insert_elem (s x : string) (l : list string) :
  x ∈ sorted_insert s l ↔ x = s ∨ x ∈ l.
Proof.
  induction l as [|y l IH]; cbn [sorted_insert].
  - rewrite list_elem_of_singleton, elem_of_nil. tauto.
  - destruct (String.compare s y) eqn:Hsy.
    + apply String.compare_eq_iff in Hsy as ->. rewrite elem_of_cons. tauto.
    + rewrite elem_of_cons. tauto.
    + rewrite !elem_of_cons, IH. tauto.
Qed.

Lemma sorted_insert_sorted (s : string) (l : list string) :
  StronglySorted str_lt l → StronglySorted str_lt (sorted_insert s l).
Proof.
  induction 1 as [|y l Hsorted IH Hall]; cbn [sorted_insert].
  - repeat constructor.
  - destruct (String.compare s y) eqn:Hsy.
    + by constructor.
    + constructor; [by constructor|]. constructor; [done|].
      eapply Forall_impl; [exact Hall|]. intros z Hyz.
      by apply (str_lt_trans s y z).
    + constructor; [done|]. apply Forall_forall. intros z Hz.
      apply sorted_insert_elem in Hz as [->|Hz].
      * unfold str_lt. rewrite String.compare_antisym, Hsy. done.
      * by eapply Forall_forall in Hall.
Qed.

Lemma sorted_set_sorted (l : list string) : StronglySorted str_lt (sorted_set l).
Proof.
  induction l as [|s l IH]; [constructor|]. by apply sorted_insert_sorted.
Qed.

Lemma sorted_set_elem (x : string) (l : list string) :
  x ∈ sorted_set l ↔ x ∈ l.
Proof.
  induction l as [|s l IH]; [done|].
  cbn [sorted_set foldr]. fold (sorted_set l).
  rewrite sorted_insert_elem, elem_of_cons, IH. done.
Qed.

Lemma strongly_sorted_NoDup (l : list string) :
  StronglySorted str_lt l → NoDup l.
Proof.
  induction 1 as [|y l Hsorted IH Hall]; constructor; [|done].
  intros Hin. eapply Forall_forall in Hall; [|exact Hin].
  by apply str_lt_irrefl in Hall.
Qed.

(** X17: the [include-flags] of a cc element are [-I] flags for the
    directories of [local_include_dirs], [include_dirs] and
    [export_include_dirs]: each directory once, in strictly increasing
    code-point order; the variable is absent when there is none. *)
Theorem convert_include_flags (module : BpModule) (handler : ModuleHandler)
    (target_arch source_dir : string) (el : Element) :
  type module ∈ cc_types →
  get_handler (type module) = Some handler →
  convert handler module target_arch source_dir = Some el →
  ∃ vars dirs,
    variables (content el) = Some vars ∧
    dict_get vars "include-flags"
      = (if decide (dirs = []) then None
         else Some (str_join " " (map (fun d => "-I" +:+ d) dirs))) ∧
    StronglySorted str_lt dirs ∧
    NoDup dirs ∧
    ∀ d, d ∈ dirs ↔
         d ∈ string_list_prop (properties module) "local_include_dirs" ∨
         d ∈ string_list_prop (properties module) "include_dirs" ∨
         d ∈ string_list_prop (properties module) "export_include_dirs".
Proof.
  intros Hty Hhandler Hel.
  assert (∃ vars,
    variables (content el) = Some vars ∧
    dict_get vars "include-flags"
      = match _get_include_dirs module ++ _get_export_include_dirs module with
        | [] => None
        | all => Some (str_join " " (map (fun d => "-I" +:+ d) (sorted_set all)))
        end) as (vars & Hvars & Hflags).
  { unfold cc_types in Hty. rewrite !elem_of_cons, elem_of_nil in Hty.
    destruct Hty as [Hty|[Hty|[Hty|[Hty|[Hty|[]]]]]]; rewrite Hty in Hhandler;
      injection Hhandler as <-; cbn [convert] in Hel.
    - apply convert_cc_variables in Hel
        as (name & vars & _ & _ & _ & _ & _ & _ & ? & _ & _ & _ & _ & ?);
        [|by left].
      by exists vars.
    - apply set_build_type_Some in Hel as (el0 & Hel0 & _ & _ & _ & _ & _ & Hvars).
      apply convert_cc_variables in Hel0
        as (name & vars & _ & _ & _ & _ & _ & _ & Hv & _ & _ & _ & _ & ?);
        [|by left].
      rewrite Hv in Hvars. exists (dict_set vars "build-type" "shared").
      split; [done|]. by rewrite dict_get_set_ne.
    - apply set_build_type_Some in Hel as (el0 & Hel0 & _ & _ & _ & _ & _ & Hvars).
      apply convert_cc_variables in Hel0
        as (name & vars & _ & _ & _ & _ & _ & _ & Hv & _ & _ & _ & _ & ?);
        [|by left].
      rewrite Hv in Hvars. exists (dict_set vars "build-type" "shared").
      split; [done|]. by rewrite dict_get_set_ne.
    - apply convert_cc_variables in Hel
        as (name & vars & _ & _ & _ & _ & _ & _ & ? & _ & _ & _ & _ & ?);
        [|by right].
      by exists vars.
    - apply convert_cc_variables in Hel
        as (name & vars & _ & _ & _ & _ & _ & _ & ? & _ & _ & _ & _ & ?);
        [|by right].
      by exists vars. }
  exists vars,
    (sorted_set (_get_include_dirs module ++ _get_export_include_dirs module)).
  split; [done|]. split; [|split; [apply sorted_set_sorted|split]].
  - rewrite Hflags.
    destruct (_get_include_dirs module ++ _get_export_include_dirs module)
      as [|d dirs] eqn:Hdirs; [done|].
    rewrite decide_False; [done|].
    intros Hnil. assert (d ∈ sorted_set (d :: dirs)) as Hin.
    { apply sorted_set_elem, elem_of_cons. by left. }
    rewrite Hnil in Hin. by apply elem_of_nil in Hin.
  - apply strongly_sorted_NoDup, sorted_set_sorted.
  - intros d. rewrite sorted_set_elem.
    unfold _get_include_dirs, _get_export_include_dirs.
    rewrite !elem_of_app. tauto.
Qed.

Lemma convert_include_flags_witness :
  ∃ vars dirs,
    variables (content include_element) = Some vars ∧
    dict_get vars "include-flags"
      = (if decide (dirs = []) then None
         else Some (str_join " " (map (fun d => "-I" +:+ d) dirs))) ∧
    StronglySorted str_lt dirs ∧
    NoDup dirs ∧
    ∀ d, d ∈ dirs ↔
         d ∈ string_list_prop (properties include_module) "local_include_dirs" ∨
         d ∈ string_list_prop (properties include_module) "include_dirs" ∨
         d ∈ string_list_prop (properties include_module) "export_include_dirs".
Proof.
  apply (convert_include_flags include_module CcLibraryHandler "x86_64" "").
  - vm_compute. set_solver.
  - reflexivity.
  - reflexivity.
Defined.

(** ** The converter: what a file's result accounts for *)

Lemma evaluate_loop_length (limit : nat) (variables : gmap string Expression)
    (modules : list BpModule) :
  length (evaluate_loop limit variables modules ([], [])).1 +
  length (evaluate_loop limit variables modules ([], [])).2 = length modules.
Proof.
  induction modules as [|m modules IH]; [done|].
  change (m :: modules) with ([m] ++ modules).
  rewrite evaluate_loop_app. cbn [fst snd]. rewrite !length_app.
  unfold evaluate_loop at 1 3, evaluate_step. cbn [fold_left].
  destruct (evaluate_module limit variables m); cbn [fst snd app length]; lia.
Qed.

Lemma convert_step_accounts (resolver : DefaultsResolver)
    (target_arch source_dir output_prefix : string)
    (result result' : ConversionResult) (module : BpModule) :
  convert_step resolver target_arch source_dir output_prefix result module
  = Ok result' →
  accounted result' = S (accounted result).
Proof.
  unfold convert_step, accounted. destruct (get_handler (type module)).
  - destruct (resolve resolver module); [|done].
    destruct (convert _ _ _ _); intros [= <-];
      cbn [elements skipped unsupported errors]; rewrite length_app; cbn; lia.
  - intros [= <-]. cbn [elements skipped unsupported errors].
    rewrite length_app. cbn. lia.
Qed.

Lemma convert_loop_accounts (resolver : DefaultsResolver)
    (target_arch source_dir output_prefix : string) (modules : list BpModule)
    (start result : ConversionResult) :
  convert_loop resolver target_arch source_dir output_prefix modules (Ok start)
  = Ok result →
  accounted result = accounted start + length modules.
Proof.
  unfold convert_loop. revert start.
  induction modules as [|m modules IH]; intros start.
  - intros [= <-]. cbn. lia.
  - cbn [fold_left bind].
    destruct (convert_step_returns resolver target_arch source_dir output_prefix
                start m) as (r' & Hstep & _).
    rewrite Hstep. intros Hloop. apply IH in Hloop.
    apply convert_step_accounts in Hstep. cbn [length]. lia.
Qed.


(** ** The converter: what a file leaves behind *)

Lemma add_assignment_grows (variables : gmap string Expression) (d : Defn)
    (x : string) :
  is_Some (variables !! x) → is_Some (add_assignment variables d !! x).
Proof.
  intros Hx. destruct d as [a|m]; [|done]. unfold add_assignment.
  destruct (decide (assigner a = "+=")); [destruct (variables !! assign_name a)|];
    (destruct (decide (assign_name a = x)) as [->|];
     [by rewrite lookup_insert_eq|by rewrite lookup_insert_ne]).
Qed.

Lemma add_file_variables_grows (variables : gmap string Expression) (file : File)
    (x : string) :
  is_Some (variables !! x) → is_Some (add_file_variables variables file !! x).
Proof.
  unfold add_file_variables. revert variables.
  induction (defs file) as [|d ds IH]; intros variables Hx; [done|].
  cbn [fold_left]. by apply IH, add_assignment_grows.
Qed.

Lemma register_one_grows (registry : gmap string BpModule) (module : BpModule)
    (k : string) :
  is_Some (registry !! k) → is_Some (register_one registry module !! k).
Proof.
  intros Hk. unfold register_one.
  destruct (decide (type module = "cc_defaults")); [|done].
  destruct (module_name module) as [name|]; [|done].
  destruct (decide (name = "")); [done|].
  destruct (decide (name = k)) as [->|];
    [by rewrite lookup_insert_eq|by rewrite lookup_insert_ne].
Qed.

Lemma register_defaults_grows (self : DefaultsResolver) (modules : list BpModule)
    (k : string) :
  is_Some (defaults_registry self !! k) →
  is_Some (defaults_registry (register_defaults self modules) !! k).
Proof.
  unfold register_defaults. cbn [defaults_registry].
  generalize (defaults_registry self).
  induction modules as [|m modules IH]; intros registry Hk; [done|].
  cbn [fold_left]. by apply IH, register_one_grows.
Qed.

(** X19: [convert_file] keeps the converter's [target_arch] and
    [aosp_root], and the state it carries to the next file only grows: a
    variable that was bound is still bound, a registered defaults name is
    still registered. *)
Theorem convert_file_keeps (recursion_limit : nat) (self : Converter)
    (bp_path : string) (parsed : parse_outcome) (source_dir output_prefix : string) :
  ∃ c r,
    convert_file recursion_limit self bp_path parsed source_dir output_prefix
    = Ok (c, r) ∧
    target_arch c = target_arch self ∧
    aosp_root c = aosp_root self ∧
    (∀ x, is_Some (ev_variables (evaluator self) !! x) →
          is_Some (ev_variables (evaluator c) !! x)) ∧
    (∀ k, is_Some (defaults_registry (defaults_resolver self) !! k) →
          is_Some (defaults_registry (defaults_resolver c) !! k)).
Proof.
  destruct parsed as [e|file]; [by eexists _, _|].
  unfold convert_file.
  match goal with
  | |- context [convert_loop ?res ?ta ?sd ?pre ?ms (Ok ?start)] =>
      destruct (convert_loop_returns res ta sd pre ms start) as (r & -> & _)
  end.
  eexists _, r. split; [done|].
  cbn [bind target_arch aosp_root evaluator ev_variables defaults_resolver].
  split; [done|]. split; [done|]. split.
  - intros x. apply add_file_variables_grows.
  - intros k. apply register_defaults_grows.
Qed.

(** ** The converter: the elements of a result *)

Lemma convert_named (handler : ModuleHandler) (module : BpModule)
    (target_arch source_dir : string) (el : Element) :
  convert handler module target_arch source_dir = Some el →
  (kind (content el) = "aosp_cc" ∨ kind (content el) = "import") ∧
  sources (content el) = Some (local_sources source_dir) ∧
  ∃ name, module_name module = Some name ∧ name ≠ "" ∧
          filename el = name +:+ ".bst".
Proof.
  assert (∀ bt nk el0, convert_cc bt nk module target_arch source_dir = Some el0 →
            kind (content el0) = "aosp_cc" ∧
            sources (content el0) = Some (local_sources source_dir) ∧
            ∃ name, module_name module = Some name ∧ name ≠ "" ∧
                    filename el0 = name +:+ ".bst") as Hcc.
  { intros bt nk el0. unfold convert_cc.
    destruct (module_name module) as [name|]; [|done].
    destruct (decide (name = "")); [done|]. intros [= <-].
    split; [done|]. split; [done|]. by exists name. }
  destruct handler; cbn [convert]; try done; intros Hel.
  - apply Hcc in Hel as (? & ? & ?). split; [by left|done].
  - apply set_build_type_Some in Hel as (el0 & Hel0 & -> & -> & _ & -> & _).
    apply Hcc in Hel0 as (? & ? & ?). split; [by left|done].
  - apply set_build_type_Some in Hel as (el0 & Hel0 & -> & -> & _ & -> & _).
    apply Hcc in Hel0 as (? & ? & ?). split; [by left|done].
  - apply Hcc in Hel as (? & ? & ?). split; [by left|done].
  - revert Hel. unfold convert_prebuilt_etc.
    destruct (module_name module) as [name|]; [|done].
    destruct (decide (name = "")); [done|].
    destruct (module_get module "src") as [[src| | | | | | |]|]; try done.
    destruct (decide (src = "")); [done|]. intros [= <-].
    split; [by right|]. split; [done|]. by exists name.
Qed.

Lemma convert_loop_elements (resolver : DefaultsResolver)
    (target_arch source_dir output_prefix : string) (modules : list BpModule)
    (start result : ConversionResult) :
  Forall (element_ok source_dir output_prefix) (elements start) →
  convert_loop resolver target_arch source_dir output_prefix modules (Ok start)
  = Ok result →
  Forall (element_ok source_dir output_prefix) (elements result).
Proof.
  unfold convert_loop. revert start.
  induction modules as [|m modules IH]; intros start Hstart.
  - by intros [= <-].
  - cbn [fold_left bind].
    destruct (convert_step resolver target_arch source_dir output_prefix start m)
      as [r'|e] eqn:Hstep.
    + apply IH. revert Hstep. unfold convert_step.
      destruct (get_handler (type m)) as [handler|]; [|by intros [= <-]].
      destruct (resolve resolver m) as [resolved|]; [|done].
      destruct (convert handler resolved target_arch source_dir) as [el|] eqn:Hel;
        intros [= <-]; [|done].
      cbn [elements]. apply Forall_app. split; [done|]. apply Forall_singleton.
      apply convert_named in Hel as (Hkind & Hsrc & name & _ & Hname & Hfile).
      unfold element_ok, prefixed.
      destruct (decide (output_prefix = "")); cbn [content filename];
        (split; [done|]); (split; [done|]); exists name; by rewrite Hfile.
    + intros Hloop. exfalso. clear -Hloop.
      induction modules as [|m' modules IH]; [done|]. by apply IH.
Qed.

(** X20: every element of a result is an [aosp_cc] or an [import]
    element whose sources are those of the file's directory and whose
    file name is [<name>.bst] for a non-empty module name, behind the
    output prefix when there is one. *)
Theorem convert_file_elements (recursion_limit : nat) (self : Converter)
    (bp_path : string) (parsed : parse_outcome) (source_dir output_prefix : string) :
  ∃ c r,
    convert_file recursion_limit self bp_path parsed source_dir output_prefix
    = Ok (c, r) ∧
    Forall (element_ok source_dir output_prefix) (elements r).
Proof.
  destruct parsed as [e|file]; [by eexists _, _|].
  unfold convert_file.
  match goal with
  | |- context [convert_loop ?res ?ta ?sd ?pre ?ms (Ok ?start)] =>
      destruct (convert_loop_returns res ta sd pre ms start) as (r & Hloop & _);
      rewrite Hloop; apply convert_loop_elements in Hloop; [|done]
  end.
  by eexists _, r.
Qed.

(** * Further properties: the serializer *)

(** ** The serializer: variables *)

Lemma str_contains_app (c : ascii) (a b : string) :
  str_contains c (a +:+ b) = str_contains c a || str_contains c b.
Proof.
  induction a as [|x a IH]; [done|].
  change (String x a +:+ b) with (String x (a +:+ b)). cbn [str_contains].
  destruct (decide (x = c)); [reflexivity|apply IH].
Qed.

Lemma str_split_lines_cons (s : string) :
  ∃ first others, str_split_lines s = first :: others.
Proof.
  destruct s as [|c s]; [by eexists _, _|]. cbn [str_split_lines].
  destruct (decide (c = newline)); [by eexists _, _|].
  destruct (str_split_lines s); by eexists _, _.
Qed.

Lemma str_split_lines_join (s : string) :
  str_join (String newline "") (str_split_lines s) = s.
Proof.
  induction s as [|c s IH]; [done|]. cbn [str_split_lines].
  destruct (str_split_lines_cons s) as (first & others & Hsplit).
  rewrite Hsplit in IH |- *.
  destruct (decide (c = newline)) as [->|].
  - change (str_join (String newline "") ("" :: first :: others))
      with (String newline (str_join (String newline "") (first :: others))).
    by rewrite IH.
  - rewrite <- IH. by destruct others.
Qed.

Lemma str_split_lines_one_line (s : string) :
  Forall one_line (str_split_lines s).
Proof.
  induction s as [|c s IH]; [by repeat constructor|]. cbn [str_split_lines].
  destruct (decide (c = newline)); [by constructor|].
  destruct (str_split_lines s) as [|first others].
  { apply Forall_singleton. unfold one_line. cbn [str_contains].
    by rewrite decide_False. }
  apply Forall_cons in IH as [Hfirst Hothers]. constructor; [|done].
  unfold one_line. cbn [str_contains]. by rewrite decide_False.
Qed.

Lemma str_split_lines_length (s : string) :
  str_contains newline s = true → 2 ≤ length (str_split_lines s).
Proof.
  induction s as [|c s IH]; [done|]. cbn [str_contains str_split_lines].
  destruct (str_split_lines_cons s) as (first & others & Hsplit).
  destruct (decide (c = newline)).
  - intros _. rewrite Hsplit. cbn. lia.
  - intros Hs. apply IH in Hs. rewrite Hsplit in Hs |- *. done.
Qed.

(** X21: a variable whose value has a newline is written as a block
    scalar: the line [<key>: |], then the value's lines, each behind four
    spaces. There are at least two of them, none has a newline, and
    joined by newlines they are the value again. *)
Theorem format_variable_block (key value : string) :
  str_contains newline value = true →
  ∃ vlines,
    format_variable (key, value)
    = ("  " +:+ key +:+ ": |") :: map (fun vline => "    " +:+ vline) vlines ∧
    str_join (String newline "") vlines = value ∧
    Forall one_line vlines ∧
    2 ≤ length vlines.
Proof.
  intros Hnl. exists (str_split_lines value). unfold format_variable.
  cbn [fst snd]. rewrite Hnl.
  split; [done|]. split; [apply str_split_lines_join|].
  split; [apply str_split_lines_one_line|by apply str_split_lines_length].
Qed.

Lemma format_variable_block_witness :
  ∃ vlines,
    format_variable ("extra-cflags", String "a" (String newline "b"))
    = ("  " +:+ "extra-cflags" +:+ ": |")
      :: map (fun vline => "    " +:+ vline) vlines ∧
    str_join (String newline "") vlines = String "a" (String newline "b") ∧
    Forall one_line vlines ∧
    2 ≤ length vlines.
Proof.
  apply (format_variable_block "extra-cflags" (String "a" (String newline "b"))).
  reflexivity.
Defined.

Lemma format_variable_one_line (key value : string) :
  one_line key →
  Forall one_line (format_variable (key, value)).
Proof.
  unfold one_line. intros Hkey. unfold format_variable. cbn [fst snd].
  destruct (str_contains newline value) eqn:Hvalue.
  - constructor.
    + by rewrite !str_contains_app, Hkey.
    + apply Forall_fmap. eapply Forall_impl; [apply str_split_lines_one_line|].
      intros vline Hline. cbn. by rewrite str_contains_app, Hline.
  - destruct (str_contains_any yaml_special value); apply Forall_singleton;
      by rewrite !str_contains_app, Hkey, Hvalue.
Qed.

(** ** The serializer: the lines of the text *)

Lemma str_split_lines_single (s : string) :
  one_line s → str_split_lines s = [s].
Proof.
  unfold one_line. induction s as [|c s IH]; [done|].
  cbn [str_contains str_split_lines].
  destruct (decide (c = newline)); [done|]. intros Hs. by rewrite IH.
Qed.

Lemma str_split_lines_app (s t : string) :
  one_line s →
  str_split_lines (s +:+ String newline t) = s :: str_split_lines t.
Proof.
  unfold one_line. induction s as [|c s IH].
  - intros _. change ("" +:+ String newline t) with (String newline t).
    cbn [str_split_lines]. by rewrite decide_True.
  - change (String c s +:+ String newline t)
      with (String c (s +:+ String newline t)).
    cbn [str_contains str_split_lines].
    destruct (decide (c = newline)); [done|]. intros Hs. by rewrite IH.
Qed.

Lemma str_join_split_lines (lines : list string) :
  lines ≠ [] → Forall one_line lines →
  str_split_lines (str_join (String newline "") lines) = lines.
Proof.
  induction lines as [|s lines IH]; [done|]. intros _ Hall.
  apply Forall_cons in Hall as [Hs Hall].
  destruct lines as [|s' lines]; [by apply str_split_lines_single|].
  change (str_join (String newline "") (s :: s' :: lines))
    with (s +:+ String newline (str_join (String newline "") (s' :: lines))).
  rewrite str_split_lines_app by done. by rewrite IH.
Qed.

Lemma format_lines_one_line (element_dict : ElementContent) :
  element_one_line element_dict → Forall one_line (format_lines element_dict).
Proof.
  intros (Hkind & Hdeps & Hsrcs & Hvars & Hconf). unfold format_lines.
  repeat apply Forall_app_2.
  - repeat constructor. unfold one_line in *.
    by rewrite str_contains_app, Hkind.
  - destruct (depends element_dict) as [deps|]; [|constructor].
    repeat apply Forall_app_2; [by repeat constructor| |by repeat constructor].
    apply Forall_fmap. eapply Forall_impl; [by apply Hdeps|].
    intros dep Hdep. cbn. unfold one_line in *. by rewrite str_contains_app, Hdep.
  - destruct (sources element_dict) as [[|src srcs]|]; try constructor.
    + done.
    + apply Forall_app_2; [|by repeat constructor].
      apply Forall_concat, Forall_fmap.
      eapply Forall_impl; [by apply Hsrcs|].
      intros src' [Hk Hp]. cbn. unfold format_source, one_line in *.
      repeat constructor; by rewrite str_contains_app, ?Hk, ?Hp.
  - destruct (variables element_dict) as [vars|]; [|constructor].
    repeat apply Forall_app_2; [by repeat constructor| |by repeat constructor].
    apply Forall_concat, Forall_fmap.
    eapply Forall_impl; [by apply Hvars|].
    intros [key value] Hkey. by apply format_variable_one_line.
  - destruct (config element_dict) as [conf|]; [|constructor].
    repeat apply Forall_app_2; [by repeat constructor| |by repeat constructor].
    apply Forall_fmap. eapply Forall_impl; [by apply Hconf|].
    intros [k v] [Hk Hv]. cbn in *. unfold one_line in *.
    by rewrite !str_contains_app, Hk, Hv.
Qed.

(** X22: when the kind, the dependencies, the sources, the keys of the
    variables and the config of an element are single lines, the text
    [_format_bst] returns has exactly the lines that were appended: a
    value of a variable never breaks a line, whatever it contains. *)
Theorem format_bst_lines (element_dict : ElementContent) :
  element_one_line element_dict →
  str_split_lines (_format_bst element_dict) = format_lines element_dict.
Proof.
  intros Hok. unfold _format_bst. apply str_join_split_lines.
  - unfold format_lines. done.
  - by apply format_lines_one_line.
Qed.

Lemma format_bst_lines_witness :
  str_split_lines (_format_bst (content include_element))
  = format_lines (content include_element).
Proof.
  apply (format_bst_lines (content include_element)).
  unfold element_one_line.
  split; [reflexivity|].
  repeat split; intros ? [= <-]; repeat constructor.
Defined.

(** * Further properties: the lexer *)

(** ** The lexer: positions *)

Lemma advance1_text (self : Lexer) : text (advance1 self) = text self.
Proof.
  unfold advance1. destruct (_peek self) as [c|]; [|done].
  by destruct (decide (c = newline)).
Qed.

Lemma advance1_pos (self : Lexer) (c : ascii) :
  _peek self = Some c → pos (advance1 self) = S (pos self).
Proof.
  unfold advance1. intros ->. destruct (decide (c = newline)); cbn; lia.
Qed.

Lemma advance1_end (self : Lexer) : _peek self = None → advance1 self = self.
Proof. unfold advance1. by intros ->. Qed.

Lemma peek_Some (self : Lexer) (c : ascii) :
  _peek self = Some c → pos self < length (text self).
Proof. unfold _peek. apply lookup_lt_Some. Qed.

Lemma peek_None (self : Lexer) :
  _peek self = None ↔ length (text self) ≤ pos self.
Proof. unfold _peek. apply lookup_ge_None. Qed.

Lemma follows_refl (self : Lexer) : follows self self.
Proof. by exists 0. Qed.

Lemma follows_trans (s1 s2 s3 : Lexer) :
  follows s1 s2 → follows s2 s3 → follows s1 s3.
Proof.
  intros [k1 ->] [k2 ->]. exists (k2 + k1). unfold _advance.
  by rewrite Nat.iter_add.
Qed.

Lemma follows_advance1 (self : Lexer) : follows self (advance1 self).
Proof. by exists 1. Qed.

Lemma follows_advance (n : nat) (self : Lexer) : follows self (_advance n self).
Proof. by exists n. Qed.

Lemma advance_S (k : nat) (self : Lexer) :
  _advance (S k) self = advance1 (_advance k self).
Proof. reflexivity. Qed.

Lemma follows_text (self self' : Lexer) :
  follows self self' → text self' = text self.
Proof.
  intros [k ->]. induction k as [|k IH]; [done|].
  by rewrite advance_S, advance1_text.
Qed.

Lemma follows_pos (self self' : Lexer) :
  follows self self' → pos self ≤ pos self'.
Proof.
  intros [k ->]. induction k as [|k IH]; [done|].
  rewrite advance_S.
  destruct (_peek (_advance k self)) as [c|] eqn:Hpeek.
  - rewrite (advance1_pos _ c Hpeek). lia.
  - by rewrite advance1_end.
Qed.

Lemma newlines_app (l1 l2 : list ascii) :
  newlines (l1 ++ l2) = newlines l1 + newlines l2.
Proof. unfold newlines. by rewrite filter_app, length_app. Qed.

Lemma advance1_position_ok (self : Lexer) :
  position_ok self → position_ok (advance1 self).
Proof.
  intros Hok.
  destruct (_peek self) as [c|] eqn:Hpeek; [|by rewrite advance1_end].
  destruct Hok as (Hpos & Hline & start & Hstart & Hcol & Hbegin & Hnone).
  pose proof (peek_Some _ _ Hpeek) as Hlt.
  unfold advance1. rewrite Hpeek. unfold _peek in Hpeek.
  destruct (decide (c = newline)) as [->|Hc]; unfold position_ok;
    cbn [text pos line col].
  - split; [lia|]. split.
    + replace (pos self + 1) with (S (pos self)) by lia.
      rewrite (take_S_r _ _ _ Hpeek), newlines_app, Hline.
      unfold newlines at 3. rewrite filter_cons, decide_True by done. cbn. lia.
    + exists (pos self + 1). split; [lia|]. split; [lia|]. split.
      * right. exists (pos self). split; [lia|done].
      * intros i Hi. lia.
  - split; [lia|]. split.
    + replace (pos self + 1) with (S (pos self)) by lia.
      rewrite (take_S_r _ _ _ Hpeek), newlines_app, Hline.
      unfold newlines at 3. rewrite filter_cons, decide_False by done. cbn. lia.
    + exists start. split; [lia|]. split; [lia|]. split; [done|].
      intros i Hi. destruct (decide (i = pos self)) as [->|].
      * rewrite Hpeek. by intros [= ->].
      * apply Hnone. lia.
Qed.

Lemma follows_position_ok (self self' : Lexer) :
  follows self self' → position_ok self → position_ok self'.
Proof.
  intros [k ->] Hok. induction k as [|k IH]; [done|].
  rewrite advance_S. by apply advance1_position_ok.
Qed.

Lemma new_lexer_position_ok (s : string) : position_ok (new_lexer s).
Proof.
  unfold position_ok, new_lexer. cbn [text pos line col].
  split; [lia|]. split; [done|]. exists 0.
  split; [done|]. split; [done|]. split; [by left|]. intros i Hi. lia.
Qed.

(** Every loop of the lexer only advances. *)

Lemma skip_line_comment_follows (fuel : nat) (self : Lexer) :
  follows self (skip_line_comment fuel self).
Proof.
  revert self. induction fuel as [|fuel IH]; intros self; [apply follows_refl|].
  cbn [skip_line_comment]. destruct (_peek self) as [c|]; [|apply follows_refl].
  destruct (decide (c = newline)); [apply follows_refl|].
  eapply follows_trans; [apply follows_advance1|apply IH].
Qed.

Lemma skip_block_comment_follows (fuel : nat) (self : Lexer) :
  follows self (skip_block_comment fuel self).
Proof.
  revert self. induction fuel as [|fuel IH]; intros self; [apply follows_refl|].
  cbn [skip_block_comment]. destruct (_peek self) as [c|]; [|apply follows_refl].
  destruct (bool_decide _); [apply follows_advance|].
  eapply follows_trans; [apply follows_advance1|apply IH].
Qed.

Lemma skip_whitespace_follows (fuel : nat) (self : Lexer) :
  follows self (_skip_whitespace_and_comments fuel self).
Proof.
  revert self. induction fuel as [|fuel IH]; intros self; [apply follows_refl|].
  cbn [_skip_whitespace_and_comments].
  destruct (_peek self) as [c|]; [|apply follows_refl].
  destruct (is_space c).
  { eapply follows_trans; [apply follows_advance1|apply IH]. }
  destruct (bool_decide _).
  { eapply follows_trans; [apply skip_line_comment_follows|apply IH]. }
  destruct (bool_decide _); [|apply follows_refl].
  eapply follows_trans; [apply (follows_advance 2)|].
  eapply follows_trans; [apply skip_block_comment_follows|apply IH].
Qed.

Lemma read_string_loop_follows (fuel : nat) (self self' : Lexer)
    (result : list ascii) (value : string) :
  read_string_loop fuel self result = Ok (value, self') → follows self self'.
Proof.
  revert self result. induction fuel as [|fuel IH]; intros self result; [done|].
  cbn [read_string_loop]. destruct (_peek self) as [c|]; [|done].
  destruct (decide (c = backslash)).
  - destruct (_peek (advance1 self)).
    + intros H. apply IH in H.
      eapply follows_trans; [apply follows_advance1|].
      eapply follows_trans; [apply follows_advance1|done].
    + intros H. apply IH in H.
      eapply follows_trans; [apply follows_advance1|done].
  - destruct (decide (c = quote)).
    + intros [= _ <-]. apply follows_advance1.
    + intros H. apply IH in H.
      eapply follows_trans; [apply follows_advance1|done].
Qed.

Lemma read_ident_loop_follows (fuel : nat) (self : Lexer) :
  follows self (read_ident_loop fuel self).
Proof.
  revert self. induction fuel as [|fuel IH]; intros self; [apply follows_refl|].
  cbn [read_ident_loop]. destruct (_peek self) as [c|]; [|apply follows_refl].
  destruct (_ || _); [|apply follows_refl].
  eapply follows_trans; [apply follows_advance1|apply IH].
Qed.

Lemma read_digits_loop_follows (fuel : nat) (self : Lexer) :
  follows self (read_digits_loop fuel self).
Proof.
  revert self. induction fuel as [|fuel IH]; intros self; [apply follows_refl|].
  cbn [read_digits_loop]. destruct (_peek self) as [c|]; [|apply follows_refl].
  destruct (isdigit c); [|apply follows_refl].
  eapply follows_trans; [apply follows_advance1|apply IH].
Qed.

(** The lexer a token is read from, after the white space before it. *)
Lemma next_token_follows (self self' : Lexer) (tok : Token) :
  next_token self = Ok (tok, self') →
  ∃ at_token,
    follows self at_token ∧ follows at_token self' ∧
    tok_line tok = line at_token ∧ tok_col tok = col at_token ∧
    at_token = _skip_whitespace_and_comments (length (text self)) self.
Proof.
  unfold next_token.
  pose proof (skip_whitespace_follows (length (text self)) self) as Hskip.
  set (at_token := _skip_whitespace_and_comments (length (text self)) self) in *.
  intros Hnext. exists at_token. split; [done|].
  destruct (_peek at_token) as [c|] eqn:Hpeek.
  2: { injection Hnext as <- <-. split; [apply follows_refl|done]. }
  destruct (decide (c = quote)).
  { unfold _read_string in Hnext.
    destruct (read_string_loop _ _ _) as [[value s]|] eqn:Hread; [|done].
    injection Hnext as <- <-. apply read_string_loop_follows in Hread.
    split; [|done]. eapply follows_trans; [apply follows_advance1|done]. }
  destruct (isalpha c || bool_decide (c = "_"%char)).
  { injection Hnext as <- <-. split; [|done]. apply read_ident_loop_follows. }
  destruct (isdigit c || _).
  { unfold _read_int in Hnext. destruct (py_int _); [|done].
    injection Hnext as <- <-. split; [|done].
    eapply follows_trans; [|apply read_digits_loop_follows].
    destruct (decide (_ = _)); [apply follows_advance1|apply follows_refl]. }
  destruct (punctuation c) as [[ty s]|].
  { injection Hnext as <- <-. split; [apply follows_advance1|done]. }
  destruct (decide (c = "+"%char)).
  { destruct (decide (_ = _)); injection Hnext as <- <-; (split; [|done]).
    - apply (follows_advance 2).
    - apply follows_advance1. }
  destruct (decide (c = "="%char)); [|done].
  injection Hnext as <- <-. split; [apply follows_advance1|done].
Qed.

(** X23: [next_token] keeps the text and never moves back, and the
    positions it reports are right: from a lexer whose [line] and [col]
    are those of the character at [pos], it returns such a lexer, and
    the token carries the line and the column of a place between the
    two. *)
Theorem next_token_position (self self' : Lexer) (tok : Token) :
  position_ok self →
  next_token self = Ok (tok, self') →
  text self' = text self ∧
  position_ok self' ∧
  ∃ start,
    pos self ≤ start ≤ pos self' ∧
    position_ok (mkLexer (text self) start (tok_line tok) (tok_col tok)).
Proof.
  intros Hok Hnext.
  apply next_token_follows in Hnext
    as (at_token & Hskip & Hread & Hline & Hcol & _).
  pose proof (follows_trans _ _ _ Hskip Hread) as Hall.
  split; [by apply follows_text|]. split; [by eapply follows_position_ok|].
  exists (pos at_token). split.
  - split; by apply follows_pos.
  - rewrite Hline, Hcol, <- (follows_text _ _ Hskip).
    pose proof (follows_position_ok _ _ Hskip Hok). by destruct at_token.
Qed.

Lemma next_token_position_witness :
  text (mkLexer [" "; "{"]%char 2 1 3) = text (new_lexer " {") ∧
  position_ok (mkLexer [" "; "{"]%char 2 1 3) ∧
  ∃ start,
    pos (new_lexer " {") ≤ start ≤ pos (mkLexer [" "; "{"]%char 2 1 3) ∧
    position_ok
      (mkLexer (text (new_lexer " {")) start
         (tok_line (mkToken TOK_LBRACE (StrValue "{") 1 2))
         (tok_col (mkToken TOK_LBRACE (StrValue "{") 1 2))).
Proof.
  apply (next_token_position (new_lexer " {") (mkLexer [" "; "{"]%char 2 1 3)
           (mkToken TOK_LBRACE (StrValue "{") 1 2)).
  - apply new_lexer_position_ok.
  - reflexivity.
Defined.

(** ** The lexer: [tokenize] ends *)

Lemma follows_peek_pos (self self' : Lexer) (c : ascii) :
  _peek self = Some c → follows (advance1 self) self' → pos self < pos self'.
Proof.
  intros Hpeek Hfollows. apply follows_pos in Hfollows.
  rewrite (advance1_pos _ _ Hpeek) in Hfollows. lia.
Qed.

Lemma isalpha_isalnum (c : ascii) : isalpha c = true → isalnum c = true.
Proof. unfold isalnum. by intros ->. Qed.

(** A token that is not [EOF] takes at least one character. *)
Lemma next_token_progress (self self' : Lexer) (tok : Token) :
  next_token self = Ok (tok, self') →
  text self' = text self ∧
  match tok_type tok with
  | TOK_EOF => _peek self' = None
  | _ => pos self < pos self' ∧ pos self < length (text self)
  end.
Proof.
  intros Hnext.
  destruct (next_token_follows _ _ _ Hnext) as (at_token & Hskip & Hread & _ & _ & Hat).
  split; [apply follows_text; by eapply follows_trans|].
  pose proof (follows_pos _ _ Hskip) as Hle.
  pose proof (follows_text _ _ Hskip) as Htext.
  revert Hnext. unfold next_token. rewrite <- Hat. clear Hat.
  destruct (_peek at_token) as [c|] eqn:Hpeek.
  2: { by intros [= <- <-]. }
  pose proof (peek_Some _ _ Hpeek) as Hlt.
  pose proof Hlt as Hlt'. rewrite Htext in Hlt.
  assert (follows (advance1 at_token) self' →
          pos self < pos self' ∧ pos self < length (text self)) as Hgo.
  { intros H. apply (follows_peek_pos _ _ _ Hpeek) in H. lia. }
  destruct (decide (c = quote)).
  { unfold _read_string.
    destruct (read_string_loop _ _ _) as [[value s]|] eqn:Hstr; [|done].
    intros [= <- <-]. cbn [tok_type]. apply Hgo.
    by apply read_string_loop_follows in Hstr. }
  destruct (isalpha c || bool_decide (c = "_"%char)) eqn:Hstart.
  { intros [= <- <-]. cbn [tok_type]. apply Hgo. unfold _read_ident. cbn [snd].
    destruct (length (text at_token)) as [|fuel] eqn:Hlen; [lia|].
    cbn [read_ident_loop]. rewrite Hpeek.
    assert (isalnum c || bool_decide (c = "_"%char) = true) as ->.
    { apply orb_true_iff in Hstart as [Halpha| ->]; [|apply orb_true_r].
      by rewrite (isalpha_isalnum _ Halpha). }
    apply read_ident_loop_follows. }
  destruct (isdigit c || _) eqn:Hnum.
  { unfold _read_int. destruct (py_int _); [|done].
    intros [= <- <-]. cbn [tok_type]. apply Hgo.
    destruct (decide (_peek at_token = Some "-"%char)).
    { apply read_digits_loop_follows. }
    destruct (length (text at_token)) as [|fuel] eqn:Hlen; [lia|].
    cbn [read_digits_loop]. rewrite Hpeek.
    assert (isdigit c = true) as ->.
    { apply orb_true_iff in Hnum as [|Hminus]; [done|].
      apply andb_true_iff in Hminus as [Hminus _].
      apply bool_decide_eq_true in Hminus. congruence. }
    apply read_digits_loop_follows. }
  destruct (punctuation c) as [[ty s]|] eqn:Hpunct.
  { intros [= <- <-]. cbn [tok_type].
    assert (ty ≠ TOK_EOF) as Hty.
    { revert Hpunct. unfold punctuation.
      repeat (destruct (decide _); [by intros [= <- _]|]). done. }
    specialize (Hgo (follows_refl _)). by destruct ty. }
  destruct (decide (c = "+"%char)).
  { destruct (decide (_ = _)); intros [= <- <-]; cbn [tok_type]; apply Hgo.
    - apply follows_advance1.
    - apply follows_refl. }
  destruct (decide (c = "="%char)); [|done].
  intros [= <- <-]. cbn [tok_type]. apply Hgo, follows_refl.
Qed.

Lemma tokenize_loop_ends (fuel : nat) (self : Lexer) (tokens : list Token) :
  length (text self) - pos self < fuel →
  ∃ result,
    tokenize_loop fuel self tokens = Some result ∧
    match result with
    | Raise e => True
    | Ok (all, self') =>
        text self' = text self ∧ _peek self' = None ∧
        ∃ toks eof,
          all = tokens ++ toks ++ [eof] ∧ tok_type eof = TOK_EOF ∧
          Forall (fun t => tok_type t ≠ TOK_EOF) toks
    end ∧
    ∀ fuel', length (text self) - pos self < fuel' →
             tokenize_loop fuel' self tokens = Some result.
Proof.
  revert self tokens. induction fuel as [|fuel IH]; intros self tokens Hfuel; [lia|].
  cbn [tokenize_loop].
  destruct (next_token self) as [[tok s]|e] eqn:Hnext.
  2: { exists (Raise e). split; [done|]. split; [done|].
       intros [|fuel'] Hfuel'; [lia|]. cbn [tokenize_loop]. by rewrite Hnext. }
  destruct (next_token_progress _ _ _ Hnext) as [Htext Hstep].
  assert (tok_type tok = TOK_EOF ∨ tok_type tok ≠ TOK_EOF) as [Heof|Hne]
    by (destruct (tok_type tok); auto).
  - rewrite Heof in Hstep |- *. eexists. split; [done|]. split.
    + split; [done|]. split; [done|]. exists [], tok. by repeat split.
    + intros [|fuel'] Hfuel'; [lia|]. cbn [tokenize_loop].
      by rewrite Hnext, Heof.
  - assert (pos self < pos s ∧ pos self < length (text self)) as [Hpos Hlt].
    { by destruct (tok_type tok). }
    destruct (IH s (tokens ++ [tok])) as (result & Hloop & Hshape & Hmore).
    { rewrite Htext. lia. }
    exists result. split; [by destruct (tok_type tok)|]. split.
    + destruct result as [[all s']|]; [|done].
      destruct Hshape as (Ht & Hend & toks & eof & -> & Heof & Hall).
      split; [congruence|]. split; [done|]. exists (tok :: toks), eof.
      split; [by rewrite <- !app_assoc|]. split; [done|]. by constructor.
    + intros [|fuel'] Hfuel'; [lia|]. cbn [tokenize_loop]. rewrite Hnext.
      assert (tokenize_loop fuel' s (tokens ++ [tok]) = Some result) as <-.
      { apply Hmore. rewrite Htext. lia. }
      by destruct (tok_type tok).
Qed.

(** X24: [tokenize] ends on every text: one round more than there are
    characters left is enough, and more rounds change nothing. The
    tokens it returns end with one [EOF] token, none before it is an
    [EOF], and the lexer is left at the end of the text. *)
Theorem tokenize_ends (self : Lexer) :
  ∃ result,
    tokenize self = Some result ∧
    (∀ fuel, length (text self) - pos self < fuel →
             tokenize_loop fuel self [] = Some result) ∧
    ∀ tokens self',
      result = Ok (tokens, self') →
      text self' = text self ∧ _peek self' = None ∧
      ∃ toks eof,
        tokens = toks ++ [eof] ∧ tok_type eof = TOK_EOF ∧
        Forall (fun t => tok_type t ≠ TOK_EOF) toks.
Proof.
  destruct (tokenize_loop_ends (S (length (text self))) self [])
    as (result & Hloop & Hshape & Hmore); [lia|].
  exists result. split; [done|]. split; [done|].
  intros tokens self' ->. done.
Qed.

(** ** The lexer: what the loops stop at *)

Lemma skip_line_comment_stops (fuel : nat) (self : Lexer) :
  length (text self) - pos self ≤ fuel →
  _peek (skip_line_comment fuel self) = None ∨
  _peek (skip_line_comment fuel self) = Some newline.
Proof.
  revert self. induction fuel as [|fuel IH]; intros self Hfuel.
  - left. apply peek_None. cbn. lia.
  - cbn [skip_line_comment]. destruct (_peek self) as [c|] eqn:Hpeek; [|by left].
    destruct (decide (c = newline)) as [->|]; [by right|].
    apply IH. rewrite advance1_text, (advance1_pos _ _ Hpeek). lia.
Qed.

Lemma skip_block_comment_stops (fuel : nat) (self : Lexer) :
  length (text self) - pos self ≤ fuel →
  _peek (skip_block_comment fuel self) = None ∨
  ∃ close,
    follows self close ∧ _peek close = Some "*"%char ∧
    _peek2 close = Some "/"%char ∧
    skip_block_comment fuel self = _advance 2 close.
Proof.
  revert self. induction fuel as [|fuel IH]; intros self Hfuel.
  - left. apply peek_None. cbn. lia.
  - cbn [skip_block_comment]. destruct (_peek self) as [c|] eqn:Hpeek; [|by left].
    destruct (bool_decide _) eqn:Hclose.
    + apply bool_decide_eq_true in Hclose as [-> Hnext].
      right. exists self. split; [apply follows_refl|done].
    + destruct (IH (advance1 self)) as [Hend|(close & Hfollows & H)].
      * rewrite advance1_text, (advance1_pos _ _ Hpeek). lia.
      * by left.
      * right. exists close. split; [|done].
        eapply follows_trans; [apply follows_advance1|done].
Qed.

Lemma skip_whitespace_stops (fuel : nat) (self : Lexer) :
  length (text self) - pos self ≤ fuel →
  at_token_start (_skip_whitespace_and_comments fuel self).
Proof.
  revert self. induction fuel as [|fuel IH]; intros self Hfuel.
  - unfold at_token_start. cbn [_skip_whitespace_and_comments].
    assert (_peek self = None) as ->; [|done]. apply peek_None. lia.
  - cbn [_skip_whitespace_and_comments].
    destruct (_peek self) as [c|] eqn:Hpeek.
    2: { unfold at_token_start. by rewrite Hpeek. }
    pose proof (peek_Some _ _ Hpeek) as Hlt.
    destruct (is_space c) eqn:Hspace.
    { apply IH. rewrite advance1_text, (advance1_pos _ _ Hpeek). lia. }
    destruct (bool_decide (c = "/"%char ∧ _peek2 self = Some "/"%char)) eqn:Hline.
    { apply bool_decide_eq_true in Hline as [-> Hnext].
      apply IH.
      destruct (length (text self)) as [|n] eqn:Hlen; [lia|].
      cbn [skip_line_comment]. rewrite Hpeek, decide_False by done.
      pose proof (skip_line_comment_follows n (advance1 self)) as Hfollows.
      rewrite (follows_text _ _ Hfollows), advance1_text.
      apply (follows_peek_pos _ _ _ Hpeek) in Hfollows. lia. }
    destruct (bool_decide (c = "/"%char ∧ _peek2 self = Some "*"%char)) eqn:Hblock.
    { apply IH.
      pose proof (skip_block_comment_follows (length (text self)) (_advance 2 self))
        as Hfollows.
      rewrite (follows_text _ _ Hfollows), (follows_text _ _ (follows_advance 2 self)).
      assert (pos self < pos (skip_block_comment (length (text self)) (_advance 2 self)));
        [|lia].
      apply (follows_peek_pos _ _ c Hpeek).
      eapply follows_trans; [|exact Hfollows]. apply follows_advance1. }
    unfold at_token_start. rewrite Hpeek. split; [done|].
    apply bool_decide_eq_false in Hline, Hblock.
    intros [-> [Hnext|Hnext]]; [by apply Hline|by apply Hblock].
Qed.

Lemma skip_whitespace_at_start (fuel : nat) (self : Lexer) :
  at_token_start self → _skip_whitespace_and_comments fuel self = self.
Proof.
  unfold at_token_start. destruct fuel as [|fuel]; [done|].
  cbn [_skip_whitespace_and_comments]. destruct (_peek self) as [c|]; [|done].
  intros [-> Hnot].
  rewrite !bool_decide_eq_false_2; [done| |];
    intros [-> Hnext]; apply Hnot; split; auto.
Qed.

(** X25: after [_skip_whitespace_and_comments] the lexer is at the end
    of the text or at a character that is neither white space nor the
    start of a comment; the text is kept, [pos] has not moved back, and
    skipping again changes nothing. *)
Theorem skip_whitespace_and_comments_stops (self : Lexer) :
  let at_token := _skip_whitespace_and_comments (length (text self)) self in
  text at_token = text self ∧
  pos self ≤ pos at_token ∧
  at_token_start at_token ∧
  _skip_whitespace_and_comments (length (text at_token)) at_token = at_token.
Proof.
  cbn zeta.
  pose proof (skip_whitespace_follows (length (text self)) self) as Hfollows.
  split; [by apply follows_text|]. split; [by apply follows_pos|].
  assert (at_token_start (_skip_whitespace_and_comments (length (text self)) self))
    as Hstart by (apply skip_whitespace_stops; lia).
  split; [done|]. by apply skip_whitespace_at_start.
Qed.

(** X26: a block comment that is never closed is no error: it takes the
    rest of the text, and [next_token] returns [EOF]. *)
Theorem unterminated_comment_is_eof (self : Lexer) :
  _peek self = Some "/"%char →
  _peek2 self = Some "*"%char →
  (∀ i, pos self + 2 ≤ i →
        ¬ (text self !! i = Some "*"%char ∧ text self !! (i + 1) = Some "/"%char)) →
  ∃ eof self',
    next_token self = Ok (eof, self') ∧
    tok_type eof = TOK_EOF ∧ _peek self' = None.
Proof.
  intros Hpeek Hpeek2 Hopen.
  pose proof (peek_Some _ _ Hpeek) as Hlt.
  set (body := skip_block_comment (length (text self)) (_advance 2 self)).
  assert (pos (_advance 2 self) = pos self + 2) as Hpos2.
  { change (_advance 2 self) with (advance1 (advance1 self)).
    assert (_peek (advance1 self) = Some "*"%char) as Hnext.
    { unfold _peek. rewrite advance1_text, (advance1_pos _ _ Hpeek).
      by replace (S (pos self)) with (pos self + 1) by lia. }
    rewrite (advance1_pos _ _ Hnext), (advance1_pos _ _ Hpeek). lia. }
  assert (_peek body = None) as Hend.
  { destruct (skip_block_comment_stops (length (text self)) (_advance 2 self))
      as [Hnone|(close & Hfollows & Hstar & Hslash & _)]; [|done|].
    - rewrite (follows_text _ _ (follows_advance 2 self)). lia.
    - exfalso. apply (Hopen (pos close)).
      + apply follows_pos in Hfollows. lia.
      + pose proof (follows_text _ _ (follows_trans _ _ _ (follows_advance 2 self)
                                        Hfollows)) as Htext.
        unfold _peek, _peek2 in Hstar, Hslash. by rewrite <- Htext. }
  assert (_skip_whitespace_and_comments (length (text self)) self = body) as Hskip.
  { destruct (length (text self)) as [|fuel] eqn:Hlen; [lia|].
    cbn [_skip_whitespace_and_comments]. rewrite Hpeek, Hpeek2.
    change (is_space "/") with false. cbv beta iota.
    rewrite bool_decide_eq_false_2 by (by intros [_ ?]).
    rewrite bool_decide_eq_true_2 by done.
    rewrite Hlen. change (skip_block_comment (S fuel) (_advance 2 self)) with body.
    apply skip_whitespace_at_start.
    unfold at_token_start. by rewrite Hend. }
  unfold next_token. rewrite Hskip, Hend. by eexists _, _.
Qed.

Lemma unterminated_comment_is_eof_witness :
  ∃ eof self',
    next_token (new_lexer "/* x") = Ok (eof, self') ∧
    tok_type eof = TOK_EOF ∧ _peek self' = None.
Proof.
  apply (unterminated_comment_is_eof (new_lexer "/* x")).
  - reflexivity.
  - reflexivity.
  - intros i Hi [Hstar Hslash]. cbn in Hi, Hstar, Hslash.
    destruct i as [|[|[|[|i]]]]; try lia; by cbn in Hstar, Hslash.
Defined.

(** ** The lexer: identifiers *)

Section While.
Variable P : ascii → bool.
Variable loop : nat → Lexer → Lexer.
Hypothesis loop_O : ∀ self, loop 0 self = self.
Hypothesis loop_S : ∀ fuel self,
  loop (S fuel) self =
  match _peek self with
  | Some c => if P c then loop fuel (advance1 self) else self
  | None => self
  end.

(** A loop that advances while [P] holds takes the longest run of
    characters [P] holds of. *)
Lemma while_spec (fuel : nat) (self : Lexer) :
  length (text self) - pos self ≤ fuel →
  ∃ k,
    text (loop fuel self) = text self ∧
    pos (loop fuel self) = pos self + k ∧
    length (take k (drop (pos self) (text self))) = k ∧
    Forall (fun c => P c = true) (take k (drop (pos self) (text self))) ∧
    match text self !! (pos self + k) with
    | Some c => P c = false
    | None => True
    end.
Proof using loop_O loop_S.
  revert self. induction fuel as [|fuel IH]; intros self Hfuel.
  - exists 0. rewrite loop_O, Nat.add_0_r.
    split; [done|]. split; [done|]. split; [done|]. split; [constructor|].
    by rewrite (proj2 (lookup_ge_None _ _)) by lia.
  - rewrite loop_S. destruct (_peek self) as [c|] eqn:Hpeek.
    2: { exists 0. rewrite Nat.add_0_r. unfold _peek in Hpeek. rewrite Hpeek.
         split; [done|]. split; [done|]. split; [done|]. split; constructor. }
    destruct (P c) eqn:Hc.
    2: { exists 0. rewrite Nat.add_0_r. unfold _peek in Hpeek. rewrite Hpeek.
         split; [done|]. split; [done|]. split; [done|]. split; [constructor|done]. }
    pose proof (peek_Some _ _ Hpeek) as Hlt.
    destruct (IH (advance1 self)) as (k & Htext & Hpos & Hlen & Hall & Hstop).
    { rewrite advance1_text, (advance1_pos _ _ Hpeek). lia. }
    rewrite advance1_text, (advance1_pos _ _ Hpeek) in *.
    exists (S k). unfold _peek in Hpeek.
    rewrite (drop_S _ _ _ Hpeek). cbn [take length].
    split; [done|]. split; [lia|]. split; [by rewrite Hlen|].
    split; [by constructor|].
    by replace (pos self + S k) with (S (pos self) + k) by lia.
Qed.
End While.

Lemma read_ident_loop_spec (fuel : nat) (self : Lexer) :
  length (text self) - pos self ≤ fuel →
  ∃ k,
    text (read_ident_loop fuel self) = text self ∧
    pos (read_ident_loop fuel self) = pos self + k ∧
    length (take k (drop (pos self) (text self))) = k ∧
    Forall (fun c => lexer_ident_char c = true)
           (take k (drop (pos self) (text self))) ∧
    match text self !! (pos self + k) with
    | Some c => lexer_ident_char c = false
    | None => True
    end.
Proof. by apply (while_spec lexer_ident_char read_ident_loop). Qed.

Lemma read_digits_loop_spec (fuel : nat) (self : Lexer) :
  length (text self) - pos self ≤ fuel →
  ∃ k,
    text (read_digits_loop fuel self) = text self ∧
    pos (read_digits_loop fuel self) = pos self + k ∧
    length (take k (drop (pos self) (text self))) = k ∧
    Forall (fun c => isdigit c = true) (take k (drop (pos self) (text self))) ∧
    match text self !! (pos self + k) with
    | Some c => isdigit c = false
    | None => True
    end.
Proof. by apply (while_spec isdigit read_digits_loop). Qed.

Lemma ident_start_ascii (c : ascii) :
  code c < 128 → isalpha c || bool_decide (c = "_"%char) = ident_start c.
Proof. intros Hc. unfold ident_start. by rewrite (isalpha_ascii c Hc). Qed.

(** X27: an identifier token is the longest run of identifier
    characters at its place: it starts with a letter or [_], all its
    characters are letters, digits or [_], and the character after it
    is none of these. On a text of ASCII characters it is an identifier
    of the grammar [[A-Za-z_][A-Za-z0-9_]*]. *)
Theorem next_token_ident (self self' : Lexer) (tok : Token) :
  next_token self = Ok (tok, self') →
  tok_type tok = TOK_IDENT →
  ∃ start chars,
    pos self ≤ start ∧
    pos self' = start + length chars ∧
    take (length chars) (drop start (text self)) = chars ∧
    tok_value tok = StrValue (String.string_of_list_ascii chars) ∧
    match chars with
    | c :: _ => isalpha c || bool_decide (c = "_"%char) = true
    | [] => False
    end ∧
    Forall (fun c => lexer_ident_char c = true) chars ∧
    match text self !! pos self' with
    | Some c => lexer_ident_char c = false
    | None => True
    end ∧
    (Forall (fun c => code c < 128) (text self) →
     Forall (fun c => ident_char c = true) chars ∧
     match chars with
     | c :: _ => ident_start c = true
     | [] => False
     end).
Proof.
  intros Hnext Hident.
  destruct (next_token_follows _ _ _ Hnext) as (at_token & Hskip & _ & _ & _ & Hat).
  pose proof (follows_pos _ _ Hskip) as Hle.
  pose proof (follows_text _ _ Hskip) as Htext.
  revert Hnext. unfold next_token. rewrite <- Hat. clear Hat.
  destruct (_peek at_token) as [c|] eqn:Hpeek.
  2: { intros [= <- _]. done. }
  destruct (decide (c = quote)).
  { destruct (_read_string at_token) as [r|]; [|done]. intros [= <- _]. done. }
  destruct (isalpha c || bool_decide (c = "_"%char)) eqn:Hstart.
  2: { destruct (isdigit c || _).
       { destruct (_read_int at_token) as [r|]; [|done]. intros [= <- _]. done. }
       destruct (punctuation c) as [[ty s]|] eqn:Hpunct.
       { intros [= <- _]. exfalso. revert Hpunct Hident. unfold punctuation.
         repeat (destruct (decide _); [by intros [= <- _]|]). done. }
       destruct (decide (c = "+"%char)).
       { destruct (decide (_ = _)); intros [= <- _]; done. }
       destruct (decide (c = "="%char)); [|done]. intros [= <- _]. done. }
  unfold _read_ident. cbn [fst snd]. intros [= <- <-]. clear Hident.
  destruct (read_ident_loop_spec (length (text at_token)) at_token)
    as (k & Hrtext & Hrpos & Hlen & Hall & Hstop); [lia|].
  unfold slice. rewrite Hrtext, Hrpos.
  replace (pos at_token + k - pos at_token) with k by lia.
  rewrite Htext in *. set (chars := take k (drop (pos at_token) (text self))) in *.
  exists (pos at_token), chars. cbn [tok_value].
  assert (match chars with
          | c' :: _ => c' = c
          | [] => False
          end) as Hhead.
  { unfold _peek in Hpeek. rewrite Htext in Hpeek.
    destruct k as [|k].
    - rewrite Nat.add_0_r, Hpeek in Hstop.
      unfold lexer_ident_char in Hstop.
      apply orb_true_iff in Hstart as [Halpha|Hunder].
      + by rewrite (isalpha_isalnum _ Halpha) in Hstop.
      + by rewrite Hunder, orb_true_r in Hstop.
    - subst chars. by rewrite (drop_S _ _ _ Hpeek). }
  split; [done|]. split; [by rewrite Hlen|]. split; [by rewrite Hlen|].
  split; [done|]. split.
  { destruct chars as [|c' rest]; [done|]. by subst c'. }
  split; [done|]. split; [done|].
  intros Hascii.
  assert (Forall (fun c => code c < 128) chars) as Hchars.
  { subst chars. apply Forall_take, Forall_drop, Hascii. }
  split.
  - apply Forall_forall. intros x Hx.
    rewrite Forall_forall in Hall, Hchars.
    rewrite <- (isalnum_ascii x (Hchars x Hx)). by apply Hall.
  - destruct chars as [|c' rest]; [done|]. subst c'.
    apply Forall_cons in Hchars as [Hc _].
    by rewrite <- (ident_start_ascii c Hc).
Qed.

Lemma next_token_ident_witness :
  ∃ start chars,
    pos (new_lexer " ab,") ≤ start ∧
    pos (mkLexer [" "; "a"; "b"; ","]%char 3 1 4) = start + length chars ∧
    take (length chars) (drop start (text (new_lexer " ab,"))) = chars ∧
    tok_value (mkToken TOK_IDENT (StrValue "ab") 1 2)
      = StrValue (String.string_of_list_ascii chars) ∧
    match chars with
    | c :: _ => isalpha c || bool_decide (c = "_"%char) = true
    | [] => False
    end ∧
    Forall (fun c => lexer_ident_char c = true) chars ∧
    match text (new_lexer " ab,") !! pos (mkLexer [" "; "a"; "b"; ","]%char 3 1 4) with
    | Some c => lexer_ident_char c = false
    | None => True
    end ∧
    (Forall (fun c => code c < 128) (text (new_lexer " ab,")) →
     Forall (fun c => ident_char c = true) chars ∧
     match chars with
     | c :: _ => ident_start c = true
     | [] => False
     end).
Proof.
  apply (next_token_ident (new_lexer " ab,")
           (mkLexer [" "; "a"; "b"; ","]%char 3 1 4)
           (mkToken TOK_IDENT (StrValue "ab") 1 2)).
  - reflexivity.
  - reflexivity.
Defined.

(** ** The lexer: string literals *)

Lemma advance_succ_r (k : nat) (self : Lexer) :
  _advance (S k) self = _advance k (advance1 self).
Proof. unfold _advance. apply Nat.iter_succ_r. Qed.

Lemma drop_cons_inv (l : list ascii) (n : nat) (c : ascii) (tl : list ascii) :
  drop n l = c :: tl → l !! n = Some c ∧ drop (S n) l = tl.
Proof.
  intros Hdrop. split.
  - pose proof (lookup_drop l n 0) as H. by rewrite Hdrop, Nat.add_0_r in H.
  - pose proof (drop_drop l 1 n) as H. rewrite Hdrop in H.
    by replace (n + 1) with (S n) in H by lia.
Qed.

Lemma advance1_drop (self : Lexer) (c : ascii) (tl : list ascii) :
  drop (pos self) (text self) = c :: tl →
  _peek self = Some c ∧
  drop (pos (advance1 self)) (text (advance1 self)) = tl.
Proof.
  intros Hdrop. apply drop_cons_inv in Hdrop as [Hpeek Htl].
  split; [done|]. by rewrite advance1_text, (advance1_pos _ _ Hpeek).
Qed.

Lemma read_string_loop_plain (body : list ascii) (fuel : nat) (self : Lexer)
    (result rest : list ascii) :
  length body < fuel →
  Forall (fun c => c ≠ quote ∧ c ≠ backslash) body →
  drop (pos self) (text self) = body ++ quote :: rest →
  read_string_loop fuel self result
  = Ok (String.string_of_list_ascii (result ++ body),
        _advance (S (length body)) self).
Proof.
  revert fuel self result.
  induction body as [|c body IH]; intros fuel self result Hfuel Hplain Hdrop;
    (destruct fuel as [|fuel]; [cbn in Hfuel; lia|]); cbn [read_string_loop].
  - apply advance1_drop in Hdrop as [-> _].
    rewrite decide_False by done. rewrite decide_True by done.
    by rewrite app_nil_r.
  - apply Forall_cons in Hplain as [[Hq Hb] Hplain].
    apply advance1_drop in Hdrop as [-> Hdrop].
    rewrite !decide_False by done.
    rewrite (IH fuel (advance1 self) (result ++ [c])); [|cbn in Hfuel; lia|done..].
    cbn [length]. by rewrite <- app_assoc, <- advance_succ_r.
Qed.

(** X28: a string literal without a backslash reads as its content:
    at a quote, followed by characters that are neither quotes nor
    backslashes and a closing quote, [next_token] returns the STRING
    token of these characters, at the position of the opening quote, and
    leaves the lexer behind the closing quote. *)
Theorem next_token_string (self : Lexer) (body rest : list ascii) :
  drop (pos self) (text self) = quote :: body ++ quote :: rest →
  Forall (fun c => c ≠ quote ∧ c ≠ backslash) body →
  next_token self
  = Ok (mkToken TOK_STRING (StrValue (String.string_of_list_ascii body))
          (line self) (col self),
        _advance (length body + 2) self) ∧
  drop (pos (_advance (length body + 2) self)) (text self) = rest.
Proof.
  intros Hdrop Hplain.
  assert (length body + 2 ≤ length (text self)) as Hlen.
  { pose proof (f_equal length Hdrop) as H. rewrite length_drop in H.
    cbn [length] in H. rewrite length_app in H. cbn [length] in H. lia. }
  pose proof (advance1_drop _ _ _ Hdrop) as [Hpeek Hbody].
  assert (_skip_whitespace_and_comments (length (text self)) self = self) as Hskip.
  { apply skip_whitespace_at_start. unfold at_token_start. rewrite Hpeek.
    split; [done|]. by intros [? _]. }
  pose proof (read_string_loop_plain body (length (text self)) (advance1 self)
                [] rest) as Hread.
  rewrite <- advance_succ_r in Hread.
  replace (S (S (length body))) with (length body + 2) in Hread by lia.
  split.
  - unfold next_token. rewrite Hskip, Hpeek. rewrite decide_True by done.
    unfold _read_string. rewrite Hread; [done|lia|done|done].
  - replace (length body + 2) with (S (length body + 1)) by lia.
    rewrite advance_succ_r.
    clear Hread Hskip Hpeek Hdrop Hlen.
    rewrite <- (advance1_text self). revert Hbody.
    generalize (advance1 self). clear self. intros self.
    revert self. induction body as [|c body IH]; intros self Hbody.
    + cbn [length Nat.add]. change (_advance 1 self) with (advance1 self).
      apply advance1_drop in Hbody as [_ Hrest].
      by rewrite advance1_text in Hrest.
    + cbn [length Nat.add]. rewrite advance_succ_r.
      apply advance1_drop in Hbody as [_ Hbody].
      apply Forall_cons in Hplain as [_ Hplain].
      rewrite <- (advance1_text self). by apply IH.
Qed.

Lemma next_token_string_witness :
  next_token (new_lexer (String quote (String "a" (String quote ","))))
  = Ok (mkToken TOK_STRING (StrValue (String.string_of_list_ascii ["a"%char]))
          (line (new_lexer (String quote (String "a" (String quote ",")))))
          (col (new_lexer (String quote (String "a" (String quote ","))))),
        _advance (length ["a"%char] + 2)
          (new_lexer (String quote (String "a" (String quote ","))))) ∧
  drop (pos (_advance (length ["a"%char] + 2)
               (new_lexer (String quote (String "a" (String quote ","))))))
       (text (new_lexer (String quote (String "a" (String quote ",")))))
  = [","%char].
Proof.
  apply (next_token_string (new_lexer (String quote (String "a" (String quote ","))))
           ["a"%char] [","%char]).
  - reflexivity.
  - repeat constructor; done.
Defined.

(** ** The lexer: integers *)

Lemma isdigit_ascii (c : ascii) : code c < 128 → isdigit c = isdecimal c.
Proof.
  intros Hc. unfold isdigit.
  assert (∀ lo hi, 128 ≤ lo → in_range lo hi c = false) as Hhigh.
  { intros lo hi Hlo. unfold in_range.
    by rewrite (proj2 (Nat.leb_gt lo (code c))) by lia. }
  rewrite (Hhigh 178 179), (Hhigh 185 185) by lia. by rewrite !orb_false_r.
Qed.

Lemma decimal_value_Some (digits : list ascii) (acc : Z) :
  Forall (fun c => isdecimal c = true) digits →
  is_Some (decimal_value acc digits).
Proof.
  intros Hall. revert acc. induction Hall as [|c digits Hc _ IH]; intros acc.
  - by eexists.
  - cbn [decimal_value]. rewrite Hc. apply IH.
Qed.

Lemma ascii_digits (l : list ascii) :
  Forall (fun c => code c < 128) l →
  Forall (fun c => isdigit c = true) l →
  Forall (fun c => isdecimal c = true) l.
Proof.
  intros Hascii Hdigits. apply Forall_forall. intros c Hc.
  rewrite Forall_forall in Hascii, Hdigits.
  rewrite <- (isdigit_ascii c (Hascii c Hc)). by apply Hdigits.
Qed.

Lemma read_int_ascii (self : Lexer) (c : ascii) :
  Forall (fun c => code c < 128) (text self) →
  _peek self = Some c →
  isdigit c ||
    (bool_decide (c = "-"%char) &&
     match _peek2 self with Some d => isdigit d | None => false end) = true →
  ∃ r, _read_int self = Ok r.
Proof.
  intros Hascii Hpeek Hnum. unfold _read_int.
  assert (∃ v, py_int
            (slice (read_digits_loop (length (text self))
                      (if decide (_peek self = Some "-"%char)
                       then advance1 self else self))
                   (pos self)) = Ok v) as [v ->]; [|by eexists].
  unfold slice. pose proof Hpeek as Hlookup. unfold _peek in Hlookup.
  destruct (decide (_peek self = Some "-"%char)) as [Hminus|Hminus].
  - assert (c = "-"%char) as -> by congruence.
    destruct (read_digits_loop_spec (length (text self)) (advance1 self))
      as (k & Htext & Hpos & _ & Hall & _).
    { rewrite advance1_text. lia. }
    rewrite advance1_text, (advance1_pos _ _ Hpeek) in *.
    rewrite Htext, Hpos.
    replace (S (pos self) + k - pos self) with (S k) by lia.
    rewrite (drop_S _ _ _ Hlookup). cbn [take py_int].
    rewrite decide_True by done.
    destruct (decimal_value_Some (take k (drop (S (pos self)) (text self))) 0)
      as [v ->]; [|by eexists].
    apply ascii_digits; [|done]. by apply Forall_take, Forall_drop.
  - assert (isdigit c = true) as Hc.
    { apply orb_true_iff in Hnum as [|Hneg]; [done|].
      apply andb_true_iff in Hneg as [Hneg _].
      apply bool_decide_eq_true in Hneg. congruence. }
    destruct (read_digits_loop_spec (length (text self)) self)
      as (k & Htext & Hpos & _ & Hall & Hstop); [lia|].
    rewrite Htext, Hpos. replace (pos self + k - pos self) with k by lia.
    destruct k as [|k].
    { rewrite Nat.add_0_r, Hlookup in Hstop. congruence. }
    assert (Forall (fun c => isdecimal c = true)
              (take (S k) (drop (pos self) (text self)))) as Hdec.
    { apply ascii_digits; [|done]. by apply Forall_take, Forall_drop. }
    revert Hdec. rewrite (drop_S _ _ _ Hlookup). cbn [take py_int]. intros Hdec.
    rewrite decide_False by congruence.
    destruct (decimal_value_Some _ 0 Hdec) as [v ->]. by eexists.
Qed.



(** * Further properties: the parser *)

(** The lexer gives an [INT] token an [int] and every other token a
    [str]. *)
Lemma next_token_typed (self self' : Lexer) (tok : Token) :
  next_token self = Ok (tok, self') → token_typed tok.
Proof.
  unfold next_token, token_typed.
  destruct (_peek _) as [c|]; [|by intros [= <- _]].
  destruct (decide (c = quote)).
  { destruct (_read_string _) as [r|]; [|done]. by intros [= <- _]. }
  destruct (isalpha c || _); [by intros [= <- _]|].
  destruct (isdigit c || _).
  { destruct (_read_int _) as [r|]; [|done]. by intros [= <- _]. }
  destruct (punctuation c) as [[ty s]|] eqn:Hpunct.
  { intros [= <- _]. cbn. revert Hpunct. unfold punctuation.
    repeat (destruct (decide _); [by intros [= <- _]|]). done. }
  destruct (decide (c = "+"%char)).
  { destruct (decide _); by intros [= <- _]. }
  destruct (decide (c = "="%char)); [|done]. by intros [= <- _].
Qed.

Lemma tokenize_loop_typed (fuel : nat) (self self' : Lexer)
    (acc toks : list Token) :
  Forall token_typed acc →
  tokenize_loop fuel self acc = Some (Ok (toks, self')) →
  Forall token_typed toks.
Proof.
  revert self acc. induction fuel as [|fuel IH]; intros self acc Hacc; [done|].
  cbn [tokenize_loop].
  destruct (next_token self) as [[tok s]|e] eqn:Hnext; [|done].
  assert (Forall token_typed (acc ++ [tok])) as Hacc'.
  { apply Forall_app. split; [done|]. apply Forall_singleton.
    by eapply next_token_typed. }
  destruct (tok_type tok); try (by apply IH). by intros [= <- _].
Qed.

Section ParserEnds.
Import Parser.

Lemma fine_weaken {A : Type} (k k' : nat) (p : bool) (self : Parser)
    (r : option (outcome parse_exn (A * Parser))) :
  k' ≤ k → fine k p self r → fine k' false self r.
Proof.
  intros Hk. unfold fine. destruct r as [[[x self']|e]|]; [| |done].
  - intros (Ht & Hf & Hp). split; [done|]. split; [done|].
    destruct p; lia.
  - intros H He. specialize (H He). lia.
Qed.

Lemma sound_weaken {A : Type} (k k' : nat) (p : bool) (m : M A) :
  k' ≤ k → sound k p m → sound k' p m.
Proof.
  intros Hk Hm self. specialize (Hm self). unfold fine in *.
  destruct (m self) as [[[x self']|e]|]; [done| |done].
  intros He. specialize (Hm He). lia.
Qed.

Lemma sound_keep {A : Type} (k : nat) (m : M A) :
  sound k true m → sound k false m.
Proof. intros Hm self. by eapply fine_weaken. Qed.

Lemma sound_ret {A : Type} (k : nat) (x : A) : sound k false (ret x).
Proof. intros self. cbn. done. Qed.

Lemma sound_raise {A : Type} (k : nat) (p : bool) (message : parse_message)
    (line col : nat) :
  sound k p (@raise A (Parsing message line col)).
Proof. intros self. cbn. done. Qed.

Lemma sound_bind_gen {A B : Type} (k : nat) (p1 p2 : bool) (m : M A)
    (f : A → M B) :
  sound k p1 m →
  (∀ x, sound (if p1 then pred k else k) p2 (f x)) →
  sound k (p1 || p2) (bind m f).
Proof.
  intros Hm Hf self. specialize (Hm self). unfold bind, fine in *.
  destruct (m self) as [[[x s1]|e]|]; [|done|done].
  destruct Hm as (Ht & Hn & Hp). specialize (Hf x s1). unfold fine in Hf.
  destruct (f x s1) as [[[y s2]|e]|]; [| |done].
  - destruct Hf as (Ht2 & Hn2 & Hp2).
    split; [congruence|]. split; [congruence|].
    rewrite Ht in Hp2. destruct p1, p2; cbn; lia.
  - intros He. specialize (Hf He). unfold remaining in *. rewrite Ht in Hf.
    destruct p1; lia.
Qed.

(** After a method that only keeps [pos], the rest runs with the same
    tokens to read, or fewer. *)
Lemma sound_bind {A B : Type} (k : nat) (p : bool) (m : M A) (f : A → M B) :
  sound k false m → (∀ x, sound k p (f x)) → sound k p (bind m f).
Proof. intros Hm Hf. by apply (sound_bind_gen k false p). Qed.

(** After a method that reads a token, the rest has one token less to
    read. *)
Lemma sound_step {A B : Type} (k : nat) (p : bool) (m : M A) (f : A → M B) :
  sound (S k) true m → (∀ x, sound k p (f x)) → sound (S k) true (bind m f).
Proof. intros Hm Hf. by apply (sound_bind_gen (S k) true p). Qed.

Lemma sound_then {A B : Type} (k : nat) (p : bool) (m : M A) (f : A → M B) :
  sound k true m → (∀ x, sound k p (f x)) → sound k true (bind m f).
Proof.
  intros Hm Hf. apply (sound_bind_gen k true p); [done|].
  intros x. eapply sound_weaken; [|apply Hf]. lia.
Qed.

Lemma sound_peek (k : nat) : sound k false _peek.
Proof. intros self. cbn. done. Qed.

Lemma sound_advance (k : nat) : sound k false _advance.
Proof. intros self. cbn. repeat split; lia. Qed.

Lemma sound_at (k : nat) (type_ : token_type) : sound k false (_at type_).
Proof. intros self. cbn. done. Qed.

Lemma sound_match (k : nat) (type_ : token_type) : sound k false (_match type_).
Proof.
  intros self. unfold _match, bind, _at, _peek, ret. cbn.
  destruct (is_type _ _); cbn; repeat split; lia.
Qed.

(** A token that is not [EOF] is a token of the list. *)
Lemma token_at_lt (self : Parser) (i : nat) :
  tok_type (token_at self i) ≠ TOK_EOF → i < length (tokens self).
Proof.
  unfold token_at. intros Htype. apply lookup_lt_is_Some.
  by destruct (tokens self !! i).
Qed.

Lemma is_type_eof (tok : Token) (type_ : token_type) :
  is_type tok type_ = true → type_ ≠ TOK_EOF → tok_type tok ≠ TOK_EOF.
Proof. unfold is_type. by destruct (tok_type tok), type_. Qed.

Lemma sound_expect (k : nat) (type_ : token_type) :
  type_ ≠ TOK_EOF → sound k true (_expect type_).
Proof.
  intros Htype self. unfold _expect, bind, _advance. cbn.
  destruct (is_type _ _) eqn:His; cbn; [|done].
  split; [done|]. split; [done|]. split; [lia|].
  by eapply token_at_lt, is_type_eof.
Qed.

(** Advancing at a token that is not [EOF] reads a token of the list. *)
Lemma fine_advance {A : Type} (k : nat) (self : Parser) (x : A) :
  tok_type (token_at self (pos self)) ≠ TOK_EOF →
  fine k true self (bind _advance (fun _ => ret x) self).
Proof.
  intros Htype. cbn. split; [done|]. split; [done|]. split; [lia|].
  by apply token_at_lt.
Qed.

Lemma sound_while_loop {A : Type} (k : nat) (cond : M bool) (body : M A)
    (rounds : nat) (acc : list A) (self : Parser) :
  sound k false cond → sound k true body →
  remaining self < rounds →
  fine k false self (while_loop cond body rounds acc self).
Proof.
  intros Hcond Hbody. revert acc self.
  induction rounds as [|rounds IH]; intros acc self Hrounds; [lia|].
  cbn [while_loop]. unfold bind at 1.
  pose proof (Hcond self) as Hc. unfold fine in Hc.
  destruct (cond self) as [[[go_on s0]|e]|]; [|done|done].
  destruct Hc as (Ht0 & Hn0 & Hp0).
  destruct go_on.
  2: { cbn. done. }
  unfold bind. pose proof (Hbody s0) as Hb. unfold fine in Hb.
  destruct (body s0) as [[[x s1]|e]|]; [| |done].
  - destruct Hb as (Ht1 & Hn1 & Hp1 & Hlt).
    assert (remaining s1 < rounds) as Hrem.
    { unfold remaining in *. rewrite Ht1, Ht0 in *. lia. }
    specialize (IH (acc ++ [x]) s1 Hrem). unfold fine in IH |- *.
    destruct (while_loop cond body rounds (acc ++ [x]) s1) as [[[xs s2]|e]|];
      [| |done].
    + destruct IH as (Ht2 & Hn2 & Hp2).
      split; [congruence|]. split; [congruence|]. lia.
    + intros He. specialize (IH He). unfold remaining in *.
      rewrite Ht1, Ht0 in *. lia.
  - intros He. specialize (Hb He). unfold remaining in *. rewrite Ht0 in *. lia.
Qed.

Lemma sound_while {A : Type} (k : nat) (cond : M bool) (body : M A) :
  sound k false cond → sound k true body → sound k false (_while cond body).
Proof.
  intros Hcond Hbody self. unfold _while.
  apply sound_while_loop; [done..|]. unfold remaining. lia.
Qed.

Lemma sound_inside (k : nat) (closing : token_type) : sound k false (inside closing).
Proof. intros self. cbn. done. Qed.

Section Expression.
Variable k : nat.
Variable rec : M Expression.
Hypothesis sound_rec : sound k true rec.

Lemma sound_parse_property : sound (S k) true (_parse_property rec).
Proof using sound_rec.
  unfold _parse_property.
  eapply sound_step; [by apply sound_expect|]. intros name_tok.
  eapply sound_then; [by apply sound_expect|]. intros _.
  eapply sound_then; [done|]. intros value. apply sound_ret.
Qed.

Lemma sound_item {A B : Type} (item : M A) (f : A → B) :
  sound k true item →
  sound k true (bind item (fun x => bind (_match TOK_COMMA) (fun _ => ret (f x)))).
Proof.
  intros Hitem. eapply sound_then; [done|]. intros x.
  apply sound_bind; [apply sound_match|]. intros _. apply sound_ret.
Qed.

Lemma sound_parse_map_body : sound (S k) true (_parse_map_body rec).
Proof using sound_rec.
  unfold _parse_map_body.
  eapply sound_step; [by apply sound_expect|]. intros _.
  apply sound_bind.
  { apply sound_while; [apply sound_inside|].
    apply (sound_item _ (fun prop => prop)).
    eapply sound_weaken; [|apply sound_parse_property]. lia. }
  intros properties. apply sound_keep.
  eapply sound_then; [by apply sound_expect|]. intros _. apply sound_ret.
Qed.

Lemma sound_parse_list : sound (S k) true (_parse_list rec).
Proof using sound_rec.
  unfold _parse_list.
  eapply sound_step; [by apply sound_expect|]. intros _.
  apply sound_bind.
  { apply sound_while; [apply sound_inside|].
    by apply (sound_item _ (fun value => value)). }
  intros values. apply sound_keep.
  eapply sound_then; [by apply sound_expect|]. intros _. apply sound_ret.
Qed.

Lemma sound_parse_patterns : sound k false parse_patterns.
Proof.
  unfold parse_patterns. apply sound_bind; [apply sound_peek|]. intros tok.
  destruct (tok_type tok); try apply sound_raise;
    try (apply sound_bind; [apply sound_advance|]; intros ?; apply sound_ret).
  apply sound_bind; [apply sound_advance|]. intros _.
  apply sound_bind.
  { apply sound_while.
    - intros self. cbn. done.
    - apply (sound_item _ (fun p => StringExpr (value_str p))).
      by apply sound_expect. }
  intros patterns. apply sound_keep.
  eapply sound_then; [by apply sound_expect|]. intros _. apply sound_ret.
Qed.

Lemma sound_parse_select : sound (S k) true (_parse_select rec).
Proof using sound_rec.
  unfold _parse_select.
  eapply sound_step; [by apply sound_expect|]. intros _.
  eapply sound_then; [by apply sound_expect|]. intros _.
  eapply sound_then; [by apply sound_expect|]. intros func_name_tok.
  eapply sound_then; [by apply sound_expect|]. intros _.
  apply sound_bind.
  { apply sound_while; [apply sound_inside|].
    apply (sound_item _ value_str). by apply sound_expect. }
  intros func_args. apply sound_keep.
  eapply sound_then; [by apply sound_expect|]. intros _.
  eapply sound_then; [by apply sound_expect|]. intros _.
  eapply sound_then; [by apply sound_expect|]. intros _.
  apply sound_bind.
  { apply sound_while; [apply sound_inside|].
    apply (sound_bind_gen k false true); [apply sound_parse_patterns|].
    intros patterns.
    eapply sound_then; [by apply sound_expect|]. intros _.
    eapply sound_then; [done|]. intros value.
    apply sound_bind; [apply sound_match|]. intros _. apply sound_ret. }
  intros cases. apply sound_keep.
  eapply sound_then; [by apply sound_expect|]. intros _.
  eapply sound_then; [by apply sound_expect|]. intros _. apply sound_ret.
Qed.

Lemma sound_parse_primary : sound (S k) true (_parse_primary rec).
Proof using sound_rec.
  intros self. unfold _parse_primary, bind at 1, _peek, ret.
  cbv beta iota.
  destruct (tok_type (token_at self (pos self))) eqn:Htype;
    try (by (cbn; done));
    try (apply fine_advance; by rewrite Htype).
  - destruct (decide _); [apply fine_advance; by rewrite Htype|].
    destruct (decide _); [apply fine_advance; by rewrite Htype|].
    destruct (decide _); [apply fine_advance; by rewrite Htype|].
    destruct (decide _); [apply sound_parse_select|].
    apply fine_advance; by rewrite Htype.
  - eapply sound_then; [apply sound_parse_map_body|].
    intros props. apply sound_ret.
  - apply sound_parse_list.
Qed.

Lemma sound_plus_loop (rounds : nat) (left : Expression) (self : Parser) :
  remaining self < rounds →
  fine k false self (plus_loop rec rounds left self).
Proof using sound_rec.
  revert left self.
  induction rounds as [|rounds IH]; intros left self Hrounds; [lia|].
  cbn [plus_loop]. unfold bind at 1, _at, bind at 1, _peek, ret.
  cbv beta iota.
  destruct (is_type (token_at self (pos self)) TOK_PLUS) eqn:Hplus.
  2: { cbn. done. }
  unfold bind at 1, _advance. cbv beta iota. unfold bind.
  set (s0 := mkParser (tokens self) (pos self + 1) (filename self)).
  assert (pos self < length (tokens self)) as Hlt.
  { eapply token_at_lt, is_type_eof; done. }
  pose proof (sound_parse_primary s0) as Hb. unfold fine in Hb.
  destruct (_parse_primary rec s0) as [[[right s1]|e]|]; [| |done].
  - destruct Hb as (Ht1 & Hn1 & Hp1 & _). cbn [tokens pos filename s0] in *.
    assert (remaining s1 < rounds) as Hrem.
    { unfold remaining in *. rewrite Ht1. lia. }
    specialize (IH (OperatorExpr left "+" right) s1 Hrem). unfold fine in IH |- *.
    destruct (plus_loop rec rounds _ s1) as [[[v s2]|e]|]; [| |done].
    + destruct IH as (Ht2 & Hn2 & Hp2).
      split; [congruence|]. split; [congruence|]. lia.
    + intros He. specialize (IH He). unfold remaining in *. rewrite Ht1 in IH. lia.
  - intros He. specialize (Hb He). unfold remaining in *.
    cbn [tokens pos s0] in Hb. lia.
Qed.

Lemma sound_parse_expression_body : sound (S k) true (parse_expression_body rec).
Proof using sound_rec.
  unfold parse_expression_body.
  eapply sound_step; [apply sound_parse_primary|]. intros left self.
  apply sound_plus_loop. unfold remaining. lia.
Qed.
End Expression.

Lemma sound_parse_expression (limit : nat) :
  sound limit true (_parse_expression limit).
Proof.
  induction limit as [|limit IH].
  - intros self. cbn. intros _. lia.
  - cbn [_parse_expression]. by apply sound_parse_expression_body.
Qed.

Lemma sound_parse_assignment (limit : nat) :
  sound (S limit) true (_parse_assignment limit).
Proof.
  unfold _parse_assignment.
  eapply sound_step; [by apply sound_expect|]. intros name_tok.
  apply sound_bind; [apply sound_at|]. intros at_pluseq.
  apply sound_bind.
  { destruct at_pluseq.
    - apply sound_bind; [apply sound_advance|]. intros _. apply sound_ret.
    - apply sound_keep. eapply sound_then; [by apply sound_expect|].
      intros _. apply sound_ret. }
  intros assigner. apply sound_keep.
  eapply sound_then; [apply sound_parse_expression|]. intros value. apply sound_ret.
Qed.

Lemma sound_parse_module (limit : nat) :
  sound (S limit) true (_parse_module limit).
Proof.
  unfold _parse_module.
  eapply sound_step; [by apply sound_expect|]. intros type_tok.
  apply sound_keep. eapply sound_weaken with (k := S limit); [lia|].
  eapply sound_then; [apply sound_parse_map_body, sound_parse_expression|].
  intros properties. apply sound_ret.
Qed.

Lemma sound_parse_definition (limit : nat) :
  sound (S limit) true (_parse_definition limit).
Proof.
  intros self. unfold _parse_definition, bind, _peek, ret. cbv beta iota.
  destruct (negb _); [by cbn|].
  destruct (_ || _); [apply sound_parse_assignment|].
  destruct (is_type _ _); [apply sound_parse_module|]. by cbn.
Qed.

Lemma sound_parse (limit : nat) : sound (S limit) false (parse limit).
Proof.
  unfold parse. apply sound_bind.
  - apply sound_while; [|apply sound_parse_definition]. intros self. by cbn.
  - intros defs self. by cbn.
Qed.
Lemma is_type_eq (tok : Token) (type_ : token_type) :
  is_type tok type_ = true → tok_type tok = type_.
Proof. unfold is_type. by destruct (tok_type tok), type_. Qed.

(** A loop ends where its condition does not hold. *)
Lemma while_loop_exit {A : Type} (cond : M bool) (body : M A) (rounds : nat)
    (acc xs : list A) (self self' : Parser) :
  while_loop cond body rounds acc self = Some (Ok (xs, self')) →
  ∃ last, cond last = Some (Ok (false, self')).
Proof.
  revert acc self. induction rounds as [|rounds IH]; intros acc self; [done|].
  cbn [while_loop]. unfold bind at 1.
  destruct (cond self) as [[[go_on s0]|e]|] eqn:Hcond; [|done|done].
  destruct go_on.
  - unfold bind. destruct (body s0) as [[[x s1]|e]|]; [|done|done]. apply IH.
  - intros [= <- <-]. by exists self.
Qed.

End ParserEnds.


